(** * ngio: axes canonicalisation, schema dispatch and the plate protocol

    A shallow embedding of
    - [ngio/ome_zarr_meta/ngio_specs/_axes.py] (module [Axes]),
    - [ngio/ome_zarr_meta/_handlers.py] (module [Handlers]),
    - [ngio/utils/_zarr_utils.py] (module [ZarrUtils]),
    - [ngio/hcs/plate.py] (module [Plate]),
    together with the properties these modules are expected to satisfy. *)

From stdpp Require Import base list strings gmap sorting pretty.

Set Warnings "-clear-no-such-hyp,-register-all".

Open Scope string_scope.
Open Scope list_scope.
Open Scope nat_scope.
Open Scope stdpp_scope.

(** ** Results of fallible Python code

    A Python call either returns a value or raises an exception. *)

Inductive result (E A : Type) : Type :=
| Ok (a : A)
| Raise (e : E).
Arguments Ok {E A} a.
Arguments Raise {E A} e.

(** Sequencing: the first exception raised ends the computation. *)
#[global] Instance result_ret {E} : MRet (result E) := λ A a, Ok a.
#[global] Instance result_bind {E} : MBind (result E) := λ A B k r,
  match r with
  | Ok a => k a
  | Raise e => Raise e
  end.
#[global] Arguments result_bind {E A B} k !r /.

Definition is_ok {E A} (r : result E A) : bool :=
  match r with Ok _ => true | Raise _ => false end.

(** [for x in xs: body(x)] where the body may raise and returns a value that
    is collected. *)
Fixpoint for_each {E A B} (body : A → result E B) (xs : list A) : result E (list B) :=
  match xs with
  | [] => Ok []
  | x :: rest =>
      y ← body x;
      ys ← for_each body rest;
      Ok (y :: ys)
  end.

Module Axes.

(** *** Axis types and units *)

Inductive AxisType := AxisType_channel | AxisType_time | AxisType_space.

Inductive SpaceUnits :=
| SpaceUnits_nanometer | SpaceUnits_nm
| SpaceUnits_micrometer | SpaceUnits_um
| SpaceUnits_millimeter | SpaceUnits_mm
| SpaceUnits_centimeter | SpaceUnits_cm.

Inductive TimeUnits := TimeUnits_seconds | TimeUnits_s.

Definition SpaceUnits_default : SpaceUnits := SpaceUnits_um.
Definition TimeUnits_default : TimeUnits := TimeUnits_s.

(** The field [unit: SpaceUnits | TimeUnits | None]: the two enumerations
    share no value, so a unit belongs to exactly one family. *)
Inductive Unit :=
| InSpaceUnits (u : SpaceUnits)
| InTimeUnits (u : TimeUnits).

#[global] Instance AxisType_eq_dec : EqDecision AxisType.
Proof. solve_decision. Defined.
#[global] Instance SpaceUnits_eq_dec : EqDecision SpaceUnits.
Proof. solve_decision. Defined.
#[global] Instance TimeUnits_eq_dec : EqDecision TimeUnits.
Proof. solve_decision. Defined.
#[global] Instance Unit_eq_dec : EqDecision Unit.
Proof. solve_decision. Defined.

(** [isinstance(unit, TimeUnits)] and [isinstance(unit, SpaceUnits)]. *)
Definition isinstance_TimeUnits (u : option Unit) : bool :=
  match u with Some (InTimeUnits _) => true | _ => false end.
Definition isinstance_SpaceUnits (u : option Unit) : bool :=
  match u with Some (InSpaceUnits _) => true | _ => false end.

Record Axis := mkAxis {
  on_disk_name : string;
  unit : option Unit;
  axis_type : option AxisType;
}.

#[global] Instance Axis_eq_dec : EqDecision Axis.
Proof. solve_decision. Defined.

(** [Axis.implicit_type_cast]; the warnings it logs are not modelled. *)
Definition implicit_type_cast (self : Axis) (cast_type : AxisType) : Axis :=
  let new_axis := mkAxis (on_disk_name self) (unit self) (Some cast_type) in
  if bool_decide (cast_type = AxisType_time) && negb (isinstance_TimeUnits (unit self)) then
    mkAxis (on_disk_name self) (Some (InTimeUnits TimeUnits_default)) (Some AxisType_time)
  else if bool_decide (cast_type = AxisType_space) && negb (isinstance_SpaceUnits (unit self)) then
    mkAxis (on_disk_name self) (Some (InSpaceUnits SpaceUnits_default)) (Some AxisType_space)
  else if bool_decide (cast_type = AxisType_channel) && bool_decide (unit self ≠ None) then
    mkAxis (on_disk_name self) None (Some AxisType_channel)
  else new_axis.

(** [Axis.canonical_axis_cast]. *)
Definition canonical_axis_cast (self : Axis) (canonical_name : string) : Axis :=
  if bool_decide (canonical_name = "t") then
    if bool_decide (axis_type self ≠ Some AxisType_time) || negb (isinstance_TimeUnits (unit self))
    then implicit_type_cast self AxisType_time else self
  else if bool_decide (canonical_name = "c") then
    if bool_decide (axis_type self ≠ Some AxisType_channel) || bool_decide (unit self ≠ None)
    then implicit_type_cast self AxisType_channel else self
  else if bool_decide (canonical_name ∈ ["z"; "y"; "x"]) then
    if bool_decide (axis_type self ≠ Some AxisType_space) || negb (isinstance_SpaceUnits (unit self))
    then implicit_type_cast self AxisType_space else self
  else self.

(** *** Axes handling *)

Definition canonical_axes_order : list string := ["t"; "c"; "z"; "y"; "x"].

Record AxesSetup := mkAxesSetup {
  setup_x : string;
  setup_y : string;
  setup_z : string;
  setup_c : string;
  setup_t : string;
  others : list string;
}.

(** [AxesSetup()] with every field at its default. *)
Definition AxesSetup_default : AxesSetup := mkAxesSetup "x" "y" "z" "c" "t" [].

(** [axes_setup.model_dump(exclude={"others"})]: the fields in declaration
    order. *)
Definition model_dump (axes_setup : AxesSetup) : list (string * string) :=
  [("x", setup_x axes_setup); ("y", setup_y axes_setup); ("z", setup_z axes_setup);
   ("c", setup_c axes_setup); ("t", setup_t axes_setup)].

(** [getattr(axes_setup, name)] for a name of the canonical order. *)
Definition getattr (axes_setup : AxesSetup) (name : string) : option string :=
  (list_to_map (model_dump axes_setup) : gmap string string) !! name.

Inductive message :=
| flags_exclusive
| duplicate_axes (duplicates : list string)
| unknown_axes (names : list string)
| invalid_axis_name (name : string)
| invalid_axes_order (expected found : list string)
| duplicate_axis_name (name : string)
| axes_not_queried (missing : gset string).

Inductive exn :=
| NgioValidationError (msg : message)
| NgioValueError (msg : message)
| AttributeError (name : string)
| ValueError (name : string)
| KeyError (name : string)
| IndexError
| NumpyError.

Abbreviation res := (result exn).

(** [names.count(item)]. *)
Definition count (item : string) (names : list string) : nat :=
  length (filter (λ n, n = item) names).

Definition _check_unique_names (axes : list Axis) : res () :=
  let names := on_disk_name <$> axes in
  if bool_decide (length (remove_dups names) ≠ length names) then
    let duplicates := remove_dups (filter (λ item, 1 < count item names) names) in
    Raise (NgioValidationError (duplicate_axes duplicates))
  else Ok ().

Definition _check_non_canonical_axes (axes_setup : AxesSetup)
    (allow_non_canonical_axes : bool) : res () :=
  if negb allow_non_canonical_axes && bool_decide (0 < length (others axes_setup)) then
    Raise (NgioValidationError (unknown_axes (others axes_setup)))
  else Ok ().

Definition _check_axes_validity (axes : list Axis) (axes_setup : AxesSetup) : res () :=
  let _all_known_axes := (model_dump axes_setup).*2 ++ others axes_setup in
  for_each (λ ax,
    if bool_decide (on_disk_name ax ∉ _all_known_axes)
    then Raise (NgioValidationError (invalid_axis_name (on_disk_name ax)))
    else Ok ()) axes ;;
  Ok ().

Definition _check_canonical_order (axes : list Axis) (axes_setup : AxesSetup)
    (strict_canonical_order : bool) : res () :=
  if negb strict_canonical_order then Ok () else
  let _on_disk_names := on_disk_name <$> axes in
  _canonical_order ← for_each (λ name,
      match getattr axes_setup name with
      | Some mapped_name => Ok (if bool_decide (mapped_name ∈ _on_disk_names)
                                then [mapped_name] else [])
      | None => Raise (AttributeError name)
      end) canonical_axes_order;
  let _canonical_order := concat _canonical_order in
  if bool_decide (_on_disk_names ≠ _canonical_order) then
    Raise (NgioValidationError (invalid_axes_order _canonical_order _on_disk_names))
  else Ok ().

Definition validate_axes (axes : list Axis) (axes_setup : AxesSetup)
    (allow_non_canonical_axes strict_canonical_order : bool) : res () :=
  if allow_non_canonical_axes && strict_canonical_order then
    Raise (NgioValidationError flags_exclusive)
  else
    _check_unique_names axes ;;
    _check_non_canonical_axes axes_setup allow_non_canonical_axes ;;
    _check_axes_validity axes axes_setup ;;
    _check_canonical_order axes axes_setup strict_canonical_order.

Inductive AxesTransformation :=
| AxesTranspose (axes : list nat)
| AxesExpand (axes : list nat)
| AxesSqueeze (axes : list nat).

Record AxesMapper := mkAxesMapper {
  _allow_non_canonical_axes : bool;
  _strict_canonical_order : bool;
  _canonical_order : list string;
  _extended_canonical_order : list string;
  _on_disk_axes : list Axis;
  _axes_setup : AxesSetup;
  _name_mapping : gmap string (option string);
  _index_mapping : gmap string (option nat);
}.

Definition on_disk_axes (self : AxesMapper) : list Axis := _on_disk_axes self.

Definition on_disk_axes_names (self : AxesMapper) : list string :=
  on_disk_name <$> _on_disk_axes self.

(** [names.index(value)]: the first position holding [value]. *)
Fixpoint index {A} `{EqDecision A} (value : A) (names : list A) : option nat :=
  match names with
  | [] => None
  | n :: rest => if bool_decide (n = value) then Some 0 else S <$> index value rest
  end.

(** The bodies of the two loops of [_compute_name_mapping]. *)
Definition set_canonical_key (_on_disk_names : list string)
    (_name_mapping : gmap string (option string)) (item : string * string)
    : gmap string (option string) :=
  let '(canonical_key, on_disk_value) := item in
  if bool_decide (on_disk_value ∈ _on_disk_names)
  then <[canonical_key := Some on_disk_value]> _name_mapping
  else <[canonical_key := None]> _name_mapping.

Definition set_other_name (_name_mapping : gmap string (option string))
    (on_disk_name : string) : gmap string (option string) :=
  if bool_decide (on_disk_name ∉ dom _name_mapping)
  then <[on_disk_name := Some on_disk_name]> _name_mapping
  else _name_mapping.

(** [_compute_name_mapping], from the setup and the on-disk names. *)
Definition _compute_name_mapping (axes_setup : AxesSetup) (_on_disk_names : list string)
    : gmap string (option string) :=
  foldl set_other_name
    (foldl (set_canonical_key _on_disk_names) ∅ (model_dump axes_setup))
    _on_disk_names.

(** [_compute_index_mapping]: [list.index] raises [ValueError] on a name
    that is not on disk. *)
Definition _compute_index_mapping (_name_mapping : gmap string (option string))
    (_on_disk_names : list string) : res (gmap string (option nat)) :=
  match find (λ kv, match kv.2 with
                    | Some v => bool_decide (index v _on_disk_names = None)
                    | None => false
                    end) (map_to_list _name_mapping) with
  | Some (_, on_disk_value) => Raise (ValueError (default "" on_disk_value))
  | None => Ok ((λ on_disk_value, on_disk_value ≫= λ v, index v _on_disk_names)
                <$> _name_mapping)
  end.

Definition get_index (self : AxesMapper) (name : string) : res (option nat) :=
  match _index_mapping self !! name with
  | None => Raise (NgioValueError (invalid_axis_name name))
  | Some idx => Ok idx
  end.

Definition get_axis (self : AxesMapper) (name : string) : res (option Axis) :=
  idx ← get_index self name;
  match idx with
  | None => Ok None
  | Some i =>
      match on_disk_axes self !! i with
      | Some ax => Ok (Some ax)
      | None => Raise IndexError
      end
  end.

(** The inner loop of [validate_axex_type], with its [break] and its
    [for ... else]. *)
Fixpoint cast_first_match (self : AxesMapper) (axes : Axis) (names : list string) : res Axis :=
  match names with
  | [] => Ok axes
  | name :: rest =>
      found ← get_axis self name;
      if bool_decide (Some axes = found) then Ok (canonical_axis_cast axes name)
      else cast_first_match self axes rest
  end.

Definition set_on_disk_axes (self : AxesMapper) (new_axes : list Axis) : AxesMapper :=
  mkAxesMapper (_allow_non_canonical_axes self) (_strict_canonical_order self)
    (_canonical_order self) (_extended_canonical_order self)
    new_axes (_axes_setup self) (_name_mapping self) (_index_mapping self).

Definition validate_axex_type (self : AxesMapper) : res AxesMapper :=
  new_axes ← for_each (λ axes, cast_first_match self axes (_canonical_order self))
                      (on_disk_axes self);
  Ok (set_on_disk_axes self new_axes).

(** [AxesMapper.__init__]. *)
Definition AxesMapper_init (on_disk_axes : list Axis) (axes_setup : option AxesSetup)
    (allow_non_canonical_axes strict_canonical_order : bool) : res AxesMapper :=
  let axes_setup := default AxesSetup_default axes_setup in
  validate_axes on_disk_axes axes_setup allow_non_canonical_axes strict_canonical_order ;;
  let names := on_disk_name <$> on_disk_axes in
  let name_mapping := _compute_name_mapping axes_setup names in
  index_mapping ← _compute_index_mapping name_mapping names;
  validate_axex_type
    (mkAxesMapper allow_non_canonical_axes strict_canonical_order
       canonical_axes_order (others axes_setup ++ canonical_axes_order)
       on_disk_axes axes_setup name_mapping index_mapping).

(** *** Reordering *)

(** The first loop of [_change_order]: every requested name must be a key of
    the index mapping, and no two requested names may resolve to the same
    on-disk name.  [self._name_mapping.get(name)] is [None] for a missing key
    and for a key mapped to [None]. *)
Fixpoint resolve_names (self : AxesMapper) (names : list string)
    (unique_names : gset string) : res (gset string) :=
  match names with
  | [] => Ok unique_names
  | name :: rest =>
      if bool_decide (name ∉ dom (_index_mapping self)) then
        Raise (NgioValueError (invalid_axis_name name))
      else
        match mjoin (_name_mapping self !! name) with
        | None => resolve_names self rest unique_names
        | Some _unique_name =>
            if bool_decide (_unique_name ∈ unique_names) then
              Raise (NgioValueError (duplicate_axis_name _unique_name))
            else resolve_names self rest ({[_unique_name]} ∪ unique_names)
        end
  end.

(** The second loop of [_change_order], over [enumerate(names)] from
    position [i] on. *)
Fixpoint split_indices (self : AxesMapper) (i : nat) (names : list string)
    : res (list nat * list nat) :=
  match names with
  | [] => Ok ([], [])
  | name :: rest =>
      match _index_mapping self !! name with
      | None => Raise (KeyError name)
      | Some _index =>
          '(_indices, _insert) ← split_indices self (S i) rest;
          match _index with
          | None => Ok (_indices, i :: _insert)
          | Some idx => Ok (idx :: _indices, _insert)
          end
      end
  end.

Definition _change_order (self : AxesMapper) (names : list string)
    : res (list nat * list nat) :=
  unique_names ← resolve_names self names ∅;
  if bool_decide (size unique_names < length (on_disk_axes_names self)) then
    let missing_names := list_to_set (on_disk_axes_names self) ∖ unique_names in
    Raise (NgioValueError (axes_not_queried missing_names))
  else split_indices self 0 names.

(** [np.argsort] of a sequence of integers: the positions ordered by the
    value they hold.  The values sorted here are pairwise distinct, so the
    order among equal values plays no role. *)
Definition by_value (a b : nat * nat) : Prop := a.1 ≤ b.1.
#[global] Instance by_value_dec : RelDecision by_value.
Proof. intros a b. unfold by_value. apply _. Defined.

Definition argsort (values : list nat) : list nat :=
  (merge_sort by_value (zip values (seq 0 (length values)))).*2.

Definition to_order (self : AxesMapper) (names : list string) : res (list AxesTransformation) :=
  '(_indices, _insert) ← _change_order self names;
  Ok [AxesTranspose _indices; AxesExpand _insert].

Definition from_order (self : AxesMapper) (names : list string) : res (list AxesTransformation) :=
  '(_indices, _insert) ← _change_order self names;
  let _reverse_indices := argsort _indices in
  Ok [AxesSqueeze _insert; AxesTranspose _reverse_indices].

Definition to_canonical (self : AxesMapper) : res (list AxesTransformation) :=
  to_order self (_extended_canonical_order self).

Definition from_canonical (self : AxesMapper) : res (list AxesTransformation) :=
  from_order self (_extended_canonical_order self).

(** *** Applying a plan to a list *)

(** [input_list[i]] for a position that is not negative. *)
Definition getitem {T} (input_list : list T) (i : nat) : res T :=
  match input_list !! i with
  | Some x => Ok x
  | None => Raise IndexError
  end.

(** [input_list.insert(ax, default)]: past the end, the value is appended. *)
Definition list_insert_at {T} (input_list : list T) (ax : nat) (default : T) : list T :=
  take ax input_list ++ default :: drop ax input_list.

(** [input_list.pop(i)] for an integer [i]: a negative position counts from
    the end; out of range raises [IndexError]. *)
Definition list_pop {T} (input_list : list T) (i : Z) : res (list T) :=
  let n := Z.of_nat (length input_list) in
  let j := if bool_decide (i < 0)%Z then (i + n)%Z else i in
  if bool_decide (0 ≤ j < n)%Z then Ok (delete (Z.to_nat j) input_list)
  else Raise IndexError.

(** [for offset, ax in enumerate(axes): input_list.pop(ax - offset)]. *)
Fixpoint squeeze_list {T} (input_list : list T) (offset : nat) (axes : list nat)
    : res (list T) :=
  match axes with
  | [] => Ok input_list
  | ax :: rest =>
      popped ← list_pop input_list (Z.of_nat ax - Z.of_nat offset);
      squeeze_list popped (S offset) rest
  end.

(** One pass of the loop of [transform_list].  The list bound to
    [input_list] is the caller's list object until a transposition binds a
    new one; insertions and removals change the bound object in place.  The
    first component tells whether the bound object is still the caller's. *)
Definition transform_list_step {T} (default : T) (state : bool * list T)
    (operation : AxesTransformation) : res (bool * list T) :=
  let '(aliased, input_list) := state in
  match operation with
  | AxesTranspose axes =>
      new_list ← for_each (getitem input_list) axes;
      Ok (false, new_list)
  | AxesExpand axes =>
      Ok (aliased, foldl (λ l ax, list_insert_at l ax default) input_list axes)
  | AxesSqueeze axes =>
      popped ← squeeze_list input_list 0 axes;
      Ok (aliased, popped)
  end.

Fixpoint transform_list_loop {T} (default : T) (state : bool * list T)
    (caller : list T) (operations : list AxesTransformation) : res (list T * list T) :=
  match operations with
  | [] => Ok (caller, state.2)
  | operation :: rest =>
      state' ← transform_list_step default state operation;
      transform_list_loop default state'
        (if state'.1 then state'.2 else caller) rest
  end.

(** [transform_list]: returns the caller's list as the call leaves it,
    and the returned list. *)
Definition transform_list {T} (input_list : list T) (default : T)
    (operations : list AxesTransformation) : res (list T * list T) :=
  transform_list_loop default (true, input_list) input_list operations.

(** *** Applying a plan to an array *)

(** An N-dimensional array: its shape and the element at each index. *)
Record ndarray (T : Type) := mk_ndarray {
  shape : list nat;
  item : list nat → T;
}.
Arguments mk_ndarray {T} shape item.
Arguments shape {T} _.
Arguments item {T} _ _.

Definition ndim {T} (array : ndarray T) : nat := length (shape array).

(** The elements of [l] at the positions that are not in [positions], the
    first element of [l] being at position [ax]. *)
Fixpoint remove_positions {A} (positions : list nat) (ax : nat) (l : list A) : list A :=
  match l with
  | [] => []
  | x :: rest =>
      if bool_decide (ax ∈ positions) then remove_positions positions (S ax) rest
      else x :: remove_positions positions (S ax) rest
  end.

(** [[d if ax in positions else next(it) for ax in range(ax, ax + n)]],
    with [it] an iterator over [l]. *)
Fixpoint fill_positions {A} (positions : list nat) (d : A) (ax n : nat) (l : list A) : list A :=
  match n with
  | 0 => []
  | S n' =>
      if bool_decide (ax ∈ positions) then d :: fill_positions positions d (S ax) n' l
      else match l with
           | x :: rest => x :: fill_positions positions d (S ax) n' rest
           | [] => []
           end
  end.

(** The checks of NumPy's [normalize_axis_tuple]: every axis is within
    [ndim] and none is repeated. *)
Definition normalized (axes : list nat) (ndim : nat) : bool :=
  bool_decide (Forall (λ ax, ax < ndim) axes) && bool_decide (NoDup axes).

(** [np.transpose(array, axes)]: dimension [k] of the result is dimension
    [axes[k]] of the array. *)
Definition np_transpose {T} (array : ndarray T) (axes : list nat) : res (ndarray T) :=
  if bool_decide (length axes = ndim array) && normalized axes (ndim array) then
    Ok (mk_ndarray ((λ ax, shape array !!! ax) <$> axes)
          (λ idx, item array ((λ j, idx !!! default 0 (index j axes)) <$> seq 0 (ndim array))))
  else Raise NumpyError.

(** [np.expand_dims(array, axis=axes)]: dimensions of length one at the
    positions [axes] of the result. *)
Definition np_expand_dims {T} (array : ndarray T) (axes : list nat) : res (ndarray T) :=
  let out_ndim := length axes + ndim array in
  if normalized axes out_ndim then
    Ok (mk_ndarray (fill_positions axes 1 0 out_ndim (shape array))
          (λ idx, item array (remove_positions axes 0 idx)))
  else Raise NumpyError.

(** [np.squeeze(array, axis=axes)]: removes the dimensions [axes], each of
    which must have length one. *)
Definition np_squeeze {T} (array : ndarray T) (axes : list nat) : res (ndarray T) :=
  if normalized axes (ndim array)
     && bool_decide (Forall (λ ax, shape array !! ax = Some 1) axes) then
    Ok (mk_ndarray (remove_positions axes 0 (shape array))
          (λ idx, item array (fill_positions axes 0 0 (ndim array) idx)))
  else Raise NumpyError.

Definition transform_array_step {T} (array : ndarray T) (operation : AxesTransformation)
    : res (ndarray T) :=
  match operation with
  | AxesTranspose axes => np_transpose array axes
  | AxesExpand axes => np_expand_dims array axes
  | AxesSqueeze axes => np_squeeze array axes
  end.

Fixpoint transform_array {T} (array : ndarray T) (operations : list AxesTransformation)
    : res (ndarray T) :=
  match operations with
  | [] => Ok array
  | operation :: rest =>
      array' ← transform_array_step array operation;
      transform_array array' rest
  end.

End Axes.

Module Handlers.

(** *** The manager of the handlers of the known metadata versions

    A handler class is called with [store], [cache] and [mode] and gives a
    handler, unless its constructor raises; [safe_load_meta] of a handler
    gives the metadata or the validation error met while reading it.  The
    handler classes are registered from other modules, so the manager is
    written over any such classes. *)
Section GenericHandlersManager.
Context {Store Handler Meta ValidationError E : Type}.
Variable safe_load_meta : Handler → Meta + ValidationError.

Definition HandlerClass : Type := Store → bool → string → result E Handler.

(** [NgioValidationError] carries the dictionary [_errors] of its message,
    [NgioValueError] the key that is already registered; [Propagated] is
    an exception of a handler's constructor. *)
Inductive exn :=
| NgioValidationError (_errors : gmap string ValidationError)
| NgioValueError (key : string)
| Propagated (e : E).

(** [_implemented_handlers]: a dictionary, which keeps its keys in the
    order of their first insertion. *)
Definition GenericHandlersManager : Type := list (string * HandlerClass).

Definition new : GenericHandlersManager := [].

Definition keys (self : GenericHandlersManager) : list string := self.*1.

(** [d[key] = handler]: the value of a key that is present is replaced
    where it is, a new key goes last. *)
Fixpoint setitem (d : list (string * HandlerClass)) (key : string) (handler : HandlerClass)
    : list (string * HandlerClass) :=
  match d with
  | [] => [(key, handler)]
  | (k, h) :: rest =>
      if bool_decide (k = key) then (k, handler) :: rest
      else (k, h) :: setitem rest key handler
  end.

Definition available_handlers (self : GenericHandlersManager) : list string :=
  reverse (keys self).

(** The loop of [get_handler] over the items that are left. *)
Fixpoint get_handler_loop (items : list (string * HandlerClass))
    (store : Store) (cache : bool) (mode : string)
    (_errors : gmap string ValidationError) : result exn Handler :=
  match items with
  | [] => Raise (NgioValidationError _errors)
  | (version, handler) :: rest =>
      match handler store cache mode with
      | Raise e => Raise (Propagated e)
      | Ok handler =>
          match safe_load_meta handler with
          | inr meta => get_handler_loop rest store cache mode (<[version := meta]> _errors)
          | inl _ => Ok handler
          end
      end
  end.

Definition get_handler (self : GenericHandlersManager)
    (store : Store) (cache : bool) (mode : string) : result exn Handler :=
  get_handler_loop (reverse self) store cache mode ∅.

(** [add_handler] changes the manager; the changed manager is returned. *)
Definition add_handler (self : GenericHandlersManager) (key : string)
    (handler : HandlerClass) (overwrite : bool) : result exn GenericHandlersManager :=
  if bool_decide (key ∈ keys self) && negb overwrite then Raise (NgioValueError key)
  else Ok (setitem self key handler).

End GenericHandlersManager.

End Handlers.

Module ZarrUtils.

(** *** Stores and groups

    The kinds of store the code tells apart with [isinstance]: a [str], a
    [Path], an [FSMap], an [FSStore], a [DirectoryStore], and any other zarr
    [Store]. *)
Inductive Store :=
| store_str (path : string)
| store_Path (path : string)
| store_FSMap (root : string)
| store_FSStore (url : string)
| store_DirectoryStore (path : string)
| store_other (name : string).

#[global] Instance Store_eq_dec : EqDecision Store.
Proof. solve_decision. Defined.

(** [isinstance(store, NgioSupportedStore)] *)
Definition isinstance_NgioSupportedStore (store : Store) : bool :=
  match store with
  | store_other _ => false
  | _ => true
  end.

(** [isinstance(_store, str | Path)], with the text of the path. *)
Definition isinstance_str_or_Path (_store : Store) : option string :=
  match _store with
  | store_str path | store_Path path => Some path
  | _ => None
  end.

(** What the code reads of a [zarr.Group]: its store, its path in the store,
    whether it is read only, and the cache flag of its attributes. *)
Record Group := mkGroup {
  group_store : Store;
  group_path : string;
  _read_only : bool;
  attrs_cache : bool
}.

#[global] Instance Group_eq_dec : EqDecision Group.
Proof. solve_decision. Defined.

Inductive StoreOrGroup :=
| a_store (store : Store)
| a_group (group : Group).

(** *** Exceptions *)

Inductive message :=
| mode_not_supported (mode : string)
| cache_and_parallel_safe_exclusive
| store_must_be_a_path
| group_read_only_write_mode
| handler_not_parallel_safe
| group_read_only_metadata
| create_group_read_only_mode
| group_exists_at (store : Store)
| no_group_found_at (store : Store)
| no_group_found (path : string)
| image_does_not_exist (path row column : string)
| well_does_not_exist (row column : string)
| image_not_in_well (path : string)
| image_already_in_well (path : string)
| not_a_plate_document
| not_a_well_document.

(** The exceptions of [zarr.open_group]. *)
Inductive zarr_error :=
| ContainsGroupError
| GroupNotFoundError
| other_zarr_error (name : string).

Inductive exn :=
| NgioValueError (m : message)
| NgioValidationError (m : message)
| NgioFileExistsError (m : message)
| NgioFileNotFoundError (m : message)
| NotImplementedError (store : Store)
| ValueError (m : message)
| NotFound (m : message)
| Timeout (lock_file : string)
| Zarr (e : zarr_error).

Abbreviation res := (result exn).

(** *** The handler *)

(** [FileLock(lock_path, timeout=10)] *)
Record FileLock := mkFileLock {
  lock_file : string;
  timeout : nat
}.

(** The fields that [__init__] sets.  The dictionary [_cache] starts empty
    and holds copies of what the store holds, it is not part of the
    record. *)
Inductive ZarrGroupHandler := mkZarrGroupHandler {
  _group : Group;
  _mode : string;
  _store : Store;
  use_cache : bool;
  _parallel_safe : bool;
  _lock_path : option string;
  _lock : option FileLock;
  _parent : option ZarrGroupHandler
}.

Section open_group.
(** [zarr.open_group(store=..., path=..., mode=...)], which belongs to the
    zarr library. *)
Variable zarr_open_group : Store → string → string → result zarr_error Group.

Definition _check_store (store : Store) : res Store :=
  if isinstance_NgioSupportedStore store then Ok store
  else Raise (NotImplementedError store).

Definition _check_group (group : Group) (mode : string) : res Group :=
  let is_read_only := _read_only group in
  if is_read_only && bool_decide (mode ∈ ["w"; "w-"]) then
    Raise (NgioValueError group_read_only_write_mode)
  else if bool_decide (mode = "r") && negb is_read_only then
    match zarr_open_group (group_store group) (group_path group) "r" with
    | Ok group => Ok group
    | Raise e => Raise (Zarr e)
    end
  else Ok group.

(** For a group, [_store] is the path of a [DirectoryStore] and the store
    itself otherwise: the value taken from [store_path] is always
    replaced by one of the two.  For a store, only the two zarr errors
    named in the [except] clauses are translated. *)
Definition open_group_wrapper (store : StoreOrGroup) (mode : string) : res (Group * Store) :=
  match store with
  | a_group store =>
      group ← _check_group store mode;
      let _store :=
        match group_store group with
        | store_DirectoryStore path => store_str path
        | other => other
        end in
      _store ← _check_store _store;
      Ok (group, _store)
  | a_store store =>
      store ← _check_store store;
      match zarr_open_group store "" mode with
      | Ok group => Ok (group, store)
      | Raise ContainsGroupError => Raise (NgioFileExistsError (group_exists_at store))
      | Raise GroupNotFoundError => Raise (NgioFileNotFoundError (no_group_found_at store))
      | Raise e => Raise (Zarr e)
      end
  end.

Definition set_attrs_cache (group : Group) (cache : bool) : Group :=
  mkGroup (group_store group) (group_path group) (_read_only group) cache.

(** [ZarrGroupHandler.__init__] *)
Definition ZarrGroupHandler_init (store : StoreOrGroup) (cache : bool) (mode : string)
    (parallel_safe : bool) (parent : option ZarrGroupHandler) : res ZarrGroupHandler :=
  if bool_decide (mode ∉ ["r"; "r+"; "w"; "w-"; "a"]) then
    Raise (NgioValueError (mode_not_supported mode))
  else if parallel_safe && cache then
    Raise (NgioValueError cache_and_parallel_safe_exclusive)
  else
    '(_group, _store) ← open_group_wrapper store mode;
    let _group := set_attrs_cache _group cache in
    if parallel_safe then
      match isinstance_str_or_Path _store with
      | None => Raise (NgioValueError store_must_be_a_path)
      | Some path =>
          let lock_path := path +:+ ".lock" in
          Ok (mkZarrGroupHandler _group mode _store cache parallel_safe
                (Some lock_path) (Some (mkFileLock lock_path 10)) parent)
      end
    else
      Ok (mkZarrGroupHandler _group mode _store cache parallel_safe None None parent).

End open_group.

(** The property [lock]. *)
Definition lock (self : ZarrGroupHandler) : res FileLock :=
  match _lock self with
  | None => Raise (NgioValueError handler_not_parallel_safe)
  | Some l => Ok l
  end.

End ZarrUtils.

Module Plate.
Import ZarrUtils.

(** *** The documents of a plate and of a well *)

(** A column is given as an [int] or as a [str]. *)
Inductive Column :=
| column_int (n : Z)
| column_str (s : string).

#[global] Instance Column_eq_dec : EqDecision Column.
Proof. solve_decision. Defined.

(** [f"{column}"] *)
Definition column_text (column : Column) : string :=
  match column with
  | column_int n => pretty n
  | column_str s => s
  end.

(** Modelled from the spec: the class [NgioPlateMeta], which is not among
    the sources.  The plate document holds the sets of rows, columns and
    acquisitions and the ordered list of the references to its wells, each
    with its path [f"{row}/{column}"], row, column and acquisition. *)
Record WellRef := mkWellRef {
  well_path : string;
  well_row : string;
  well_column : Column;
  well_acquisition_id : option Z
}.

Record NgioPlateMeta := mkNgioPlateMeta {
  rows : gset string;
  columns : gset string;
  acquisitions : gset (Z * option string);
  wells : list WellRef
}.

(** Modelled from the spec: the class [NgioWellMeta], which is not among the
    sources.  The well document holds the ordered list of the references to
    its images, each with its path and acquisition. *)
Record ImageRef := mkImageRef {
  image_path : string;
  image_acquisition_id : option Z
}.

Record NgioWellMeta := mkNgioWellMeta {
  images : list ImageRef
}.

(** Modelled from the spec: a well is identified by its row and column, and
    its path is [f"{row}/{column}"]; a column given as [1] and as ["1"] is
    the same column, since the two give the same path and paths are
    unique. *)
Definition is_well (row : string) (column : Column) (well : WellRef) : Prop :=
  well_row well = row ∧ column_text (well_column well) = column_text column.

#[global] Instance is_well_dec row column well : Decision (is_well row column well).
Proof. unfold is_well. apply _. Defined.

(** Modelled from the spec: [NgioPlateMeta.default_init] with no rows and no
    columns, the empty plate document. *)
Definition NgioPlateMeta_default_init : NgioPlateMeta := mkNgioPlateMeta ∅ ∅ ∅ [].

(** Modelled from the spec: [NgioPlateMeta.get_well_path], the path of the
    well at a row and a column; a missing well is not found. *)
Definition get_well_path (meta : NgioPlateMeta) (row : string) (column : Column) : res string :=
  match filter (is_well row column) (wells meta) with
  | well :: _ => Ok (well_path well)
  | [] => Raise (NotFound (well_does_not_exist row (column_text column)))
  end.

(** Modelled from the spec: [NgioPlateMeta.add_well], the document with the
    well added if it is not already present, the well being identified by
    its row and column. *)
Definition add_well (meta : NgioPlateMeta) (row : string) (column : Column)
    (acquisition_id : option Z) (acquisition_name : option string) : NgioPlateMeta :=
  if bool_decide (Exists (is_well row column) (wells meta)) then meta
  else
    mkNgioPlateMeta
      ({[row]} ∪ rows meta)
      ({[column_text column]} ∪ columns meta)
      (match acquisition_id with
       | Some id => {[(id, acquisition_name)]} ∪ acquisitions meta
       | None => acquisitions meta
       end)
      (wells meta
       ++ [mkWellRef (row +:+ "/" +:+ column_text column) row column acquisition_id]).

(** Modelled from the spec: [NgioPlateMeta.remove_well], the document
    without the entry of the well. *)
Definition remove_well (meta : NgioPlateMeta) (row : string) (column : Column) : NgioPlateMeta :=
  mkNgioPlateMeta (rows meta) (columns meta) (acquisitions meta)
    (filter (λ well, ¬ is_well row column well) (wells meta)).

(** Modelled from the spec: [NgioWellMeta.default_init], the well document
    of the given image paths. *)
Definition NgioWellMeta_default_init (images_paths : list string)
    (acquisition_ids : option (list Z)) : NgioWellMeta :=
  mkNgioWellMeta
    (zip_with mkImageRef images_paths
       (match acquisition_ids with
        | None => replicate (length images_paths) None
        | Some ids => Some <$> ids
        end)).

(** Modelled from the spec: [NgioWellMeta.paths], the image paths of the
    well, all of them or those of one acquisition. *)
Definition paths (meta : NgioWellMeta) (acquisition : option Z) : list string :=
  image_path <$>
    match acquisition with
    | None => images meta
    | Some id => filter (λ image, image_acquisition_id image = Some id) (images meta)
    end.

(** Modelled from the spec: [NgioWellMeta.add_image], the document with the
    new image reference appended.  The image paths of a well are unique; a
    path that the well already lists is refused, which keeps them so. *)
Definition add_image (meta : NgioWellMeta) (path : string) (acquisition : option Z)
    : res NgioWellMeta :=
  if bool_decide (path ∈ paths meta None) then
    Raise (NgioValueError (image_already_in_well path))
  else Ok (mkNgioWellMeta (images meta ++ [mkImageRef path acquisition])).

(** Modelled from the spec: [NgioWellMeta.remove_image], the document
    without the matching image reference; an absent path is not found. *)
Definition remove_image (meta : NgioWellMeta) (path : string) : res NgioWellMeta :=
  if bool_decide (path ∈ paths meta None) then
    Ok (mkNgioWellMeta (filter (λ image, image_path image ≠ path) (images meta)))
  else Raise (NotFound (image_not_in_well path)).

(** *** The store

    The attributes of a group are empty or hold a document; the store maps
    the path of each of its groups to the attributes of the group.  [held]
    lists the lock files this process holds. *)
Inductive Attrs :=
| attrs_empty
| attrs_plate (meta : NgioPlateMeta)
| attrs_well (meta : NgioWellMeta).

Record Zarr := mkZarr {
  nodes : gmap string Attrs;
  held : list string
}.

(** A method runs on the store and returns or raises; what it has written
    before it raises stays written. *)
Definition M (A : Type) : Type := Zarr → res A * Zarr.

#[global] Instance M_ret : MRet M := λ A a w, (Ok a, w).
#[global] Instance M_bind : MBind M := λ A B k m w,
  match m w with
  | (Ok a, w') => k a w'
  | (Raise e, w') => (Raise e, w')
  end.

Definition raise {A} (e : exn) : M A := λ w, (Raise e, w).
Definition lift {A} (r : res A) : M A := λ w, (r, w).

(** *** Locks

    [MockLock] does nothing; a [FileLock] is acquired on entering the [with]
    block and released on leaving it, also when the block raises. *)
Inductive Lock :=
| MockLock
| a_FileLock (l : FileLock).

Fixpoint release (file : string) (files : list string) : list string :=
  match files with
  | [] => []
  | f :: rest => if bool_decide (f = file) then rest else f :: release file rest
  end.

Section plate.
(** [zarr.open_group], and whether the file lock library acquires the lock
    on a file within the timeout, given the lock files this process
    holds. *)
Variable zarr_open_group : Store → string → string → result zarr_error Group.
Variable acquires : string → list string → bool.

Definition __enter__ (l : Lock) : M unit :=
  match l with
  | MockLock => mret ()
  | a_FileLock l => λ w,
      if acquires (lock_file l) (held w) then
        (Ok (), mkZarr (nodes w) (lock_file l :: held w))
      else (Raise (Timeout (lock_file l)), w)
  end.

Definition __exit__ (l : Lock) : M unit :=
  match l with
  | MockLock => mret ()
  | a_FileLock l => λ w, (Ok (), mkZarr (nodes w) (release (lock_file l) (held w)))
  end.

(** [with l: body] *)
Definition with_ {A} (l : Lock) (body : M A) : M A := λ w,
  match __enter__ l w with
  | (Raise e, w1) => (Raise e, w1)
  | (Ok _, w1) =>
      let '(r, w2) := body w1 in
      let '(_, w3) := __exit__ l w2 in
      (r, w3)
  end.

(** **** The methods of [ZarrGroupHandler] that reach the store *)

(** The path of a child of a group. *)
Definition join (parent path : string) : string :=
  if bool_decide (parent = "") then path else parent +:+ "/" +:+ path.

Definition child (group : Group) (path : string) : Group :=
  mkGroup (group_store group) (join (group_path group) path)
    (_read_only group) (attrs_cache group).

(** [load_attrs]: the attributes of the group, read from the store. *)
Definition load_attrs (self : ZarrGroupHandler) : M Attrs := λ w,
  (Ok (default attrs_empty (nodes w !! group_path (_group self))), w).

(** [write_attrs], with the document taking the place of the one the
    group held. *)
Definition write_attrs (self : ZarrGroupHandler) (attrs : Attrs) : M unit :=
  let is_read_only := _read_only (_group self) in
  if is_read_only then raise (NgioValueError group_read_only_metadata)
  else λ w, (Ok (), mkZarr (<[group_path (_group self) := attrs]> (nodes w)) (held w)).

(** [clean_cache] empties the handler's dictionary of cached copies, which
    the store does not see. *)
Definition clean_cache (self : ZarrGroupHandler) : M unit := mret ().

Definition create_group (self : ZarrGroupHandler) (path : string) : M Group :=
  if bool_decide (_mode self = "r") then raise (NgioValueError create_group_read_only_mode)
  else λ w,
    let group := child (_group self) path in
    (Ok group, mkZarr (<[group_path group := attrs_empty]> (nodes w)) (held w)).

Definition get_group (self : ZarrGroupHandler) (path : string) (create_mode : bool)
    : M Group := λ w,
  match nodes w !! join (group_path (_group self)) path with
  | Some _ => (Ok (child (_group self) path), w)
  | None =>
      if negb create_mode then (Raise (NgioFileNotFoundError (no_group_found path)), w)
      else create_group self path w
  end.

Definition derive_handler (self : ZarrGroupHandler) (path : string) : M ZarrGroupHandler :=
  group ← get_group self path true;
  lift (ZarrGroupHandler_init zarr_open_group (a_group group) (use_cache self)
          (_mode self) (_parallel_safe self) (Some self)).

(** **** The metadata handlers

    Modelled from the spec: the metadata handlers of a plate and of a
    well, which are not among the sources.  A handler is bound to the
    group handler of its node; [meta] loads the document the node holds
    and fails with a validation error when the attributes are not such a
    document; [write_meta] writes the document to the node; finding the
    handler of a node loads its document once. *)
Record MetaHandler := mkMetaHandler {
  meta_group_handler : ZarrGroupHandler
}.

Definition plate_meta (self : MetaHandler) : M NgioPlateMeta :=
  attrs ← load_attrs (meta_group_handler self);
  match attrs with
  | attrs_plate meta => mret meta
  | _ => raise (NgioValidationError not_a_plate_document)
  end.

Definition well_meta (self : MetaHandler) : M NgioWellMeta :=
  attrs ← load_attrs (meta_group_handler self);
  match attrs with
  | attrs_well meta => mret meta
  | _ => raise (NgioValidationError not_a_well_document)
  end.

Definition write_plate_meta (self : MetaHandler) (meta : NgioPlateMeta) : M unit :=
  write_attrs (meta_group_handler self) (attrs_plate meta).

Definition write_well_meta (self : MetaHandler) (meta : NgioWellMeta) : M unit :=
  write_attrs (meta_group_handler self) (attrs_well meta).

Definition get_plate_meta_handler (group_handler : ZarrGroupHandler) (version : string)
    : MetaHandler := mkMetaHandler group_handler.

Definition get_well_meta_handler (group_handler : ZarrGroupHandler) (version : string)
    : MetaHandler := mkMetaHandler group_handler.

Definition find_plate_meta_handler (group_handler : ZarrGroupHandler) : M MetaHandler :=
  plate_meta (mkMetaHandler group_handler) ;; mret (mkMetaHandler group_handler).

Definition find_well_meta_handler (group_handler : ZarrGroupHandler) : M MetaHandler :=
  well_meta (mkMetaHandler group_handler) ;; mret (mkMetaHandler group_handler).

(** **** [OmeZarrWell] *)

Record OmeZarrWell := mkOmeZarrWell {
  well_group_handler : ZarrGroupHandler;
  well_meta_handler : MetaHandler
}.

Definition OmeZarrWell_init (group_handler : ZarrGroupHandler) : M OmeZarrWell :=
  _meta_handler ← find_well_meta_handler group_handler;
  mret (mkOmeZarrWell group_handler _meta_handler).

Definition OmeZarrWell_meta (self : OmeZarrWell) : M NgioWellMeta :=
  well_meta (well_meta_handler self).

Definition OmeZarrWell_paths (self : OmeZarrWell) (acquisition : option Z)
    : M (list string) :=
  meta ← OmeZarrWell_meta self;
  mret (paths meta acquisition).

(** **** [OmeZarrPlate] *)

Record OmeZarrPlate := mkOmeZarrPlate {
  _group_handler : ZarrGroupHandler;
  _meta_handler : MetaHandler
}.

Definition OmeZarrPlate_init (group_handler : ZarrGroupHandler) : M OmeZarrPlate :=
  _meta_handler ← find_plate_meta_handler group_handler;
  mret (mkOmeZarrPlate group_handler _meta_handler).

Definition meta (self : OmeZarrPlate) : M NgioPlateMeta :=
  plate_meta (_meta_handler self).

Definition wells_paths (self : OmeZarrPlate) : M (list string) :=
  meta ← meta self;
  mret (well_path <$> wells meta).

Definition OmeZarrPlate_get_well_path (self : OmeZarrPlate) (row : string)
    (column : Column) : M string :=
  meta ← meta self;
  lift (get_well_path meta row column).

Definition get_well (self : OmeZarrPlate) (row : string) (column : Column)
    : M OmeZarrWell :=
  meta ← meta self;
  well_path ← lift (get_well_path meta row column);
  group_handler ← derive_handler (_group_handler self) well_path;
  OmeZarrWell_init group_handler.

Definition get_image_path (self : OmeZarrPlate) (row : string) (column : Column)
    (path : string) : M string :=
  well ← get_well self row column;
  well_paths ← OmeZarrWell_paths well None;
  if bool_decide (path ∉ well_paths) then
    raise (ValueError (image_does_not_exist path row (column_text column)))
  else
    well_path ← OmeZarrPlate_get_well_path self row column;
    mret (well_path +:+ "/" +:+ path).

(** [get_wells]: the wells of the plate by their paths, in the order of
    the plate document. *)
Fixpoint get_wells_loop (self : OmeZarrPlate) (wells_paths : list string)
    : M (list (string * OmeZarrWell)) :=
  match wells_paths with
  | [] => mret []
  | well_path :: rest =>
      group_handler ← derive_handler (_group_handler self) well_path;
      well ← OmeZarrWell_init group_handler;
      wells ← get_wells_loop self rest;
      mret ((well_path, well) :: wells)
  end.

Definition get_wells (self : OmeZarrPlate) : M (list (string * OmeZarrWell)) :=
  wells_paths ← wells_paths self;
  get_wells_loop self wells_paths.

Definition _add_image (self : OmeZarrPlate) (row : string) (column : Column)
    (image_path : string) (acquisition_id : option Z) (acquisition_name : option string)
    (atomic : bool) : M unit :=
  plate_lock ← (if atomic then l ← lift (lock (_group_handler self)); mret (a_FileLock l)
                 else mret MockLock);
  with_ plate_lock (
    meta ← meta self;
    let meta := add_well meta row column acquisition_id acquisition_name in
    write_plate_meta (_meta_handler self) meta ;;
    clean_cache (meta_group_handler (_meta_handler self))) ;;
  well_path ← OmeZarrPlate_get_well_path self row column;
  group_handler ← derive_handler (_group_handler self) well_path;
  well_lock ← (if atomic then l ← lift (lock group_handler); mret (a_FileLock l)
                 else mret MockLock);
  with_ well_lock (
    attrs ← load_attrs group_handler;
    '(meta_handler, well_meta) ←
      match attrs with
      | attrs_empty =>
          let well_meta := NgioWellMeta_default_init [] None in
          let meta_handler := get_well_meta_handler group_handler "0.4" in
          mret (meta_handler, well_meta)
      | _ =>
          meta_handler ← find_well_meta_handler group_handler;
          well_meta ← well_meta meta_handler;
          mret (meta_handler, well_meta)
      end;
    derive_handler (_group_handler self) well_path ;;
    well_meta ← lift (add_image well_meta image_path acquisition_id);
    write_well_meta meta_handler well_meta ;;
    clean_cache (meta_group_handler meta_handler)).

Definition atomic_add_image (self : OmeZarrPlate) (row : string) (column : Column)
    (image_path : string) (acquisition_id : option Z) (acquisition_name : option string)
    : M unit :=
  _add_image self row column image_path acquisition_id acquisition_name true.

Definition OmeZarrPlate_add_image (self : OmeZarrPlate) (row : string) (column : Column)
    (image_path : string) (acquisition_id : option Z) (acquisition_name : option string)
    : M unit :=
  _add_image self row column image_path acquisition_id acquisition_name false.

Definition _remove_well (self : OmeZarrPlate) (row : string) (column : Column)
    (atomic : bool) : M unit :=
  plate_lock ← (if atomic then l ← lift (lock (_group_handler self)); mret (a_FileLock l)
                 else mret MockLock);
  with_ plate_lock (
    meta ← meta self;
    let meta := remove_well meta row column in
    write_plate_meta (_meta_handler self) meta ;;
    clean_cache (meta_group_handler (_meta_handler self))).

Definition _remove_image (self : OmeZarrPlate) (row : string) (column : Column)
    (image_path : string) (atomic : bool) : M unit :=
  well ← get_well self row column;
  well_lock ← (if atomic then
                 l ← lift (lock (meta_group_handler (well_meta_handler well)));
                 mret (a_FileLock l)
                 else mret MockLock);
  with_ well_lock (
    well_meta ← OmeZarrWell_meta well;
    well_meta ← lift (remove_image well_meta image_path);
    write_well_meta (well_meta_handler well) well_meta ;;
    clean_cache (meta_group_handler (well_meta_handler well)) ;;
    if bool_decide (length (paths well_meta None) = 0) then
      _remove_well self row column atomic
    else mret ()).

Definition atomic_remove_image (self : OmeZarrPlate) (row : string) (column : Column)
    (image_path : string) : M unit :=
  _remove_image self row column image_path true.

Definition OmeZarrPlate_remove_image (self : OmeZarrPlate) (row : string)
    (column : Column) (image_path : string) : M unit :=
  _remove_image self row column image_path false.

(** [open_omezarr_plate] *)
Definition open_omezarr_plate (store : StoreOrGroup) (cache : bool) (mode : string)
    (parallel_safe : bool) : M OmeZarrPlate :=
  group_handler ← lift (ZarrGroupHandler_init zarr_open_group store cache mode
                          parallel_safe None);
  OmeZarrPlate_init group_handler.

End plate.

End Plate.
Module ZarrCache.
Import ZarrUtils.

(** *** The caches of a handler

    The methods of [ZarrGroupHandler] that go through its dictionary
    [_cache], on the state they read and write: the dictionary, whose values
    may be [None]; the dictionary that the attributes of the zarr group keep
    of what they read or wrote last, when [cache] is set on them; and the
    attributes and the members of the group as the store holds them at the
    time. *)
Inductive object :=
| a_dict (attrs : gmap string string)
| a_Group (group : Group)
| an_Array (path : string).

Record state := mkState {
  _cache : gmap string (option object);
  _cached_asdict : option (gmap string string);
  group_attrs : gmap string string;
  group_members : gmap string object
}.

Definition add_to_cache (self : ZarrGroupHandler) (key : string) (value : option object)
    (st : state) : state :=
  if negb (use_cache self) then st
  else mkState (<[key := value]> (_cache st)) (_cached_asdict st) (group_attrs st)
         (group_members st).

(** [self._cache.get(key, None)]: [None] for a missing key and for a key
    bound to [None]. *)
Definition get_from_cache (self : ZarrGroupHandler) (key : string) (st : state)
    : option object :=
  if negb (use_cache self) then None
  else mjoin (_cache st !! key).

(** [clean_cache] replaces the dictionary of the handler and nothing
    else. *)
Definition clean_cache (st : state) : state :=
  mkState ∅ (_cached_asdict st) (group_attrs st) (group_members st).

(** **** The attributes of the group

    [self.group.attrs] is the [Attributes] object of zarr, on which
    [__init__] sets [cache].  Its [asdict], through which every read goes,
    returns the dictionary it keeps when [cache] is set and it keeps one,
    and reads the store otherwise, keeping what it read when [cache] is
    set. *)
Definition asdict (self : ZarrGroupHandler) (st : state) : gmap string string * state :=
  if attrs_cache (_group self) then
    match _cached_asdict st with
    | Some d => (d, st)
    | None =>
        (group_attrs st,
         mkState (_cache st) (Some (group_attrs st)) (group_attrs st) (group_members st))
    end
  else (group_attrs st, st).

(** [_put_nosync], through which every write goes: the store holds the
    dictionary, and so does the object when [cache] is set. *)
Definition _put_nosync (self : ZarrGroupHandler) (d : gmap string string) (st : state)
    : state :=
  mkState (_cache st) (if attrs_cache (_group self) then Some d else _cached_asdict st)
    d (group_members st).

(** [update(new)] reads the store, lets the new values replace the old ones
    of the same keys, and puts the result. *)
Definition update (self : ZarrGroupHandler) (new : gmap string string) (st : state)
    : state :=
  _put_nosync self (new ∪ group_attrs st) st.

Definition load_attrs (self : ZarrGroupHandler) (st : state)
    : gmap string string * state :=
  match get_from_cache self "attrs" st with
  | Some (a_dict attrs) => (attrs, st)
  | _ =>
      let '(attrs, st) := asdict self st in
      (attrs, add_to_cache self "attrs" (Some (a_dict attrs)) st)
  end.

Section order.
(** [next(iter(d))]: the first key of a dictionary in the order of its
    keys, which the maps do not record. *)
Variable first_key : gmap string string → option string.

(** [popitem] of [MutableMapping], which [Attributes] inherits: it takes
    the first key of [asdict] and its value there, and deletes the key
    from what the store holds.  The result is [false] for the [KeyError]
    of an empty dictionary or of a key that the store does not hold. *)
Definition popitem (self : ZarrGroupHandler) (st : state) : bool * state :=
  let '(d, st) := asdict self st in
  match first_key d with
  | None => (false, st)
  | Some key =>
      match d !! key with
      | None => (false, st)
      | Some value =>
          if bool_decide (key ∈ dom (group_attrs st)) then
            (true, _put_nosync self (delete key (group_attrs st)) st)
          else (false, st)
      end
  end.

(** [clear] of [MutableMapping]: [popitem] until it raises [KeyError].
    Every round but the last takes a key from the store, so the rounds are
    at most one more than the keys the store holds. *)
Fixpoint clear_loop (rounds : nat) (self : ZarrGroupHandler) (st : state) : state :=
  match rounds with
  | 0 => st
  | S rounds =>
      match popitem self st with
      | (true, st) => clear_loop rounds self st
      | (false, st) => st
      end
  end.

Definition clear (self : ZarrGroupHandler) (st : state) : state :=
  clear_loop (S (size (group_attrs st))) self st.

Definition _write_attrs (self : ZarrGroupHandler) (attrs : gmap string string)
    (overwrite : bool) (st : state) : res state :=
  let is_read_only := _read_only (_group self) in
  if is_read_only then Raise (NgioValueError group_read_only_metadata)
  else
    let st := add_to_cache self "attrs" None st in
    let st := if overwrite then clear self st else st in
    Ok (update self attrs st).

Definition write_attrs (self : ZarrGroupHandler) (attrs : gmap string string)
    (overwrite : bool) (st : state) : res state :=
  _write_attrs self attrs overwrite st.
End order.

(** [self.group.get(path, None)] is the member at the path, if any. *)
Definition _obj_get (self : ZarrGroupHandler) (path : string) (st : state)
    : option object * state :=
  match get_from_cache self path st with
  | Some group_or_array => (Some group_or_array, st)
  | None =>
      let group_or_array := group_members st !! path in
      (group_or_array, add_to_cache self path group_or_array st)
  end.

End ZarrCache.
Module AxesTheory.
Import Axes.

Lemma bind_Ok {E A B} (r : result E A) (k : A → result E B) b :
    r ≫= k = Ok b ↔ ∃ a, r = Ok a ∧ k a = Ok b.
  Proof.
    destruct r as [a|e]; simpl; split.
    - by exists a.
    - by intros (? & [= <-] & ?).
    - done.
    - by intros (? & ? & ?).
  Qed.

Lemma bind_Raise {E A B} (r : result E A) (k : A → result E B) e :
    r ≫= k = Raise e ↔ r = Raise e ∨ ∃ a, r = Ok a ∧ k a = Raise e.
  Proof.
    destruct r as [a|e']; simpl; split.
    - intros Hk. right. by exists a.
    - intros [? | (? & [= <-] & ?)]; done.
    - intros [= ->]. by left.
    - intros [[= ->] | (? & ? & ?)]; done.
  Qed.

Section results.
Context {E A B : Type}.

Lemma for_each_Ok (body : A → result E B) xs ys :
  for_each body xs = Ok ys ↔ Forall2 (λ x y, body x = Ok y) xs ys.
Proof.
  revert ys. induction xs as [|x xs IH]; intros ys; simpl.
  - split; [intros [= <-]; constructor | by inversion 1].
  - rewrite bind_Ok. split.
    + intros (y & Hy & Hrest). apply bind_Ok in Hrest as (ys' & Hys & [= <-]).
      constructor; [done | by apply IH].
    + inversion 1 as [|? y ? ys' Hy Hys]; subst. exists y. split; [done|].
      apply IH in Hys. by rewrite Hys.
Qed.

Lemma for_each_total (body : A → result E B) (f : A → B) xs :
  (∀ x, x ∈ xs → body x = Ok (f x)) → for_each body xs = Ok (f <$> xs).
Proof.
  induction xs as [|x xs IH]; intros Hbody; [done|]. simpl.
  rewrite Hbody by left. simpl. rewrite IH; [done|].
  intros y Hy. apply Hbody. by right.
Qed.

Lemma for_each_Raise (body : A → result E B) xs e :
  for_each body xs = Raise e → ∃ x, x ∈ xs ∧ body x = Raise e.
Proof.
  induction xs as [|x xs IH]; simpl; [done|].
  rewrite bind_Raise. intros [Hx | (y & Hy & Hrest)].
  - exists x. split; [left | done].
  - apply bind_Raise in Hrest as [Hrest | (ys & _ & ?)]; [|done].
    destruct (IH Hrest) as (x' & ? & ?). exists x'. split; [by right | done].
Qed.
End results.

(** *** Python's [list.index] *)

Section index.
Context {A : Type} `{EqDecision A}.
Implicit Types (value : A) (names : list A).

Lemma index_Some value names i :
  index value names = Some i → names !! i = Some value.
Proof.
  revert i. induction names as [|n names IH]; intros i; simpl; [done|].
  case_bool_decide as Hn; [by intros [= <-]; subst|].
  destruct (index value names) as [j|]; simpl; [|done].
  intros [= <-]. by apply IH.
Qed.

Lemma index_None value names : index value names = None ↔ value ∉ names.
Proof.
  induction names as [|n names IH]; simpl.
  - split; [intros _; apply not_elem_of_nil | done].
  - rewrite not_elem_of_cons. case_bool_decide as Hn.
    + split; [done | naive_solver].
    + destruct (index value names); simpl; naive_solver.
Qed.

Lemma index_is_Some value names : value ∈ names → is_Some (index value names).
Proof.
  intros Hin. destruct (index value names) eqn:Hidx; [by eexists|].
  by apply index_None in Hidx.
Qed.

Lemma index_NoDup names i value :
  NoDup names → names !! i = Some value → index value names = Some i.
Proof.
  intros Hnd Hi. destruct (index_is_Some value names) as [j Hj].
  { by eapply list_elem_of_lookup_2. }
  rewrite Hj. f_equal. apply index_Some in Hj.
  by eapply NoDup_lookup.
Qed.

Lemma index_lt value names i : index value names = Some i → i < length names.
Proof. intros Hi%index_Some. by eapply lookup_lt_Some. Qed.
End index.

(** *** [len(set(names)) != len(names)] detects exactly the duplicates. *)
Lemma remove_dups_length_le {X} `{EqDecision X} (l : list X) :
  length (remove_dups l) ≤ length l.
Proof.
  induction l as [|x l IH]; simpl; [done|].
  case_decide; simpl; lia.
Qed.

Lemma remove_dups_length_NoDup {X} `{EqDecision X} (l : list X) :
  length (remove_dups l) = length l ↔ NoDup l.
Proof.
  induction l as [|x l IH]; simpl.
  - split; [constructor | done].
  - rewrite NoDup_cons. pose proof (remove_dups_length_le l).
    case_decide as Hx; simpl.
    + split; [lia | naive_solver].
    + split; [intros [= Hlen]; naive_solver | intros [_ Hnd]; f_equal; naive_solver].
Qed.


(** *** The name mapping *)

(** The five configured names, in canonical order. *)
Definition configured_names (axes_setup : AxesSetup) : list string :=
  [setup_t axes_setup; setup_c axes_setup; setup_z axes_setup;
   setup_y axes_setup; setup_x axes_setup].

Definition canonical_entry (axes_setup : AxesSetup) (names : list string) (key : string)
    : option (option string) :=
  (λ v, if bool_decide (v ∈ names) then Some v else None) <$> getattr axes_setup key.

Lemma set_canonical_key_insert names m key value :
  set_canonical_key names m (key, value)
  = <[key := if bool_decide (value ∈ names) then Some value else None]> m.
Proof. unfold set_canonical_key. by case_bool_decide. Qed.

Lemma canonical_lookup axes_setup names key :
  foldl (set_canonical_key names) ∅ (model_dump axes_setup) !! key
  = canonical_entry axes_setup names key.
Proof.
  unfold canonical_entry, getattr, model_dump.
  cbn [foldl list_to_map foldr fst snd]. rewrite !set_canonical_key_insert.
  rewrite !lookup_insert, !lookup_empty.
  repeat match goal with
         | |- context [decide (?a = key)] => destruct (decide (a = key)); simplify_eq
         end; reflexivity.
Qed.

Lemma others_lookup m names key :
  foldl set_other_name m names !! key
  = match m !! key with
    | Some v => Some v
    | None => if bool_decide (key ∈ names) then Some (Some key) else None
    end.
Proof.
  revert m. induction names as [|n names IH]; intros m; simpl.
  - by destruct (m !! key).
  - rewrite IH. unfold set_other_name.
    destruct (decide (n ∉ dom m)) as [Hdom|Hdom];
      [rewrite (bool_decide_true _ Hdom) | rewrite (bool_decide_false _ Hdom)].
    + apply not_elem_of_dom in Hdom. rewrite lookup_insert.
      destruct (decide (n = key)) as [->|Hn].
      * rewrite Hdom. rewrite bool_decide_true; [done | left].
      * destruct (m !! key); [done|].
        rewrite (bool_decide_ext (key ∈ names) (key ∈ n :: names)); [done|].
        rewrite elem_of_cons. naive_solver.
    + destruct (m !! key) eqn:Hkey; [done|].
      rewrite (bool_decide_ext (key ∈ names) (key ∈ n :: names)); [done|].
      rewrite elem_of_cons.
      split; [tauto|]. intros [-> | ?]; [|done].
      exfalso. apply Hdom. by apply not_elem_of_dom.
Qed.

Lemma name_mapping_lookup axes_setup names key :
  _compute_name_mapping axes_setup names !! key
  = match canonical_entry axes_setup names key with
    | Some v => Some v
    | None => if bool_decide (key ∈ names) then Some (Some key) else None
    end.
Proof. unfold _compute_name_mapping. by rewrite others_lookup, canonical_lookup. Qed.

Lemma getattr_Some axes_setup key value :
  getattr axes_setup key = Some value →
  key ∈ canonical_axes_order ∧ value ∈ configured_names axes_setup.
Proof.
  unfold getattr, model_dump, configured_names, canonical_axes_order.
  cbn [list_to_map foldr fst snd]. rewrite !lookup_insert, !lookup_empty.
  repeat match goal with
         | |- context [decide (?a = key)] => destruct (decide (a = key)); simplify_eq
         end; intros [= <-]; split; set_solver.
Qed.

Lemma getattr_canonical axes_setup key :
  key ∈ canonical_axes_order → is_Some (getattr axes_setup key).
Proof.
  unfold canonical_axes_order. rewrite !elem_of_cons, elem_of_nil.
  intros [-> | [-> | [-> | [-> | [-> | []]]]]]; by eexists.
Qed.

Lemma name_mapping_on_disk axes_setup names key value :
  _compute_name_mapping axes_setup names !! key = Some (Some value) → value ∈ names.
Proof.
  rewrite name_mapping_lookup. unfold canonical_entry.
  destruct (getattr axes_setup key) as [v|]; simpl.
  - case_bool_decide; [by intros [= <-] | done].
  - case_bool_decide; [by intros [= <-] | done].
Qed.

Lemma compute_index_mapping_Ok (name_mapping : gmap string (option string)) names :
  (∀ key value, name_mapping !! key = Some (Some value) → value ∈ names) →
  _compute_index_mapping name_mapping names
  = Ok ((λ on_disk_value, on_disk_value ≫= λ v, index v names) <$> name_mapping).
Proof.
  intros Hon_disk. unfold _compute_index_mapping.
  destruct (find _ _) as [[key value]|] eqn:Hfind; [|done].
  apply find_some in Hfind as [Hin Hmissing]. simpl in Hmissing.
  apply list_elem_of_In, elem_of_map_to_list in Hin.
  destruct value as [v|]; [|done].
  apply bool_decide_eq_true, index_None in Hmissing.
  destruct Hmissing. by eapply Hon_disk.
Qed.

(** *** Validation *)

(** The conditions under which construction is refused. *)
Definition names_not_unique (axes : list Axis) : Prop :=
  ¬ NoDup (on_disk_name <$> axes).

Definition others_not_allowed (axes_setup : AxesSetup) (allow_non_canonical_axes : bool) : Prop :=
  others axes_setup ≠ [] ∧ allow_non_canonical_axes = false.

Definition unknown_name (axes : list Axis) (axes_setup : AxesSetup) : Prop :=
  ∃ ax, ax ∈ axes
        ∧ (on_disk_name ax ∉ configured_names axes_setup)
        ∧ (on_disk_name ax ∉ others axes_setup).

Definition out_of_order (axes : list Axis) (axes_setup : AxesSetup)
    (strict_canonical_order : bool) : Prop :=
  strict_canonical_order = true
  ∧ (on_disk_name <$> axes)
    ≠ filter (λ name, name ∈ (on_disk_name <$> axes)) (configured_names axes_setup).

Definition flags_both_set (allow_non_canonical_axes strict_canonical_order : bool) : Prop :=
  allow_non_canonical_axes = true ∧ strict_canonical_order = true.

Definition refused (axes : list Axis) (axes_setup : AxesSetup)
    (allow_non_canonical_axes strict_canonical_order : bool) : Prop :=
  names_not_unique axes
  ∨ others_not_allowed axes_setup allow_non_canonical_axes
  ∨ unknown_name axes axes_setup
  ∨ out_of_order axes axes_setup strict_canonical_order
  ∨ flags_both_set allow_non_canonical_axes strict_canonical_order.

Definition is_validation_error (e : exn) : Prop :=
  match e with NgioValidationError _ => True | _ => False end.

Lemma check_unique_names_spec axes :
  match _check_unique_names axes with
  | Ok _ => ¬ names_not_unique axes
  | Raise e => names_not_unique axes ∧ is_validation_error e
  end.
Proof.
  unfold _check_unique_names, names_not_unique.
  case_bool_decide as Hlen.
  - split; [|done]. by rewrite <- remove_dups_length_NoDup.
  - apply remove_dups_length_NoDup in Hlen. tauto.
Qed.

Lemma check_non_canonical_axes_spec axes_setup allow :
  match _check_non_canonical_axes axes_setup allow with
  | Ok _ => ¬ others_not_allowed axes_setup allow
  | Raise e => others_not_allowed axes_setup allow ∧ is_validation_error e
  end.
Proof.
  unfold _check_non_canonical_axes, others_not_allowed.
  destruct allow; simpl; [naive_solver|].
  case_bool_decide as Hlen.
  - split; [|done]. split; [|done]. intros Heq. rewrite Heq in Hlen. simpl in Hlen. lia.
  - intros [Hne _]. destruct (others axes_setup); [done|]. simpl in Hlen. lia.
Qed.

Lemma model_dump_values axes_setup x :
  x ∈ (model_dump axes_setup).*2 ↔ x ∈ configured_names axes_setup.
Proof. unfold model_dump, configured_names. simpl. set_solver. Qed.

Lemma check_axes_validity_spec axes axes_setup :
  match _check_axes_validity axes axes_setup with
  | Ok _ => ¬ unknown_name axes axes_setup
  | Raise e => unknown_name axes axes_setup ∧ is_validation_error e
  end.
Proof.
  unfold _check_axes_validity, unknown_name.
  destruct (for_each _ axes) as [units|e] eqn:Hloop; simpl.
  - apply for_each_Ok in Hloop. intros (ax & Hin & Hconf & Hothers).
    apply list_elem_of_lookup in Hin as [i Hi].
    destruct (Forall2_lookup_l _ _ _ _ _ Hloop Hi) as (u & _ & Hbody).
    rewrite bool_decide_true in Hbody; [done|].
    rewrite not_elem_of_app, model_dump_values. done.
  - apply for_each_Raise in Hloop as (ax & Hin & Hbody).
    case_bool_decide as Hknown; [|done]. injection Hbody as <-.
    rewrite not_elem_of_app, model_dump_values in Hknown.
    split; [|done]. exists ax. tauto.
Qed.

Lemma canonical_order_loop axes_setup (names : list string) :
  for_each (λ name,
      match getattr axes_setup name with
      | Some mapped_name => Ok (E:=exn) (if bool_decide (mapped_name ∈ names)
                                         then [mapped_name] else [])
      | None => Raise (AttributeError name)
      end) canonical_axes_order
  = Ok ((λ mapped_name, if bool_decide (mapped_name ∈ names) then [mapped_name] else [])
        <$> configured_names axes_setup).
Proof. reflexivity. Qed.

Lemma concat_singletons_filter (names candidates : list string) :
  concat ((λ n, if bool_decide (n ∈ names) then [n] else []) <$> candidates)
  = filter (λ n, n ∈ names) candidates.
Proof.
  induction candidates as [|c candidates IH]; [done|].
  rewrite fmap_cons, concat_cons, IH, filter_cons.
  destruct (decide (c ∈ names)) as [Hc|Hc];
    [by rewrite (bool_decide_true _ Hc) | by rewrite (bool_decide_false _ Hc)].
Qed.

Lemma check_canonical_order_spec axes axes_setup strict :
  match _check_canonical_order axes axes_setup strict with
  | Ok _ => ¬ out_of_order axes axes_setup strict
  | Raise e => out_of_order axes axes_setup strict ∧ is_validation_error e
  end.
Proof.
  unfold _check_canonical_order, out_of_order.
  destruct strict; cbn [negb]; cbv zeta; [|naive_solver].
  rewrite canonical_order_loop. cbn [mbind result_bind].
  rewrite concat_singletons_filter.
  case_bool_decide; naive_solver.
Qed.

Lemma validate_axes_spec axes axes_setup allow strict :
  match validate_axes axes axes_setup allow strict with
  | Ok _ => ¬ refused axes axes_setup allow strict
  | Raise e => refused axes axes_setup allow strict ∧ is_validation_error e
  end.
Proof.
  unfold validate_axes, refused.
  destruct (allow && strict) eqn:Hflags.
  { apply andb_true_iff in Hflags. split; [|done]. by do 4 right. }
  assert (¬ flags_both_set allow strict) as Hnot.
  { intros [-> ->]. done. }
  pose proof (check_unique_names_spec axes) as H1.
  destruct (_check_unique_names axes); simpl; [|tauto].
  pose proof (check_non_canonical_axes_spec axes_setup allow) as H2.
  destruct (_check_non_canonical_axes axes_setup allow); simpl; [|tauto].
  pose proof (check_axes_validity_spec axes axes_setup) as H3.
  destruct (_check_axes_validity axes axes_setup); simpl; [|tauto].
  pose proof (check_canonical_order_spec axes axes_setup strict) as H4.
  destruct (_check_canonical_order axes axes_setup strict); simpl; tauto.
Qed.

(** *** Type coercion *)

Lemma implicit_type_cast_name ax cast_type :
  on_disk_name (implicit_type_cast ax cast_type) = on_disk_name ax.
Proof. unfold implicit_type_cast. by repeat case_match. Qed.

Lemma canonical_axis_cast_name ax name :
  on_disk_name (canonical_axis_cast ax name) = on_disk_name ax.
Proof.
  unfold canonical_axis_cast.
  repeat case_match; auto using implicit_type_cast_name.
Qed.

(** The first name of [names] whose index mapping is position [i]. *)
Fixpoint first_slot (index_mapping : gmap string (option nat)) (i : nat)
    (names : list string) : option string :=
  match names with
  | [] => None
  | name :: rest =>
      if bool_decide (index_mapping !! name = Some (Some i)) then Some name
      else first_slot index_mapping i rest
  end.

(** What [validate_axex_type] makes of the axis at position [i]. *)
Definition cast_at (index_mapping : gmap string (option nat)) (i : nat) (ax : Axis) : Axis :=
  match first_slot index_mapping i canonical_axes_order with
  | Some name => canonical_axis_cast ax name
  | None => ax
  end.

Lemma cast_at_name index_mapping i ax :
  on_disk_name (cast_at index_mapping i ax) = on_disk_name ax.
Proof. unfold cast_at. case_match; auto using canonical_axis_cast_name. Qed.

Lemma imap_cast_names index_mapping axes :
  on_disk_name <$> imap (cast_at index_mapping) axes = on_disk_name <$> axes.
Proof.
  apply list_eq. intros i. rewrite !list_lookup_fmap, list_lookup_imap.
  destruct (axes !! i); simpl; [|done]. by rewrite cast_at_name.
Qed.

(** A mapper whose index mapping only holds positions of its axis list. *)
Definition indices_in_range (self : AxesMapper) : Prop :=
  ∀ name i, _index_mapping self !! name = Some (Some i) → i < length (_on_disk_axes self).

Lemma get_axis_in_range self name :
  indices_in_range self →
  get_axis self name
  = match _index_mapping self !! name with
    | None => Raise (NgioValueError (invalid_axis_name name))
    | Some None => Ok None
    | Some (Some i) => Ok (_on_disk_axes self !! i)
    end.
Proof.
  intros Hrange. unfold get_axis, get_index, on_disk_axes.
  destruct (_index_mapping self !! name) as [[i|]|] eqn:Hname; simpl; try done.
  apply Hrange, lookup_lt_is_Some in Hname as [ax Hax]. by rewrite Hax.
Qed.

Lemma cast_first_match_spec self i ax names :
  indices_in_range self →
  NoDup (on_disk_axes_names self) →
  (∀ name, name ∈ names → is_Some (_index_mapping self !! name)) →
  _on_disk_axes self !! i = Some ax →
  cast_first_match self ax names
  = Ok (match first_slot (_index_mapping self) i names with
        | Some name => canonical_axis_cast ax name
        | None => ax
        end).
Proof.
  intros Hrange Hnodup Hkeys Hi.
  induction names as [|name names IH]; simpl; [done|].
  rewrite get_axis_in_range by done.
  destruct (Hkeys name) as [idx Hidx]; [left|]. rewrite Hidx.
  assert (∀ n, n ∈ names → is_Some (_index_mapping self !! n)) as Hrest.
  { intros n Hn. apply Hkeys. by right. }
  destruct idx as [j|]; simpl.
  - destruct (decide (j = i)) as [->|Hne].
    + rewrite Hi. by rewrite !bool_decide_true.
    + rewrite bool_decide_false, (bool_decide_false (Some (Some j) = _)); [by apply IH | congruence |].
      intros Heq. apply Hne.
      eapply NoDup_lookup; [exact Hnodup | |].
      * unfold on_disk_axes_names. rewrite list_lookup_fmap, <- Heq. done.
      * unfold on_disk_axes_names. by rewrite list_lookup_fmap, Hi.
  - by apply IH.
Qed.

Lemma validate_axex_type_spec self :
  indices_in_range self →
  NoDup (on_disk_axes_names self) →
  _canonical_order self = canonical_axes_order →
  (∀ name, name ∈ canonical_axes_order → is_Some (_index_mapping self !! name)) →
  validate_axex_type self
  = Ok (set_on_disk_axes self (imap (cast_at (_index_mapping self)) (_on_disk_axes self))).
Proof.
  intros Hrange Hnodup Horder Hkeys. unfold validate_axex_type, on_disk_axes.
  rewrite Horder.
  assert (for_each (λ axes, cast_first_match self axes canonical_axes_order)
            (_on_disk_axes self)
          = Ok (imap (cast_at (_index_mapping self)) (_on_disk_axes self))) as ->; [|done].
  apply for_each_Ok. apply Forall2_same_length_lookup. split.
  { by rewrite length_imap. }
  intros i ax ax' Hax. rewrite list_lookup_imap, Hax. intros [= <-].
  by apply cast_first_match_spec.
Qed.

(** *** Construction *)

(** The index mapping derived from a name mapping. *)
Definition index_mapping_of (name_mapping : gmap string (option string))
    (names : list string) : gmap string (option nat) :=
  (λ on_disk_value, on_disk_value ≫= λ v, index v names) <$> name_mapping.

(** The mapper that a successful construction returns. *)
Definition constructed (axes : list Axis) (axes_setup : AxesSetup)
    (allow_non_canonical_axes strict_canonical_order : bool) : AxesMapper :=
  let names := on_disk_name <$> axes in
  let name_mapping := _compute_name_mapping axes_setup names in
  let index_mapping := index_mapping_of name_mapping names in
  mkAxesMapper allow_non_canonical_axes strict_canonical_order
    canonical_axes_order (others axes_setup ++ canonical_axes_order)
    (imap (cast_at index_mapping) axes) axes_setup name_mapping index_mapping.

Lemma index_mapping_lookup name_mapping names key :
  index_mapping_of name_mapping names !! key
  = (λ on_disk_value, on_disk_value ≫= λ v, index v names) <$> (name_mapping !! key).
Proof. unfold index_mapping_of. by rewrite lookup_fmap. Qed.

Lemma index_mapping_canonical axes_setup names key :
  key ∈ canonical_axes_order →
  is_Some (index_mapping_of (_compute_name_mapping axes_setup names) names !! key).
Proof.
  intros [v Hv]%(getattr_canonical axes_setup).
  rewrite index_mapping_lookup, name_mapping_lookup. unfold canonical_entry.
  rewrite Hv. by eexists.
Qed.

Lemma index_mapping_in_range axes_setup names key i :
  index_mapping_of (_compute_name_mapping axes_setup names) names !! key = Some (Some i) →
  i < length names.
Proof.
  rewrite index_mapping_lookup.
  destruct (_ !! key) as [[v|]|]; simpl; try done.
  intros [= Hidx]. by eapply index_lt.
Qed.

Lemma AxesMapper_init_spec axes axes_setup allow strict :
  let s := default AxesSetup_default axes_setup in
  match AxesMapper_init axes axes_setup allow strict with
  | Ok self => ¬ refused axes s allow strict ∧ self = constructed axes s allow strict
  | Raise e => refused axes s allow strict ∧ is_validation_error e
  end.
Proof.
  intros s. unfold AxesMapper_init. fold s.
  pose proof (validate_axes_spec axes s allow strict) as Hvalid.
  destruct (validate_axes axes s allow strict) as [[]|e]; simpl; [|done].
  rewrite compute_index_mapping_Ok by apply name_mapping_on_disk. simpl.
  rewrite validate_axex_type_spec; simpl.
  - done.
  - intros name i Hi. apply index_mapping_in_range in Hi. by rewrite length_fmap in Hi.
  - unfold on_disk_axes_names. simpl. apply dec_stable. intros Hdup. apply Hvalid. by left.
  - done.
  - intros name Hname. by apply index_mapping_canonical.
Qed.

Lemma index_mapping_keys axes_setup names key :
  is_Some (index_mapping_of (_compute_name_mapping axes_setup names) names !! key)
  ↔ key ∈ canonical_axes_order ∨ key ∈ names.
Proof.
  rewrite index_mapping_lookup, name_mapping_lookup, fmap_is_Some.
  unfold canonical_entry.
  destruct (getattr axes_setup key) as [v|] eqn:Hv; simpl.
  - apply getattr_Some in Hv as [Hkey _]. split; [by left | by eexists].
  - case_bool_decide as Hin.
    + split; [by right | by eexists].
    + split; [by intros [? ?] |]. intros [Hkey | ?]; [|done].
      apply (getattr_canonical axes_setup) in Hkey as [? ?]. congruence.
Qed.

Lemma constructed_in_range axes axes_setup allow strict :
  indices_in_range (constructed axes axes_setup allow strict).
Proof.
  intros name i Hi. simpl in *. apply index_mapping_in_range in Hi.
  by rewrite length_imap, length_fmap in *.
Qed.

Lemma AxesMapper_init_Ok axes axes_setup allow strict self :
  AxesMapper_init axes axes_setup allow strict = Ok self →
  self = constructed axes (default AxesSetup_default axes_setup) allow strict.
Proof.
  intros Hinit.
  pose proof (AxesMapper_init_spec axes axes_setup allow strict) as Hspec.
  rewrite Hinit in Hspec. by destruct Hspec as [_ ->].
Qed.

Lemma constructed_names axes axes_setup allow strict :
  on_disk_axes_names (constructed axes axes_setup allow strict) = on_disk_name <$> axes.
Proof. unfold on_disk_axes_names. simpl. apply imap_cast_names. Qed.

(** C5: construction is refused, with a validation error, exactly when the
    on-disk names are not pairwise unique, or [others] is non-empty while
    non-canonical axes are not allowed, or some on-disk name is neither one
    of the five configured names nor listed in [others], or the strict order
    is requested and the on-disk names differ from the configured names for
    [t, c, z, y, x] filtered to those on disk, or both flags are set. *)
Theorem construction_refused_iff (axes : list Axis) (axes_setup : option AxesSetup)
    (allow_non_canonical_axes strict_canonical_order : bool) :
  let s := default AxesSetup_default axes_setup in
  match AxesMapper_init axes axes_setup allow_non_canonical_axes strict_canonical_order with
  | Ok _ =>
      ¬ (names_not_unique axes
         ∨ others_not_allowed s allow_non_canonical_axes
         ∨ unknown_name axes s
         ∨ out_of_order axes s strict_canonical_order
         ∨ flags_both_set allow_non_canonical_axes strict_canonical_order)
  | Raise e =>
      (names_not_unique axes
       ∨ others_not_allowed s allow_non_canonical_axes
       ∨ unknown_name axes s
       ∨ out_of_order axes s strict_canonical_order
       ∨ flags_both_set allow_non_canonical_axes strict_canonical_order)
      ∧ ∃ msg, e = NgioValidationError msg
  end.
Proof.
  intros s.
  pose proof (AxesMapper_init_spec axes axes_setup allow_non_canonical_axes
                strict_canonical_order) as Hspec.
  fold s in Hspec. unfold refused in Hspec.
  destruct (AxesMapper_init _ _ _ _) as [self|e]; [tauto|].
  destruct Hspec as [Hrefused Herr]. split; [done|].
  destruct e; try done. by eexists.
Qed.

(** C10: construction keeps the length, the order and the on-disk names of
    the axis list it was given. *)
Theorem construction_preserves_names (axes : list Axis) (axes_setup : option AxesSetup)
    (allow_non_canonical_axes strict_canonical_order : bool) (self : AxesMapper) :
  AxesMapper_init axes axes_setup allow_non_canonical_axes strict_canonical_order = Ok self →
  on_disk_axes_names self = on_disk_name <$> axes
  ∧ length (on_disk_axes self) = length axes
  ∧ ∀ i ax, axes !! i = Some ax →
      ∃ ax', on_disk_axes self !! i = Some ax' ∧ on_disk_name ax' = on_disk_name ax.
Proof.
  intros ->%AxesMapper_init_Ok.
  split; [apply constructed_names | split].
  - apply length_imap.
  - intros i ax Hi. eexists. unfold on_disk_axes. simpl.
    rewrite list_lookup_imap, Hi. simpl.
    split; [done|]. apply cast_at_name.
Qed.

Definition two_axes : list Axis := [mkAxis "y" None None; mkAxis "x" None None].
Definition two_axes_mapper : AxesMapper :=
  constructed two_axes AxesSetup_default false false.

Lemma construction_preserves_names_witness :
  AxesMapper_init two_axes None false false = Ok two_axes_mapper
  ∧ on_disk_axes_names two_axes_mapper = ["y"; "x"].
Proof.
  assert (AxesMapper_init two_axes None false false = Ok two_axes_mapper) as Hinit
    by (vm_compute; reflexivity).
  split; [done|].
  apply (construction_preserves_names two_axes None false false two_axes_mapper Hinit).
Defined.



(** *** Coercion of the axes in canonical slots *)

(** The axis type expected in a canonical slot. *)
Definition slot_type (name : string) : option AxisType :=
  if bool_decide (name = "t") then Some AxisType_time
  else if bool_decide (name = "c") then Some AxisType_channel
  else if bool_decide (name ∈ ["z"; "y"; "x"]) then Some AxisType_space
  else None.

(** The unit an axis ends with in a canonical slot: a unit of the slot's
    family is kept, any other is replaced by the family's default, and a
    channel has no unit. *)
Definition slot_unit (name : string) (u : option Unit) : option Unit :=
  if bool_decide (name = "t") then
    if isinstance_TimeUnits u then u else Some (InTimeUnits TimeUnits_default)
  else if bool_decide (name = "c") then None
  else if isinstance_SpaceUnits u then u else Some (InSpaceUnits SpaceUnits_default).

Definition coerced (name : string) (before after : Axis) : Prop :=
  on_disk_name after = on_disk_name before
  ∧ axis_type after = slot_type name
  ∧ unit after = slot_unit name (unit before).

Lemma canonical_axis_cast_coerced ax name :
  name ∈ canonical_axes_order → coerced name ax (canonical_axis_cast ax name).
Proof.
  unfold canonical_axes_order. rewrite !elem_of_cons, elem_of_nil.
  destruct ax as [n [[u|u]|] [[]|]];
    intros [-> | [-> | [-> | [-> | [-> | []]]]]]; by vm_compute.
Qed.

(** Whether two constructions succeed depends on the names only. *)
Lemma refused_names axes axes' axes_setup allow strict :
  on_disk_name <$> axes = on_disk_name <$> axes' →
  refused axes axes_setup allow strict → refused axes' axes_setup allow strict.
Proof.
  intros Hnames. unfold refused, names_not_unique, unknown_name, out_of_order.
  rewrite <- Hnames. intros [?|[?|[Hunknown|[?|?]]]]; try tauto.
  right; right; left. destruct Hunknown as (ax & Hin & Hconf & Hothers).
  assert (on_disk_name ax ∈ on_disk_name <$> axes') as Hin'.
  { rewrite <- Hnames. by apply list_elem_of_fmap_2. }
  apply list_elem_of_fmap in Hin' as (ax' & Heq & Hin'). exists ax'.
  by rewrite <- Heq.
Qed.

Lemma first_slot_Some index_mapping i names name :
  first_slot index_mapping i names = Some name →
  name ∈ names ∧ index_mapping !! name = Some (Some i).
Proof.
  induction names as [|n names IH]; simpl; [done|].
  case_bool_decide as Hn.
  - intros [= <-]. split; [left | done].
  - intros [? ?]%IH. split; [by right | done].
Qed.

(** With five distinct configured names no position is claimed by two
    canonical keys. *)
Lemma first_slot_distinct axes_setup names i name :
  NoDup (configured_names axes_setup) →
  name ∈ canonical_axes_order →
  index_mapping_of (_compute_name_mapping axes_setup names) names !! name = Some (Some i) →
  first_slot (index_mapping_of (_compute_name_mapping axes_setup names) names) i
    canonical_axes_order = Some name.
Proof.
  intros Hconf Hname Hi.
  set (im := index_mapping_of _ _) in *.
  assert (∀ k k' vk vk', getattr axes_setup k = Some vk → getattr axes_setup k' = Some vk' →
            im !! k = Some (Some i) → im !! k' = Some (Some i) → vk = vk') as Hsame.
  { intros k k' vk vk' Hk Hk'. unfold im.
    rewrite !index_mapping_lookup, !name_mapping_lookup. unfold canonical_entry.
    rewrite Hk, Hk'. simpl. repeat case_bool_decide; simpl; try done.
    intros [= H1%index_Some] [= H2%index_Some]. congruence. }
  assert (∀ k k', k ∈ canonical_axes_order → k' ∈ canonical_axes_order →
            im !! k = Some (Some i) → im !! k' = Some (Some i) → k = k') as Hinj.
  { intros k k' Hk Hk' Hik Hik'.
    destruct (getattr_canonical axes_setup k Hk) as [vk Hvk].
    destruct (getattr_canonical axes_setup k' Hk') as [vk' Hvk'].
    pose proof (Hsame k k' vk vk' Hvk Hvk' Hik Hik') as <-.
    clear -Hconf Hk Hk' Hvk Hvk'.
    unfold configured_names in Hconf. unfold canonical_axes_order in Hk, Hk'.
    rewrite !elem_of_cons, elem_of_nil in Hk, Hk'.
    repeat match goal with H : NoDup (_ :: _) |- _ => apply NoDup_cons in H as [? ?] end.
    destruct Hk as [-> | [-> | [-> | [-> | [-> | []]]]]];
      destruct Hk' as [-> | [-> | [-> | [-> | [-> | []]]]]]; try done;
      vm_compute in Hvk; vm_compute in Hvk'; simplify_eq; set_solver. }
  destruct (first_slot im i canonical_axes_order) as [k|] eqn:Hfirst.
  - apply first_slot_Some in Hfirst as [Hk Hik]. f_equal. by apply Hinj.
  - exfalso. clear -Hfirst Hname Hi.
    induction canonical_axes_order as [|n l IH]; [by apply elem_of_nil in Hname|].
    simpl in Hfirst. case_bool_decide as Hn; [done|].
    apply elem_of_cons in Hname as [-> | Hname]; [done | by apply IH].
Qed.

(** *** Permutations of positions and [argsort] *)

(** [axes] lists every position below [n] exactly once. *)
Definition is_permutation (axes : list nat) (n : nat) : Prop :=
  length axes = n ∧ NoDup axes ∧ Forall (λ ax, ax < n) axes.

Lemma is_permutation_seq axes n : is_permutation axes n → axes ≡ₚ seq 0 n.
Proof.
  intros (Hlen & Hnodup & Hlt).
  apply submseteq_length_Permutation.
  - apply NoDup_submseteq; [done|]. intros ax Hax.
    apply elem_of_seq. rewrite Forall_forall in Hlt. specialize (Hlt ax Hax). lia.
  - by rewrite length_seq, Hlen.
Qed.

Lemma is_permutation_lookup axes n j :
  is_permutation axes n → j < n → ∃ k, axes !! k = Some j.
Proof.
  intros Hperm%is_permutation_seq Hj.
  apply list_elem_of_lookup. rewrite Hperm. apply elem_of_seq. lia.
Qed.

Lemma is_permutation_normalized axes n :
  is_permutation axes n → normalized axes n = true.
Proof.
  intros (_ & Hnodup & Hlt). unfold normalized.
  by rewrite !bool_decide_true.
Qed.

#[local] Instance by_value_total : Total by_value.
Proof. intros a b. unfold by_value. lia. Qed.

#[local] Instance by_value_trans : Transitive by_value.
Proof. intros a b c. unfold by_value. lia. Qed.

Lemma Sorted_by_value_fst l : Sorted by_value l → Sorted le (l.*1).
Proof.
  induction 1 as [|a l Hsorted IH Hhd]; simpl; constructor; [done|].
  destruct Hhd; simpl; by constructor.
Qed.

Lemma Sorted_le_seq j n : Sorted le (seq j n).
Proof.
  revert j. induction n as [|n IH]; intros j; simpl; constructor; [apply IH|].
  destruct n; simpl; constructor. lia.
Qed.

Section argsort.
Context (values : list nat) (n : nat).
Hypothesis Hperm : is_permutation values n.

Let sorted := merge_sort by_value (zip values (seq 0 (length values))).

Lemma argsort_sorted_values : sorted.*1 = seq 0 n.
Proof using Hperm.
  apply (Sorted_unique le).
  - apply Sorted_by_value_fst, Sorted_merge_sort. apply _.
  - apply Sorted_le_seq.
  - unfold sorted. rewrite merge_sort_Permutation.
    rewrite fst_zip by (by rewrite length_seq).
    by apply is_permutation_seq.
Qed.

Lemma argsort_positions : argsort values ≡ₚ seq 0 n.
Proof using Hperm.
  unfold argsort. rewrite merge_sort_Permutation.
  rewrite snd_zip by (by rewrite length_seq).
  destruct Hperm as [-> _]. done.
Qed.

Lemma argsort_is_permutation : is_permutation (argsort values) n.
Proof using Hperm.
  pose proof argsort_positions as Hpos. split; [|split].
  - by rewrite Hpos, length_seq.
  - rewrite Hpos. apply NoDup_seq.
  - rewrite Hpos. apply Forall_forall. intros ax Hax%elem_of_seq. lia.
Qed.

(** Position [j] of the result is the position of value [j]. *)
Lemma argsort_lookup j t : argsort values !! j = Some t → values !! t = Some j.
Proof using Hperm.
  unfold argsort. fold sorted. rewrite list_lookup_fmap.
  destruct (sorted !! j) as [[v t']|] eqn:Hj; simpl; [|done]. intros [= ->].
  assert (sorted.*1 !! j = Some v) as Hv by (by rewrite list_lookup_fmap, Hj).
  rewrite argsort_sorted_values in Hv. apply lookup_seq in Hv as [Hv _].
  simpl in Hv. subst v.
  assert ((j, t) ∈ zip values (seq 0 (length values))) as Hin.
  { rewrite <- (merge_sort_Permutation by_value). by eapply list_elem_of_lookup_2. }
  apply list_elem_of_lookup in Hin as [k Hk].
  apply lookup_zip_with_Some in Hk as (v' & t' & [= <- <-] & Hv' & Ht').
  apply lookup_seq in Ht' as [-> _]. done.
Qed.

Lemma argsort_inverse_l j : j < n → ∃ t, argsort values !! j = Some t ∧ values !! t = Some j.
Proof using Hperm.
  intros Hj. destruct argsort_is_permutation as (Hlen & _).
  destruct (lookup_lt_is_Some_2 (argsort values) j) as [t Ht]; [lia|].
  exists t. split; [done | by apply argsort_lookup].
Qed.

Lemma argsort_inverse_r k v : values !! k = Some v → argsort values !! v = Some k.
Proof using Hperm.
  intros Hk. destruct Hperm as (Hlen & Hnodup & Hlt).
  assert (v < n) as Hv.
  { rewrite Forall_forall in Hlt. apply Hlt. by eapply list_elem_of_lookup_2. }
  destruct (argsort_inverse_l v Hv) as (t & Ht & Hvt).
  rewrite Ht. f_equal. by eapply NoDup_lookup.
Qed.
End argsort.

(** *** Insertions and removals on a list *)

(** Insert positions as [_change_order] produces them for a list of [n]
    on-disk axes: strictly ascending, the [k]-th of them preceded by at most
    [n] positions that are not insert positions. *)
Definition well_placed (positions : list nat) (n : nat) : Prop :=
  StronglySorted lt positions ∧ ∀ k p, positions !! k = Some p → p ≤ n + k.

Section list_ops.
Context {T : Type}.
Implicit Types (l : list T) (d : T).

Definition expand_list d l (axes : list nat) : list T :=
  foldl (λ l ax, list_insert_at l ax d) l axes.

Lemma length_list_insert_at l p d : length (list_insert_at l p d) = S (length l).
Proof.
  unfold list_insert_at. rewrite length_app. simpl.
  rewrite length_take, length_drop. lia.
Qed.

Lemma length_expand_list d l axes : length (expand_list d l axes) = length l + length axes.
Proof.
  revert l. induction axes as [|ax axes IH]; intros l; simpl; [lia|].
  unfold expand_list in *. simpl. rewrite IH, length_list_insert_at. lia.
Qed.

Lemma expand_list_snoc d l axes p :
  expand_list d l (axes ++ [p]) = list_insert_at (expand_list d l axes) p d.
Proof. unfold expand_list. by rewrite foldl_app. Qed.

Lemma list_pop_nat l (q off : nat) :
  off ≤ q → q - off < length l →
  list_pop l (Z.of_nat q - Z.of_nat off) = Ok (delete (q - off) l).
Proof.
  intros Hoff Hq. unfold list_pop. cbv zeta.
  rewrite (bool_decide_false (_ < 0)%Z) by lia.
  rewrite bool_decide_true by lia.
  do 2 f_equal. lia.
Qed.

Lemma list_pop_Ok l (q off : nat) r :
  off ≤ q → list_pop l (Z.of_nat q - Z.of_nat off) = Ok r →
  q - off < length l ∧ r = delete (q - off) l.
Proof.
  intros Hoff. unfold list_pop. cbv zeta.
  rewrite (bool_decide_false (_ < 0)%Z) by lia.
  case_bool_decide as Hrange; [|done]. intros [= <-].
  split; [lia|]. f_equal. lia.
Qed.

Lemma list_insert_at_cons x l p d :
  list_insert_at (x :: l) (S p) d = x :: list_insert_at l p d.
Proof. done. Qed.

Lemma delete_list_insert_at l p d : p ≤ length l → delete p (list_insert_at l p d) = l.
Proof.
  revert p. induction l as [|x l IH]; intros [|p] Hp; try done.
  - simpl in Hp. lia.
  - rewrite list_insert_at_cons. simpl. f_equal. apply IH. simpl in Hp. lia.
Qed.

Lemma delete_list_insert_at_lt l j p d :
  j < p → p ≤ length l →
  delete j (list_insert_at l p d) = list_insert_at (delete j l) (p - 1) d.
Proof.
  revert j p. induction l as [|x l IH]; intros j [|p] Hj Hp; simpl in Hp; try lia.
  rewrite list_insert_at_cons. replace (S p - 1) with p by lia.
  destruct j as [|j]; [done|].
  destruct p as [|p]; [lia|]. cbn [delete list_delete].
  rewrite list_insert_at_cons. f_equal.
  rewrite IH by lia. f_equal. lia.
Qed.

Lemma squeeze_list_app l off (axes axes' : list nat) :
  squeeze_list l off (axes ++ axes')
  = (r ← squeeze_list l off axes; squeeze_list r (off + length axes) axes').
Proof.
  revert l off. induction axes as [|ax axes IH]; intros l off; simpl.
  - by rewrite Nat.add_0_r.
  - destruct (list_pop l _) as [popped|e]; simpl; [|done].
    rewrite IH. by replace (S off + length axes) with (off + S (length axes)) by lia.
Qed.

Lemma squeeze_list_insert_at (axes : list nat) off l p d r :
  StronglySorted lt axes →
  Forall (λ q, off ≤ q < p) axes →
  p - off ≤ length l →
  squeeze_list l off axes = Ok r →
  squeeze_list (list_insert_at l (p - off) d) off axes
  = Ok (list_insert_at r (p - off - length axes) d).
Proof.
  revert off l. induction axes as [|q axes IH]; intros off l Hsorted Hbounds Hp; simpl.
  - intros [= <-]. by rewrite Nat.sub_0_r.
  - apply StronglySorted_inv in Hsorted as [Hsorted Hq].
    apply Forall_cons in Hbounds as [[Hoff Hqp] Hbounds].
    destruct (list_pop l _) as [popped|e] eqn:Hpop; simpl; [|done].
    apply list_pop_Ok in Hpop as [Hlen ->]; [|done]. intros Hrest.
    rewrite list_pop_nat; [|done | rewrite length_list_insert_at; lia]. simpl.
    rewrite delete_list_insert_at_lt by lia.
    replace (p - off - 1) with (p - S off) by lia.
    replace (p - off - S (length axes)) with (p - S off - length axes) by lia.
    apply IH; [done | | | done].
    + rewrite Forall_forall in Hq, Hbounds |- *. intros q' Hq'.
      specialize (Hq q' Hq'). specialize (Hbounds q' Hq'). lia.
    + rewrite length_delete by (apply lookup_lt_is_Some_2; lia). lia.
Qed.

Lemma StronglySorted_lt_lookup_from (axes : list nat) a k q :
  StronglySorted lt axes → axes !! 0 = Some a → axes !! k = Some q → a + k ≤ q.
Proof.
  intros Hsorted. revert a k q.
  induction Hsorted as [|b axes Hsorted IH Hb]; intros a k q; [done|].
  intros [= <-]. destruct k as [|k]; simpl; [intros [= <-]; lia|]. intros Hq.
  destruct axes as [|c axes]; [done|].
  specialize (IH c k q eq_refl Hq).
  apply Forall_cons in Hb as [Hbc _]. lia.
Qed.

Lemma StronglySorted_lt_lookup (axes : list nat) k q :
  StronglySorted lt axes → axes !! k = Some q → k ≤ q.
Proof.
  intros Hsorted Hq. destruct axes as [|a axes]; [done|].
  pose proof (StronglySorted_lt_lookup_from (a :: axes) a k q Hsorted eq_refl Hq). lia.
Qed.

Lemma well_placed_snoc (axes : list nat) p n :
  well_placed (axes ++ [p]) n →
  well_placed axes n ∧ Forall (λ q, 0 ≤ q < p) axes ∧ length axes ≤ p ≤ n + length axes.
Proof.
  intros [Hsorted Hbound]. apply StronglySorted_app in Hsorted as (Hlt & Hsorted & _).
  split; [split|split].
  - done.
  - intros k q Hq. apply Hbound. by apply lookup_app_l_Some.
  - apply Forall_forall. intros q Hq. split; [lia|]. apply Hlt; [done | left].
  - assert ((axes ++ [p]) !! length axes = Some p) as Hp.
    { by rewrite list_lookup_middle. }
    split; [|by apply Hbound].
    eapply StronglySorted_lt_lookup; [|exact Hp].
    apply StronglySorted_app. split_and!; [done..|]. repeat constructor.
Qed.

(** Squeezing removes what expanding inserted. *)
Lemma squeeze_expand_list d l (axes : list nat) :
  well_placed axes (length l) →
  squeeze_list (expand_list d l axes) 0 axes = Ok l.
Proof.
  induction axes as [|p axes IH] using rev_ind; intros Hplaced; [done|].
  apply well_placed_snoc in Hplaced as (Hplaced & Hbounds & Hlen & Hp).
  destruct Hplaced as [Hsorted Hbound].
  rewrite expand_list_snoc, squeeze_list_app.
  pose proof (squeeze_list_insert_at axes 0 (expand_list d l axes) p d l) as Hins.
  rewrite !Nat.sub_0_r in Hins. rewrite Hins; [| done | done | | by apply IH].
  - simpl. rewrite list_pop_nat; [| lia | rewrite length_list_insert_at; lia].
    simpl. by rewrite delete_list_insert_at by lia.
  - rewrite length_expand_list. lia.
Qed.
End list_ops.

(** *** Inserting and removing positions of a shape or of an index *)

(** How many of the positions [ax, ..., ax + n - 1] are in [positions]. *)
Definition count_in (positions : list nat) (ax n : nat) : nat :=
  length (filter (λ k, k ∈ positions) (seq ax n)).

Lemma count_in_S positions ax n :
  count_in positions ax (S n)
  = (if bool_decide (ax ∈ positions) then 1 else 0) + count_in positions (S ax) n.
Proof.
  unfold count_in. simpl. rewrite filter_cons.
  destruct (decide (ax ∈ positions)) as [Hin|Hin];
    [by rewrite (bool_decide_true _ Hin) | by rewrite (bool_decide_false _ Hin)].
Qed.

Lemma count_in_le positions ax n : count_in positions ax n ≤ n.
Proof.
  unfold count_in. etrans; [apply length_filter|]. by rewrite length_seq.
Qed.

Lemma count_in_all positions n :
  NoDup positions → Forall (λ ax, ax < n) positions →
  count_in positions 0 n = length positions.
Proof.
  intros Hnodup Hlt. unfold count_in. apply Permutation_length.
  apply NoDup_Permutation; [apply NoDup_filter, NoDup_seq | done |].
  intros k. rewrite list_elem_of_filter, elem_of_seq.
  rewrite Forall_forall in Hlt. split; [tauto|]. intros Hk.
  specialize (Hlt k Hk). split; [done | lia].
Qed.

Section positions.
Context {A : Type}.
Implicit Types (l : list A) (d : A) (positions : list nat).

Lemma length_fill_positions positions d ax n l :
  length l + count_in positions ax n = n →
  length (fill_positions positions d ax n l) = n.
Proof.
  revert ax l. induction n as [|n IH]; intros ax l; [done|].
  rewrite count_in_S. simpl. case_bool_decide as Hax; simpl; intros Hlen.
  - f_equal. apply IH. lia.
  - pose proof (count_in_le positions (S ax) n).
    destruct l as [|x l]; simpl in *; [lia|]. f_equal. apply IH. lia.
Qed.

Lemma remove_fill_positions positions d ax n l :
  length l + count_in positions ax n = n →
  remove_positions positions ax (fill_positions positions d ax n l) = l.
Proof.
  revert ax l. induction n as [|n IH]; intros ax l.
  - destruct l; simpl; [done | lia].
  - rewrite count_in_S. simpl.
    destruct (decide (ax ∈ positions)) as [Hax|Hax].
    + rewrite (bool_decide_true _ Hax). simpl. rewrite (bool_decide_true _ Hax).
      intros Hlen. apply IH. lia.
    + rewrite (bool_decide_false _ Hax). simpl. intros Hlen.
      pose proof (count_in_le positions (S ax) n).
      destruct l as [|x l]; simpl in *; [lia|].
      rewrite (bool_decide_false _ Hax). f_equal. apply IH. lia.
Qed.

Lemma fill_positions_lookup positions d ax n l p :
  length l + count_in positions ax n = n →
  p ∈ positions → ax ≤ p < ax + n →
  fill_positions positions d ax n l !! (p - ax) = Some d.
Proof.
  revert ax l. induction n as [|n IH]; intros ax l; [lia|].
  rewrite count_in_S. simpl. intros Hlen Hp Hrange.
  destruct (decide (ax ∈ positions)) as [Hax|Hax].
  - rewrite (bool_decide_true _ Hax) in Hlen |- *.
    destruct (decide (p = ax)) as [->|Hne]; [by rewrite Nat.sub_diag|].
    replace (p - ax) with (S (p - S ax)) by lia. simpl. apply IH; [lia | done | lia].
  - rewrite (bool_decide_false _ Hax) in Hlen |- *.
    pose proof (count_in_le positions (S ax) n).
    destruct l as [|x l]; simpl in *; [lia|].
    assert (p ≠ ax) by congruence.
    replace (p - ax) with (S (p - S ax)) by lia. simpl. apply IH; [lia | done | lia].
Qed.
End positions.

(** *** Transpositions of an array *)

Section transpose.
Context {T : Type}.
Implicit Types (array : ndarray T) (axes : list nat).

(** The index into the array that an index into its transposition
    stands for. *)
Definition source_index axes (n : nat) (idx : list nat) : list nat :=
  (λ j, idx !!! default 0 (index j axes)) <$> seq 0 n.

Lemma length_source_index axes n idx : length (source_index axes n idx) = n.
Proof. unfold source_index. by rewrite length_fmap, length_seq. Qed.

Lemma np_transpose_Ok array axes :
  is_permutation axes (ndim array) →
  np_transpose array axes
  = Ok (mk_ndarray ((λ ax, shape array !!! ax) <$> axes)
          (λ idx, item array (source_index axes (ndim array) idx))).
Proof.
  intros Hperm. unfold np_transpose.
  rewrite (is_permutation_normalized _ _ Hperm).
  destruct Hperm as (Hlen & _). by rewrite bool_decide_true.
Qed.

Lemma source_index_inverse values n idx :
  is_permutation values n → length idx = n →
  source_index values n (source_index (argsort values) n idx) = idx.
Proof.
  intros Hperm Hlen. apply list_eq_same_length with n;
    [done | by rewrite length_source_index |].
  intros j x y Hj. unfold source_index at 1.
  rewrite list_lookup_fmap, lookup_seq_lt by done. simpl. intros [= <-] Hy.
  destruct (argsort_inverse_l values n Hperm j Hj) as (t & Ht & Hvt).
  pose proof Hperm as (_ & Hnodup & _).
  rewrite (index_NoDup values t j Hnodup Hvt). simpl.
  assert (t < n) as Htn by (apply lookup_lt_Some in Hvt; destruct Hperm; lia).
  pose proof (argsort_is_permutation values n Hperm) as (_ & Hnodup' & _).
  apply list_lookup_total_correct. unfold source_index.
  rewrite list_lookup_fmap, lookup_seq_lt by done. simpl.
  rewrite (index_NoDup (argsort values) j t Hnodup' Ht). simpl.
  by rewrite (list_lookup_total_correct _ _ _ Hy).
Qed.

Lemma shape_inverse values n (s : list nat) :
  is_permutation values n → length s = n →
  (λ ax, ((λ ax', s !!! ax') <$> values) !!! ax) <$> argsort values = s.
Proof.
  intros Hperm Hlen.
  pose proof (argsort_is_permutation values n Hperm) as (Hlen' & _).
  apply list_eq_same_length with n; [done | by rewrite length_fmap |].
  intros j x y Hj. rewrite list_lookup_fmap.
  destruct (argsort_inverse_l values n Hperm j Hj) as (t & Ht & Hvt).
  rewrite Ht. simpl. intros [= <-] Hy.
  rewrite (list_lookup_total_correct ((λ ax', s !!! ax') <$> values) t (s !!! j)).
  - by apply list_lookup_total_correct.
  - by rewrite list_lookup_fmap, Hvt.
Qed.
End transpose.

(** *** The plan computed by [_change_order] *)

(** The index mapping is the name mapping followed by the position on disk,
    and the name mapping only holds names that are on disk. *)
Definition coherent (self : AxesMapper) : Prop :=
  _index_mapping self = index_mapping_of (_name_mapping self) (on_disk_axes_names self)
  ∧ ∀ key value, _name_mapping self !! key = Some (Some value) →
                 value ∈ on_disk_axes_names self.

Lemma constructed_coherent axes axes_setup allow strict :
  coherent (constructed axes axes_setup allow strict).
Proof.
  split.
  - by rewrite constructed_names.
  - intros key value. rewrite constructed_names. apply name_mapping_on_disk.
Qed.

(** The on-disk names and the positions that the requested names resolve
    to, in the order of the request. *)
Definition resolved (self : AxesMapper) (names : list string) : list string :=
  omap (λ name, mjoin (_name_mapping self !! name)) names.

Definition positions_of (self : AxesMapper) (names : list string) : list nat :=
  omap (λ name, mjoin (_index_mapping self !! name)) names.

Lemma resolve_names_Ok self names (unique_names unique_names' : gset string) :
  resolve_names self names unique_names = Ok unique_names' →
  NoDup (resolved self names)
  ∧ (∀ value, value ∈ resolved self names → value ∉ unique_names)
  ∧ unique_names' = list_to_set (resolved self names) ∪ unique_names.
Proof.
  revert unique_names. induction names as [|name names IH]; intros unique_names; simpl.
  - intros [= <-]. split; [constructor|]. split; [by intros ? ?%elem_of_nil | set_solver].
  - case_bool_decide as Hkey; [done|]. unfold resolved. simpl.
    destruct (mjoin (_name_mapping self !! name)) as [value|]; [|by apply IH].
    case_bool_decide as Hseen; [done|].
    intros (Hnodup & Hfresh & ->)%IH. split; [|split].
    + constructor; [|done]. intros Hin. apply Hfresh in Hin. set_solver.
    + intros v [->|Hin]%elem_of_cons; [done|]. apply Hfresh in Hin. set_solver.
    + set_solver.
Qed.

Lemma split_indices_Ok self i names indices insert :
  split_indices self i names = Ok (indices, insert) →
  indices = positions_of self names
  ∧ StronglySorted lt insert
  ∧ Forall (λ p, i ≤ p) insert
  ∧ length indices + length insert = length names
  ∧ ∀ k p, insert !! k = Some p → p ≤ length indices + k + i.
Proof.
  revert i indices insert.
  induction names as [|name names IH]; intros i indices insert; simpl.
  - intros [= <- <-]. split_and!; try done; constructor.
  - unfold positions_of. simpl.
    destruct (_index_mapping self !! name) as [_index|]; [|done]. simpl.
    destruct (split_indices self (S i) names) as [[indices' insert']|e] eqn:Hrest;
      simpl; [|done].
    apply IH in Hrest as (Hidx & Hsorted & Hfrom & Hlen & Hbound).
    destruct _index as [idx|]; intros [= <- <-].
    + split_and!; try done.
      * by rewrite Hidx.
      * eapply Forall_impl; [exact Hfrom|]. simpl. lia.
      * simpl. lia.
      * intros k p Hp. specialize (Hbound k p Hp). simpl. lia.
    + split_and!; try done.
      * constructor; [done|]. eapply Forall_impl; [exact Hfrom|]. simpl. lia.
      * constructor; [lia|]. eapply Forall_impl; [exact Hfrom|]. simpl. lia.
      * simpl. lia.
      * intros [|k] p; simpl; [intros [= <-]; lia|].
        intros Hp. specialize (Hbound k p Hp). lia.
Qed.

Lemma positions_of_resolved self names :
  coherent self →
  Forall2 (λ value i, index value (on_disk_axes_names self) = Some i)
    (resolved self names) (positions_of self names).
Proof.
  intros [Him Hon_disk]. unfold resolved, positions_of. rewrite Him.
  induction names as [|name names IH]; simpl; [constructor|].
  rewrite index_mapping_lookup.
  destruct (_name_mapping self !! name) as [[value|]|] eqn:Hname; simpl; try done.
  destruct (index_is_Some value (on_disk_axes_names self)) as [i Hi].
  { by eapply Hon_disk. }
  rewrite Hi. simpl. by constructor.
Qed.

Lemma NoDup_length_le (l : list nat) n :
  NoDup l → Forall (λ x, x < n) l → length l ≤ n.
Proof.
  intros Hnodup Hlt. rewrite <- (length_seq n 0). apply submseteq_length.
  apply NoDup_submseteq; [done|]. intros x Hx. apply elem_of_seq.
  rewrite Forall_forall in Hlt. specialize (Hlt x Hx). lia.
Qed.

Lemma change_order_Ok self names indices insert :
  coherent self →
  _change_order self names = Ok (indices, insert) →
  is_permutation indices (length (on_disk_axes_names self))
  ∧ well_placed insert (length (on_disk_axes_names self)).
Proof.
  intros Hcoherent. unfold _change_order.
  destruct (resolve_names self names ∅) as [unique_names|e] eqn:Hresolve; simpl; [|done].
  apply resolve_names_Ok in Hresolve as (Hnodup & _ & ->).
  case_bool_decide as Hsize; [done|].
  intros (-> & Hsorted & _ & _ & Hbound)%split_indices_Ok.
  pose proof (positions_of_resolved self names Hcoherent) as Hpos.
  set (n := length (on_disk_axes_names self)) in *.
  assert (NoDup (positions_of self names)) as Hnodup'.
  { apply NoDup_alt. intros i j p Hi Hj.
    destruct (Forall2_lookup_r _ _ _ _ _ Hpos Hi) as (v & Hv & Hvi).
    destruct (Forall2_lookup_r _ _ _ _ _ Hpos Hj) as (v' & Hv' & Hvj).
    apply index_Some in Hvi, Hvj. rewrite Hvi in Hvj. injection Hvj as <-.
    by eapply NoDup_lookup. }
  assert (Forall (λ p, p < n) (positions_of self names)) as Hlt.
  { apply Forall_forall. intros p [i Hi]%list_elem_of_lookup.
    destruct (Forall2_lookup_r _ _ _ _ _ Hpos Hi) as (v & _ & Hvi).
    by apply index_lt in Hvi. }
  assert (length (positions_of self names) = n) as Hlen.
  { apply Nat.le_antisymm; [by apply NoDup_length_le|].
    rewrite <- (Forall2_length _ _ _ Hpos).
    rewrite union_empty_r_L, size_list_to_set in Hsize by done. lia. }
  split; [done|]. split; [done|].
  intros k p Hp. specialize (Hbound k p Hp). lia.
Qed.

(** *** The round trip *)

Lemma for_each_getitem_Ok {T} (l : list T) axes :
  Forall (λ ax, ax < length l) axes → ∃ l', for_each (getitem l) axes = Ok l'.
Proof.
  induction 1 as [|ax axes Hax _ [l' IH]]; simpl; [by eexists|].
  destruct (lookup_lt_is_Some_2 l ax Hax) as [x Hx].
  assert (getitem l ax = Ok x) as -> by (unfold getitem; by rewrite Hx).
  simpl. rewrite IH. simpl. by eexists.
Qed.

Lemma for_each_getitem_lookup {T} (l l' : list T) axes :
  for_each (getitem l) axes = Ok l' ↔ Forall2 (λ ax x, l !! ax = Some x) axes l'.
Proof.
  rewrite for_each_Ok.
  split; intros Hall; (eapply Forall2_impl; [exact Hall|]);
    intros ax x; unfold getitem; destruct (l !! ax); naive_solver.
Qed.

Lemma StronglySorted_lt_NoDup (l : list nat) : StronglySorted lt l → NoDup l.
Proof.
  induction 1 as [|x l _ IH Hx]; constructor; [|done].
  intros Hin. rewrite Forall_forall in Hx. specialize (Hx x Hin). lia.
Qed.

Section round_trip.
Context (indices insert : list nat) (n : nat).
Hypothesis Hperm : is_permutation indices n.
Hypothesis Hplaced : well_placed insert n.

Lemma well_placed_normalized : normalized insert (length insert + n) = true.
Proof using Hplaced.
  destruct Hplaced as [Hsorted Hbound]. unfold normalized.
  rewrite !bool_decide_true; [done | |].
  - by apply StronglySorted_lt_NoDup.
  - apply Forall_forall. intros p [k Hk]%list_elem_of_lookup.
    pose proof (Hbound k p Hk). apply lookup_lt_Some in Hk. lia.
Qed.

Lemma transposed_list {T} (l : list T) :
  length l = n →
  ∃ transposed,
    for_each (getitem l) indices = Ok transposed
    ∧ length transposed = n
    ∧ for_each (getitem transposed) (argsort indices) = Ok l.
Proof using Hperm.
  intros Hlen. destruct (for_each_getitem_Ok l indices) as [transposed Ht].
  { destruct Hperm as (_ & _ & Hlt). by rewrite Hlen. }
  exists transposed. split; [done|].
  apply for_each_getitem_lookup in Ht.
  assert (length transposed = n) as Hlen'.
  { rewrite <- (Forall2_length _ _ _ Ht). by destruct Hperm. }
  split; [done|]. apply for_each_getitem_lookup.
  pose proof (argsort_is_permutation indices n Hperm) as (Hlen'' & _).
  apply Forall2_same_length_lookup. split; [congruence|].
  intros j t x Hj Hx. apply (argsort_lookup indices n Hperm) in Hj.
  destruct (Forall2_lookup_l _ _ _ _ _ Ht Hj) as (x' & Hx' & Hl).
  congruence.
Qed.

(** Lists: the plan of [to_order] followed by the plan of [from_order]
    returns the list it started from.  The first call leaves the caller's
    list as it was; the second empties its argument of the inserted
    defaults, in place. *)
Lemma list_round_trip {T} (l : list T) (d : T) :
  length l = n →
  ∃ mid mid',
    transform_list l d [AxesTranspose indices; AxesExpand insert] = Ok (l, mid)
    ∧ transform_list mid d [AxesSqueeze insert; AxesTranspose (argsort indices)]
      = Ok (mid', l).
Proof using Hperm Hplaced.
  intros Hlen. destruct (transposed_list l Hlen) as (transposed & Ht & Hlen' & Hback).
  exists (expand_list d transposed insert), transposed.
  unfold transform_list. simpl. rewrite Ht. simpl. split; [done|].
  fold (expand_list d transposed insert).
  rewrite squeeze_expand_list by (by rewrite Hlen'). simpl.
  by rewrite Hback.
Qed.

(** Arrays: the same two plans return an array of the same shape holding
    the same element at every index. *)
Lemma array_round_trip {T} (array : ndarray T) :
  ndim array = n →
  ∃ mid back,
    transform_array array [AxesTranspose indices; AxesExpand insert] = Ok mid
    ∧ transform_array mid [AxesSqueeze insert; AxesTranspose (argsort indices)] = Ok back
    ∧ shape back = shape array
    ∧ ∀ idx, length idx = ndim array → item back idx = item array idx.
Proof using Hperm Hplaced.
  intros Hndim. pose proof well_placed_normalized as Hnorm.
  pose proof (argsort_is_permutation indices n Hperm) as Hperm'.
  assert (NoDup insert ∧ Forall (λ ax, ax < length insert + n) insert) as [Hnodup Hlt].
  { unfold normalized in Hnorm. apply andb_true_iff in Hnorm as [H1 H2].
    by apply bool_decide_eq_true in H1, H2. }
  assert (∀ {A} (l : list A), length l = n →
            length l + count_in insert 0 (length insert + n) = length insert + n)
    as Hcount.
  { intros A l Hl. rewrite count_in_all by done. lia. }
  set (a1 := mk_ndarray ((λ ax, shape array !!! ax) <$> indices)
               (λ idx, item array (source_index indices (ndim array) idx))).
  assert (ndim a1 = n) as Hndim1.
  { unfold ndim, a1. simpl. rewrite length_fmap. by destruct Hperm. }
  set (a2 := mk_ndarray (fill_positions insert 1 0 (length insert + n) (shape a1))
               (λ idx, item a1 (remove_positions insert 0 idx))).
  assert (ndim a2 = length insert + n) as Hndim2.
  { unfold ndim, a2. simpl. apply length_fill_positions. by apply Hcount. }
  set (a3 := mk_ndarray (remove_positions insert 0 (shape a2))
               (λ idx, item a2 (fill_positions insert 0 0 (length insert + n) idx))).
  assert (shape a3 = shape a1) as Hshape3.
  { unfold a3, a2. simpl. apply remove_fill_positions. by apply Hcount. }
  assert (ndim a3 = n) as Hndim3 by (unfold ndim; by rewrite Hshape3).
  set (a4 := mk_ndarray ((λ ax, shape a3 !!! ax) <$> argsort indices)
               (λ idx, item a3 (source_index (argsort indices) n idx))).
  assert (np_transpose array indices = Ok a1) as Hstep1.
  { apply np_transpose_Ok. by rewrite Hndim. }
  assert (np_expand_dims a1 insert = Ok a2) as Hstep2.
  { unfold np_expand_dims. by rewrite Hndim1, Hnorm. }
  assert (np_squeeze a2 insert = Ok a3) as Hstep3.
  { unfold np_squeeze. rewrite Hndim2, Hnorm. rewrite bool_decide_true; [done|].
    apply Forall_forall. intros p Hp. unfold a2. simpl.
    rewrite <- (Nat.sub_0_r p). apply fill_positions_lookup; [by apply Hcount | done |].
    rewrite Forall_forall in Hlt. specialize (Hlt p Hp). lia. }
  assert (np_transpose a3 (argsort indices) = Ok a4) as Hstep4.
  { rewrite np_transpose_Ok by (by rewrite Hndim3). by rewrite Hndim3. }
  exists a2, a4. split; [|split; [|split]].
  - simpl. rewrite Hstep1. simpl. by rewrite Hstep2.
  - simpl. rewrite Hstep3. simpl. by rewrite Hstep4.
  - subst a4. cbn [shape]. rewrite Hshape3. subst a1. cbn [shape].
    apply (shape_inverse indices n); [done | by rewrite <- Hndim].
  - intros idx Hidx. rewrite Hndim in Hidx.
    subst a4 a3 a2 a1. cbn [item].
    rewrite remove_fill_positions by (apply Hcount, length_source_index).
    rewrite Hndim. by rewrite source_index_inverse.
Qed.
End round_trip.

(** *** When [to_canonical] returns a plan *)

Lemma resolve_names_total self names (unique_names : gset string) :
  (∀ name, name ∈ names → is_Some (_index_mapping self !! name)) →
  NoDup (resolved self names) →
  (∀ value, value ∈ resolved self names → value ∉ unique_names) →
  resolve_names self names unique_names
  = Ok (list_to_set (resolved self names) ∪ unique_names).
Proof.
  revert unique_names. induction names as [|name names IH];
    intros unique_names Hkeys Hnodup Hfresh; simpl.
  - f_equal. set_solver.
  - rewrite bool_decide_false.
    2:{ intros Hnot. apply Hnot, elem_of_dom, Hkeys. left. }
    assert (∀ n, n ∈ names → is_Some (_index_mapping self !! n)) as Hrest.
    { intros n Hn. apply Hkeys. by right. }
    unfold resolved in *. simpl in *.
    destruct (mjoin (_name_mapping self !! name)) as [value|]; [|by apply IH].
    apply NoDup_cons in Hnodup as [Hvalue Hnodup].
    rewrite bool_decide_false by (apply Hfresh; left).
    rewrite IH; [f_equal; set_solver | done | done |].
    intros v Hv. rewrite not_elem_of_union, not_elem_of_singleton. split.
    + intros ->. done.
    + apply Hfresh. by right.
Qed.

Lemma split_indices_total self i names :
  (∀ name, name ∈ names → is_Some (_index_mapping self !! name)) →
  is_ok (split_indices self i names) = true.
Proof.
  revert i. induction names as [|name names IH]; intros i Hkeys; simpl; [done|].
  destruct (Hkeys name) as [idx ->]; [left|].
  specialize (IH (S i)).
  destruct (split_indices self (S i) names) as [[indices insert]|e]; simpl.
  - by destruct idx.
  - apply IH. intros n Hn. apply Hkeys. by right.
Qed.

Lemma omap_filter (name_mapping : gmap string (option string)) (names keys values : list string) :
  Forall2 (λ key value, mjoin (name_mapping !! key)
                        = if bool_decide (value ∈ names) then Some value else None)
    keys values →
  omap (λ key, mjoin (name_mapping !! key)) keys = filter (λ value, value ∈ names) values.
Proof.
  induction 1 as [|key value keys values Hkey _ IH]; [done|].
  cbn [omap list_omap]. rewrite Hkey, IH, filter_cons.
  destruct (decide (value ∈ names)) as [Hin|Hin];
    [by rewrite (bool_decide_true _ Hin) | by rewrite (bool_decide_false _ Hin)].
Qed.

Lemma resolved_canonical axes axes_setup allow strict :
  resolved (constructed axes axes_setup allow strict) canonical_axes_order
  = filter (λ value, value ∈ (on_disk_name <$> axes)) (configured_names axes_setup).
Proof.
  unfold resolved. simpl _name_mapping. apply omap_filter.
  unfold canonical_axes_order, configured_names.
  repeat constructor; by rewrite name_mapping_lookup.
Qed.

Lemma to_canonical_total axes axes_setup allow strict :
  ¬ refused axes axes_setup allow strict →
  others axes_setup = [] →
  NoDup (configured_names axes_setup) →
  is_ok (to_canonical (constructed axes axes_setup allow strict)) = true
  ∧ is_ok (from_canonical (constructed axes axes_setup allow strict)) = true.
Proof.
  intros Hvalid Hothers Hconf.
  set (self := constructed axes axes_setup allow strict).
  set (names := on_disk_name <$> axes).
  assert (_extended_canonical_order self = canonical_axes_order) as Hext.
  { simpl. by rewrite Hothers. }
  assert (∀ name, name ∈ canonical_axes_order → is_Some (_index_mapping self !! name))
    as Hkeys by (intros name Hname; by apply index_mapping_canonical).
  assert (is_ok (_change_order self canonical_axes_order) = true) as Hok.
  { unfold _change_order. rewrite resolve_names_total; [ | done | |].
    - change (is_ok (if bool_decide
        (size (list_to_set (resolved self canonical_axes_order) ∪ (∅ : gset string))
         < length (on_disk_axes_names self))
        then Raise (NgioValueError (axes_not_queried
          (list_to_set (on_disk_axes_names self)
           ∖ (list_to_set (resolved self canonical_axes_order) ∪ ∅))))
        else split_indices self 0 canonical_axes_order) = true).
      rewrite bool_decide_false; [by apply split_indices_total|].
      unfold self. rewrite union_empty_r_L, resolved_canonical.
      rewrite size_list_to_set by (by apply NoDup_filter).
      rewrite constructed_names. fold names.
      apply Nat.le_ngt, submseteq_length, NoDup_submseteq.
      + apply dec_stable. intros Hdup. apply Hvalid. by left.
      + intros name Hname. apply list_elem_of_filter. split; [done|].
        apply dec_stable. intros Hunknown. apply Hvalid. right; right; left.
        apply list_elem_of_fmap in Hname as (ax & -> & Hax).
        exists ax. rewrite Hothers. split_and!; [done | done | apply not_elem_of_nil].
    - unfold self. rewrite resolved_canonical. by apply NoDup_filter.
    - intros value _. apply not_elem_of_empty. }
  unfold to_canonical, from_canonical, to_order, from_order. rewrite Hext.
  destruct (_change_order self canonical_axes_order) as [[indices insert]|e]; done.
Qed.

(** *** Coercion of the axes that fill a canonical slot *)

Definition shared_name_setup : AxesSetup := mkAxesSetup "x" "y" "z" "a" "a" [].
Definition shared_name_axes : list Axis := [mkAxis "a" None None].
Definition mistyped_axes : list Axis :=
  [mkAxis "t" None None;
   mkAxis "c" (Some (InSpaceUnits SpaceUnits_um)) (Some AxisType_space);
   mkAxis "x" (Some (InTimeUnits TimeUnits_s)) None].

(** C6, as stated, fails: with a setup whose [t] and [c] both name the
    on-disk axis [a], construction succeeds and the axis in the [c] slot is
    cast as a time axis with the default time unit, not as a channel. *)
Lemma shared_name_slot_cast_as_time :
  (AxesMapper_init shared_name_axes (Some shared_name_setup) false false
     ≫= λ self, get_axis self "c")
  = Ok (Some (mkAxis "a" (Some (InTimeUnits TimeUnits_s)) (Some AxisType_time)))
  ∧ ¬ coerced "c" (mkAxis "a" None None)
        (mkAxis "a" (Some (InTimeUnits TimeUnits_s)) (Some AxisType_time)).
Proof.
  split; [vm_compute; reflexivity|].
  intros (_ & Htype & _). vm_compute in Htype. discriminate.
Qed.

(** C6 (amended): after a successful construction, the on-disk axis at the
    position of a canonical key is rewritten with the type and unit of the
    first key, in the order [t, c, z, y, x], that is mapped to that position;
    when the five configured names are pairwise distinct this is the key
    itself, so every axis in a canonical slot has the type and unit of its
    slot; and whether construction succeeds depends on the on-disk names
    only, never on the types or units of the axes. *)
Theorem canonical_slot_coercion (axes : list Axis) (axes_setup : option AxesSetup)
    (allow_non_canonical_axes strict_canonical_order : bool) (self : AxesMapper) :
  AxesMapper_init axes axes_setup allow_non_canonical_axes strict_canonical_order = Ok self →
  (∀ name i,
     get_index self name = Ok (Some i) →
     first_slot (_index_mapping self) i canonical_axes_order = Some name →
     ∃ before after,
       axes !! i = Some before
       ∧ get_axis self name = Ok (Some after)
       ∧ coerced name before after)
  ∧ (NoDup (configured_names (default AxesSetup_default axes_setup)) →
     ∀ name i,
       name ∈ canonical_axes_order →
       get_index self name = Ok (Some i) →
       ∃ before after,
         axes !! i = Some before
         ∧ get_axis self name = Ok (Some after)
         ∧ coerced name before after)
  ∧ (∀ axes' : list Axis,
       on_disk_name <$> axes' = on_disk_name <$> axes →
       is_ok (AxesMapper_init axes' axes_setup allow_non_canonical_axes
                strict_canonical_order) = true).
Proof.
  intros Hinit. pose proof (AxesMapper_init_Ok _ _ _ _ _ Hinit) as Hself.
  set (s := default AxesSetup_default axes_setup) in *.
  pose proof (constructed_in_range axes s allow_non_canonical_axes
                strict_canonical_order) as Hrange.
  rewrite <- Hself in Hrange.
  assert (_index_mapping self
          = index_mapping_of (_compute_name_mapping s (on_disk_name <$> axes))
              (on_disk_name <$> axes)) as Hindex by (by rewrite Hself).
  assert (_on_disk_axes self = imap (cast_at (_index_mapping self)) axes) as Hdisk
    by (by rewrite Hself).
  assert (∀ name i,
     get_index self name = Ok (Some i) →
     first_slot (_index_mapping self) i canonical_axes_order = Some name →
     ∃ before after,
       axes !! i = Some before
       ∧ get_axis self name = Ok (Some after)
       ∧ coerced name before after) as Hfirst.
  { intros name i Hidx Hslot. rewrite get_axis_in_range by done.
    unfold get_index in Hidx.
    destruct (_index_mapping self !! name) as [idx|] eqn:Hname; [|done].
    injection Hidx as ->.
    assert (i < length axes) as [before Hbefore]%lookup_lt_is_Some.
    { apply Hrange in Hname. by rewrite Hdisk, length_imap in Hname. }
    exists before, (canonical_axis_cast before name).
    split; [done|]. split.
    - rewrite Hdisk, list_lookup_imap, Hbefore. simpl.
      unfold cast_at. by rewrite Hslot.
    - apply canonical_axis_cast_coerced. by apply first_slot_Some in Hslot as [? _]. }
  split; [done|]. split.
  - intros Hconf name i Hname Hidx. apply Hfirst; [done|].
    rewrite Hindex. apply first_slot_distinct; [done | done |].
    unfold get_index in Hidx. rewrite Hindex in Hidx.
    destruct (index_mapping_of _ _ !! name) as [idx|]; [|done]. by injection Hidx as ->.
  - intros axes' Hnames.
    pose proof (AxesMapper_init_spec axes axes_setup allow_non_canonical_axes
                  strict_canonical_order) as Hspec.
    pose proof (AxesMapper_init_spec axes' axes_setup allow_non_canonical_axes
                  strict_canonical_order) as Hspec'.
    rewrite Hinit in Hspec. destruct Hspec as [Hvalid _].
    destruct (AxesMapper_init axes' _ _ _) as [self'|e]; [done|].
    destruct Hspec' as [Hrefused _]. exfalso. apply Hvalid.
    by apply (refused_names axes' axes).
Qed.

Definition mistyped_mapper : AxesMapper :=
  constructed mistyped_axes AxesSetup_default false false.

Lemma canonical_slot_coercion_witness :
  AxesMapper_init mistyped_axes None false false = Ok mistyped_mapper
  ∧ ∃ before after,
      mistyped_axes !! 1 = Some before
      ∧ get_axis mistyped_mapper "c" = Ok (Some after)
      ∧ coerced "c" before after.
Proof.
  assert (AxesMapper_init mistyped_axes None false false = Ok mistyped_mapper) as Hinit
    by (vm_compute; reflexivity).
  split; [done|].
  destruct (canonical_slot_coercion mistyped_axes None false false mistyped_mapper Hinit)
    as (_ & Hdistinct & _).
  apply Hdistinct.
  - vm_compute. repeat constructor; set_solver.
  - compute_done.
  - vm_compute; reflexivity.
Defined.

(** *** Round trip through the canonical order *)

Definition absent_other_setup : AxesSetup := mkAxesSetup "x" "y" "z" "c" "t" ["foo"].

(** C1, as stated, fails: a setup whose [others] lists a name that is not on
    disk validates when non-canonical axes are allowed, and [to_canonical]
    then raises instead of returning a plan. *)
Lemma to_canonical_raises_for_absent_other :
  is_ok (AxesMapper_init two_axes (Some absent_other_setup) true false) = true
  ∧ (AxesMapper_init two_axes (Some absent_other_setup) true false ≫= to_canonical)
    = Raise (NgioValueError (invalid_axis_name "foo")).
Proof. split; vm_compute; reflexivity. Qed.

(** C1 (amended): for a validated axis list and setup, whenever
    [to_canonical] returns a plan, [from_canonical] returns one too, and
    applying the first and then the second gives back the original list, for
    every list with one entry per axis, and the original array, for every
    array with one dimension per axis; [to_canonical] does return a plan when
    [others] is empty and the five configured names are pairwise distinct. *)
Theorem canonical_round_trip (axes : list Axis) (axes_setup : option AxesSetup)
    (allow_non_canonical_axes strict_canonical_order : bool) (self : AxesMapper) :
  AxesMapper_init axes axes_setup allow_non_canonical_axes strict_canonical_order = Ok self →
  (∀ to_plan, to_canonical self = Ok to_plan →
     ∃ from_plan,
       from_canonical self = Ok from_plan
       ∧ (∀ (T : Type) (input_list : list T) (default : T),
            length input_list = length axes →
            ∃ canonical_list emptied,
              transform_list input_list default to_plan = Ok (input_list, canonical_list)
              ∧ transform_list canonical_list default from_plan = Ok (emptied, input_list))
       ∧ (∀ (T : Type) (array : ndarray T),
            ndim array = length axes →
            ∃ canonical_array back,
              transform_array array to_plan = Ok canonical_array
              ∧ transform_array canonical_array from_plan = Ok back
              ∧ shape back = shape array
              ∧ ∀ idx, length idx = ndim array → item back idx = item array idx))
  ∧ (others (default AxesSetup_default axes_setup) = [] →
     NoDup (configured_names (default AxesSetup_default axes_setup)) →
     is_ok (to_canonical self) = true).
Proof.
  intros Hinit. pose proof (AxesMapper_init_Ok _ _ _ _ _ Hinit) as Hself.
  set (s := default AxesSetup_default axes_setup) in *.
  split.
  - intros to_plan Hto.
    assert (coherent self) as Hcoherent by (rewrite Hself; apply constructed_coherent).
    assert (length (on_disk_axes_names self) = length axes) as Hlen.
    { by rewrite Hself, constructed_names, length_fmap. }
    unfold to_canonical, from_canonical, to_order, from_order in *.
    destruct (_change_order self (_extended_canonical_order self))
      as [[indices insert]|e] eqn:Horder; [|done].
    apply change_order_Ok in Horder as [Hperm Hplaced]; [|done].
    rewrite Hlen in Hperm, Hplaced.
    simpl in Hto. injection Hto as <-.
    eexists. split; [reflexivity|]. split.
    + intros T input_list default Hlist.
      by apply (list_round_trip indices insert (length axes)).
    + intros T array Hndim.
      by apply (array_round_trip indices insert (length axes)).
  - intros Hothers Hconf.
    pose proof (AxesMapper_init_spec axes axes_setup allow_non_canonical_axes
                  strict_canonical_order) as Hspec.
    rewrite Hinit in Hspec. destruct Hspec as [Hvalid _].
    rewrite Hself. by apply to_canonical_total.
Qed.

Definition three_axes : list Axis :=
  [mkAxis "y" None None; mkAxis "c" None None; mkAxis "x" None None].
Definition three_axes_mapper : AxesMapper :=
  constructed three_axes AxesSetup_default false false.
Definition three_axes_plan : list AxesTransformation :=
  [AxesTranspose [1; 0; 2]; AxesExpand [0; 2]].

Lemma canonical_round_trip_witness :
  AxesMapper_init three_axes None false false = Ok three_axes_mapper
  ∧ to_canonical three_axes_mapper = Ok three_axes_plan
  ∧ ∃ from_plan,
      from_canonical three_axes_mapper = Ok from_plan
      ∧ ∃ canonical_list emptied,
          transform_list ["Y"; "C"; "X"] "-" three_axes_plan
          = Ok (["Y"; "C"; "X"], canonical_list)
          ∧ transform_list canonical_list "-" from_plan = Ok (emptied, ["Y"; "C"; "X"]).
Proof.
  assert (AxesMapper_init three_axes None false false = Ok three_axes_mapper) as Hinit
    by (vm_compute; reflexivity).
  assert (to_canonical three_axes_mapper = Ok three_axes_plan) as Hto
    by (vm_compute; reflexivity).
  split; [done|]. split; [done|].
  destruct (canonical_round_trip three_axes None false false three_axes_mapper Hinit)
    as [Hround _].
  destruct (Hround three_axes_plan Hto) as (from_plan & Hfrom & Hlist & _).
  exists from_plan. split; [done|].
  by apply (Hlist string ["Y"; "C"; "X"] "-").
Defined.

End AxesTheory.

Module HandlersTheory.
Import Handlers.

Section get_handler.
Context {Store Handler Meta ValidationError E : Type}.
Variable safe_load_meta : Handler → Meta + ValidationError.
Implicit Types (self items : list (string * @HandlerClass Store Handler E)).
Implicit Types (_errors : gmap string ValidationError) (errors : list ValidationError).

(** A handler class rejects the store when its handler is built and reads
    a validation error; it accepts the store when the handler is built and
    reads metadata. *)
Definition rejected (store : Store) (cache : bool) (mode : string)
    (handler : @HandlerClass Store Handler E) (err : ValidationError) : Prop :=
  ∃ instance, handler store cache mode = Ok instance ∧ safe_load_meta instance = inr err.

Definition accepted (store : Store) (cache : bool) (mode : string)
    (handler : @HandlerClass Store Handler E) (instance : Handler) : Prop :=
  handler store cache mode = Ok instance ∧ ∃ meta, safe_load_meta instance = inl meta.

(** The dictionary [_errors] after the versions have been rejected in
    turn. *)
Definition collected _errors (versions : list string) errors
    : gmap string ValidationError :=
  foldl (λ acc item, <[item.1 := item.2]> acc) _errors (zip versions errors).

Lemma setitem_fresh self key (handler : @HandlerClass Store Handler E) :
  key ∉ keys self → setitem self key handler = self ++ [(key, handler)].
Proof.
  induction self as [|[k h] self IH]; simpl; [done|].
  rewrite not_elem_of_cons. intros [Hne Hnotin].
  rewrite bool_decide_false by done. by rewrite IH.
Qed.

Lemma setitem_keys self key (handler : @HandlerClass Store Handler E) :
  key ∈ keys self → keys (setitem self key handler) = keys self.
Proof.
  induction self as [|[k h] self IH]; simpl; [by intros ?%elem_of_nil|].
  case_bool_decide as Hk; [done|].
  rewrite elem_of_cons. intros [-> | Hin]; [done|].
  simpl. f_equal. by apply IH.
Qed.

Lemma collected_dom _errors versions errors :
  length versions = length errors →
  dom (collected _errors versions errors) = list_to_set versions ∪ dom _errors.
Proof.
  unfold collected. revert _errors errors.
  induction versions as [|version versions IH]; intros _errors [|err errors] Hlen;
    simplify_eq/=; [set_solver|].
  rewrite IH by done. rewrite dom_insert_L. set_solver.
Qed.

Lemma collected_lookup_notin _errors versions errors version :
  version ∉ versions →
  collected _errors versions errors !! version = _errors !! version.
Proof.
  unfold collected. revert _errors errors.
  induction versions as [|v versions IH]; intros _errors [|err errors] Hnotin;
    simpl; try done.
  apply not_elem_of_cons in Hnotin as [Hne Hnotin].
  rewrite IH by done. by rewrite lookup_insert_ne.
Qed.

Lemma collected_lookup _errors versions errors i version err :
  NoDup versions →
  versions !! i = Some version →
  errors !! i = Some err →
  collected _errors versions errors !! version = Some err.
Proof.
  revert _errors errors i.
  induction versions as [|v versions IH]; intros _errors [|e errors] [|i] Hnodup Hv He;
    simplify_eq/=; apply NoDup_cons in Hnodup as [Hnotin Hnodup].
  - change (collected (<[version:=err]> _errors) versions errors !! version = Some err).
    rewrite collected_lookup_notin by done. apply lookup_insert_eq.
  - by apply (IH _ _ i).
Qed.

Lemma get_handler_loop_rejected items errors store cache mode _errors :
  Forall2 (λ item err, rejected store cache mode item.2 err) items errors →
  get_handler_loop safe_load_meta items store cache mode _errors
  = Raise (NgioValidationError (collected _errors items.*1 errors)).
Proof.
  intros Hall. revert _errors.
  induction Hall as [|[version handler] err items errors (instance & Hbuilt & Hmeta) _ IH];
    intros _errors; simpl in *; [done|].
  by rewrite Hbuilt, Hmeta, IH.
Qed.

Lemma get_handler_loop_accepted items version handler rest instance store cache mode _errors :
  Forall (λ item, ∃ err, rejected store cache mode item.2 err) items →
  accepted store cache mode handler instance →
  get_handler_loop safe_load_meta (items ++ (version, handler) :: rest) store cache mode _errors
  = Ok instance.
Proof.
  intros Hall [Hbuilt [meta Hmeta]]. revert _errors.
  induction Hall as [|[v h] items (err & inst & Hb & Hm) _ IH]; intros _errors; simpl in *.
  - by rewrite Hbuilt, Hmeta.
  - by rewrite Hb, Hm, IH.
Qed.

(** C2: a version registered under a new key is the first of
    [available_handlers]; [get_handler] returns the handler of a version
    that accepts the store when every version registered after it rejects
    the store, so the versions are tried from the newest to the oldest and
    the first that validates wins; and when every version rejects the
    store, [get_handler] raises one validation error whose dictionary holds
    exactly the registered versions, each with its own validation
    error. *)
Theorem get_handler_newest_first self (store : Store) (cache : bool) (mode : string) :
  (∀ key (handler : @HandlerClass Store Handler E) overwrite,
     key ∉ keys self →
     add_handler self key handler overwrite
     = (Ok (self ++ [(key, handler)]) : result (@exn ValidationError E) _)
     ∧ available_handlers (self ++ [(key, handler)]) = key :: available_handlers self)
  ∧ (∀ older version handler newer instance,
       self = older ++ (version, handler) :: newer →
       Forall (λ item, ∃ err, rejected store cache mode item.2 err) newer →
       accepted store cache mode handler instance →
       get_handler safe_load_meta self store cache mode = Ok instance)
  ∧ (∀ errors,
       Forall2 (λ item err, rejected store cache mode item.2 err) self errors →
       ∃ _errors,
         get_handler safe_load_meta self store cache mode
         = Raise (NgioValidationError _errors)
         ∧ dom _errors = list_to_set (keys self)
         ∧ (NoDup (keys self) →
            ∀ i version handler err,
              self !! i = Some (version, handler) →
              errors !! i = Some err →
              _errors !! version = Some err)).
Proof.
  split; [|split].
  - intros key handler overwrite Hfresh. split.
    + unfold add_handler. rewrite bool_decide_false by done. simpl.
      by rewrite setitem_fresh.
    + unfold available_handlers, keys. by rewrite fmap_app, reverse_app.
  - intros older version handler newer instance -> Hnewer Haccepted.
    unfold get_handler. rewrite reverse_app, reverse_cons, <- app_assoc. simpl.
    apply get_handler_loop_accepted; [|done]. by apply Forall_reverse.
  - intros errors Hall. eexists. split; [|split].
    + unfold get_handler. apply get_handler_loop_rejected.
      apply Forall2_reverse, Hall.
    + rewrite collected_dom by (by rewrite length_fmap, !length_reverse;
                                  apply Forall2_length in Hall).
      rewrite dom_empty_L, union_empty_r_L, fmap_reverse.
      apply set_eq. intros version. rewrite !elem_of_list_to_set. apply elem_of_reverse.
    + intros Hnodup i version handler err Hitem Herr.
      pose proof (Forall2_length _ _ _ Hall) as Hlen.
      assert (i < length self) as Hi by (by eapply lookup_lt_Some).
      apply (collected_lookup _ _ _ (length self - S i)).
      * by rewrite fmap_reverse, reverse_Permutation.
      * rewrite fmap_reverse, reverse_lookup by (rewrite length_fmap; lia).
        rewrite length_fmap, list_lookup_fmap.
        replace (length self - S (length self - S i)) with i by lia.
        by rewrite Hitem.
      * rewrite reverse_lookup by lia.
        replace (length errors - S (length self - S i)) with i by lia. done.
Qed.

End get_handler.

(** Two versions over stores that hold a document of one version. *)
Definition versioned (version : string) : @HandlerClass string (string * string) Empty_set :=
  λ store _ _, Ok (version, store).

Definition versioned_load (handler : string * string) : string + string :=
  if bool_decide (handler.1 = handler.2) then inl handler.2
  else inr ("not a document of " +:+ handler.1).

Definition two_versions : list (string * @HandlerClass string (string * string) Empty_set) :=
  [("0.4", versioned "0.4"); ("0.5", versioned "0.5")].

Lemma get_handler_newest_first_witness :
  get_handler versioned_load two_versions "0.4" false "a" = Ok ("0.4", "0.4")
  ∧ ∃ _errors,
      get_handler versioned_load two_versions "0.3" false "a"
      = Raise (NgioValidationError _errors)
      ∧ dom _errors = list_to_set (keys two_versions).
Proof.
  destruct (get_handler_newest_first versioned_load two_versions "0.4" false "a")
    as (_ & Hfirst & _).
  destruct (get_handler_newest_first versioned_load two_versions "0.3" false "a")
    as (_ & _ & Hnone).
  split.
  - apply (Hfirst [] "0.4" (versioned "0.4") [("0.5", versioned "0.5")]); [reflexivity | |].
    + repeat constructor. exists "not a document of 0.5", ("0.5", "0.4").
      split; reflexivity.
    + split; [reflexivity|]. exists "0.4". reflexivity.
  - destruct (Hnone ["not a document of 0.4"; "not a document of 0.5"])
      as (_errors & Hraise & Hdom & _).
    + repeat constructor; eexists; split; reflexivity.
    + by exists _errors.
Defined.

End HandlersTheory.

Module ZarrUtilsTheory.
Import ZarrUtils.

Definition supported_modes : list string := ["r"; "r+"; "w"; "w-"; "a"].

Section init.
Variable zarr_open_group : Store → string → string → result zarr_error Group.

Lemma check_store_error store e :
  _check_store store = Raise e → e = NotImplementedError store.
Proof. unfold _check_store. destruct (isinstance_NgioSupportedStore store); congruence. Qed.

(** Opening the group raises no [NgioValueError] but the one for a
    read-only group opened for writing. *)
Lemma open_group_wrapper_error store mode m :
  open_group_wrapper zarr_open_group store mode = Raise (NgioValueError m) →
  m = group_read_only_write_mode.
Proof.
  unfold open_group_wrapper. destruct store as [s|g]; simpl.
  - destruct (_check_store s) as [s'|e] eqn:Hs; simpl.
    + destruct (zarr_open_group s' "" mode) as [?|[]]; done.
    + apply check_store_error in Hs as ->. done.
  - unfold _check_group.
    destruct (_read_only g && bool_decide (mode ∈ ["w"; "w-"])); simpl; [congruence|].
    destruct (bool_decide (mode = "r") && negb (_read_only g)); simpl.
    + destruct (zarr_open_group _ _ "r") as [g'|?]; simpl; [|done].
      destruct (_check_store _) as [?|e] eqn:Hs; simpl; [done|].
      apply check_store_error in Hs as ->. done.
    + destruct (_check_store _) as [?|e] eqn:Hs; simpl; [done|].
      apply check_store_error in Hs as ->. done.
Qed.

Lemma init_exclusive_error store cache mode parallel_safe parent :
  ZarrGroupHandler_init zarr_open_group store cache mode parallel_safe parent
  = Raise (NgioValueError cache_and_parallel_safe_exclusive) →
  cache = true ∧ parallel_safe = true.
Proof.
  unfold ZarrGroupHandler_init. case_bool_decide; [done|].
  destruct parallel_safe, cache; simpl; try done;
    destruct (open_group_wrapper _ _ _) as [[g s]|e] eqn:Hopen; simpl;
    try (intros [= ->]; by apply open_group_wrapper_error in Hopen);
    try done.
  by destruct (isinstance_str_or_Path s).
Qed.

(** A handler that was built with [parallel_safe] has a lock, on the file
    named after its store. *)
Lemma init_parallel_safe store cache mode parent self :
  ZarrGroupHandler_init zarr_open_group store cache mode true parent = Ok self →
  _parallel_safe self = true ∧ use_cache self = false ∧ _mode self = mode
  ∧ ∃ path, isinstance_str_or_Path (_store self) = Some path
            ∧ _lock self = Some (mkFileLock (path +:+ ".lock") 10).
Proof.
  unfold ZarrGroupHandler_init. case_bool_decide; [done|].
  destruct cache; simpl; [done|].
  destruct (open_group_wrapper _ _ _) as [[g s]|e]; simpl; [|done].
  destruct (isinstance_str_or_Path s) as [path|] eqn:Hpath; [|done].
  intros [= <-]. simpl. split_and!; [done..|]. by exists path.
Qed.

(** C8: building a handler with the cache and [parallel_safe] both set
    raises [NgioValueError], whatever the store, the mode and the parent,
    and for a supported mode the error is the one that says the two
    options exclude each other; that error is raised in no other case; and
    with one of the two options alone the handler is built whenever the
    group opens (and, for [parallel_safe], the store is a path). *)
Theorem cache_and_parallel_safe_rejected (store : StoreOrGroup) (mode : string)
    (parent : option ZarrGroupHandler) :
  (∃ m, ZarrGroupHandler_init zarr_open_group store true mode true parent
        = Raise (NgioValueError m))
  ∧ (mode ∈ supported_modes →
     ZarrGroupHandler_init zarr_open_group store true mode true parent
     = Raise (NgioValueError cache_and_parallel_safe_exclusive))
  ∧ (∀ cache parallel_safe,
       ZarrGroupHandler_init zarr_open_group store cache mode parallel_safe parent
       = Raise (NgioValueError cache_and_parallel_safe_exclusive) →
       cache = true ∧ parallel_safe = true)
  ∧ (∀ group _store,
       mode ∈ supported_modes →
       open_group_wrapper zarr_open_group store mode = Ok (group, _store) →
       is_ok (ZarrGroupHandler_init zarr_open_group store true mode false parent) = true
       ∧ is_ok (ZarrGroupHandler_init zarr_open_group store false mode false parent) = true
       ∧ (is_Some (isinstance_str_or_Path _store) →
          is_ok (ZarrGroupHandler_init zarr_open_group store false mode true parent) = true)).
Proof.
  split; [|split; [|split]].
  - unfold ZarrGroupHandler_init. case_bool_decide; simpl; eauto.
  - intros Hmode. unfold ZarrGroupHandler_init.
    by rewrite bool_decide_false by (by intros []).
  - intros cache parallel_safe. apply init_exclusive_error.
  - intros group _store Hmode Hopen. unfold ZarrGroupHandler_init.
    rewrite bool_decide_false by (by intros []). simpl. rewrite Hopen. simpl.
    split; [done|]. split; [done|]. by intros [path ->].
Qed.

End init.

(** A directory that holds a group, opened in any mode. *)
Definition open_existing : Store → string → string → result zarr_error Group :=
  λ store path _, Ok (mkGroup store path false false).

Lemma cache_and_parallel_safe_rejected_witness :
  ZarrGroupHandler_init open_existing (a_store (store_str "plate.zarr")) true "r+" true None
  = Raise (NgioValueError cache_and_parallel_safe_exclusive)
  ∧ is_ok (ZarrGroupHandler_init open_existing (a_store (store_str "plate.zarr"))
             true "r+" false None) = true
  ∧ is_ok (ZarrGroupHandler_init open_existing (a_store (store_str "plate.zarr"))
             false "r+" true None) = true.
Proof.
  destruct (cache_and_parallel_safe_rejected open_existing
              (a_store (store_str "plate.zarr")) "r+" None)
    as (_ & Hboth & _ & Halone).
  assert ("r+" ∈ supported_modes) as Hmode by compute_done.
  split; [by apply Hboth|].
  destruct (Halone (mkGroup (store_str "plate.zarr") "" false false)
              (store_str "plate.zarr") Hmode eq_refl) as (Hcache & _ & Hsafe).
  split; [done|]. apply Hsafe. by eexists.
Defined.

End ZarrUtilsTheory.

Module PlateTheory.
Import ZarrUtils Plate.

(** Running a sequence of two methods. *)
Lemma bind_run {A B} (m : M A) (k : A → M B) (w : Zarr) :
  (m ≫= k) w = match m w with
               | (Ok a, w') => k a w'
               | (Raise e, w') => (Raise e, w')
               end.
Proof. reflexivity. Qed.

Lemma bind_run_Ok {A B} (m : M A) (k : A → M B) (w w' : Zarr) a :
  m w = (Ok a, w') → (m ≫= k) w = k a w'.
Proof. intros Hm. by rewrite bind_run, Hm. Qed.

Lemma bind_run_Raise {A B} (m : M A) (k : A → M B) (w w' : Zarr) e :
  m w = (Raise e, w') → (m ≫= k) w = (Raise e, w').
Proof. intros Hm. by rewrite bind_run, Hm. Qed.

Lemma bind_run_inv {A B} (m : M A) (k : A → M B) (w w2 : Zarr) b :
  (m ≫= k) w = (Ok b, w2) → ∃ a w1, m w = (Ok a, w1) ∧ k a w1 = (Ok b, w2).
Proof. rewrite bind_run. destruct (m w) as [[a|e] w1]; [eauto | done]. Qed.

Lemma release_head file files : release file (file :: files) = files.
Proof. simpl. by rewrite bool_decide_true. Qed.

Section plate.
Variable zarr_open_group : Store → string → string → result zarr_error Group.
Variable acquires : string → list string → bool.

Abbreviation derive_handler := (derive_handler zarr_open_group).
Abbreviation get_well := (get_well zarr_open_group).
Abbreviation get_image_path := (get_image_path zarr_open_group).

(** The group paths of the nodes of a plate and of a well. *)
Definition plate_node (self : OmeZarrPlate) : string :=
  group_path (_group (meta_group_handler (_meta_handler self))).

Definition well_node (well : OmeZarrWell) : string :=
  group_path (_group (meta_group_handler (well_meta_handler well))).

Lemma plate_meta_Ok self meta w w' :
  plate_meta self w = (Ok meta, w') ↔
  w' = w ∧ nodes w !! group_path (_group (meta_group_handler self)) = Some (attrs_plate meta).
Proof.
  unfold plate_meta, load_attrs. rewrite bind_run.
  destruct (nodes w !! _) as [[| |]|]; simpl; unfold raise, mret, M_ret;
    (split; [intros ?; by simplify_eq | intros [? ?]; by simplify_eq]).
Qed.

Lemma well_meta_Ok self meta w w' :
  well_meta self w = (Ok meta, w') ↔
  w' = w ∧ nodes w !! group_path (_group (meta_group_handler self)) = Some (attrs_well meta).
Proof.
  unfold well_meta, load_attrs. rewrite bind_run.
  destruct (nodes w !! _) as [[| |]|]; simpl; unfold raise, mret, M_ret;
    (split; [intros ?; by simplify_eq | intros [? ?]; by simplify_eq]).
Qed.

(** Deriving a handler leaves the groups of the store as they are, and
    adds at most an empty group. *)
Lemma derive_handler_Ok self path group_handler w w' :
  derive_handler self path w = (Ok group_handler, w') →
  held w' = held w
  ∧ (∀ node, is_Some (nodes w !! node) → nodes w' !! node = nodes w !! node)
  ∧ (_parallel_safe self = true → is_Some (_lock group_handler)).
Proof.
  unfold derive_handler. intros (group & w1 & Hgroup & Hinit)%bind_run_inv.
  unfold lift in Hinit. injection Hinit as Hinit <-.
  assert (held w1 = held w
          ∧ ∀ node, is_Some (nodes w !! node) → nodes w1 !! node = nodes w !! node)
    as [Hheld Hnodes].
  { revert Hgroup. unfold get_group.
    destruct (nodes w !! join _ path) eqn:Hnode; simpl.
    - by intros [= _ <-].
    - unfold create_group. case_bool_decide; [done|]. intros [= _ <-]. simpl.
      split; [done|]. intros node [attrs Hattrs].
      apply lookup_insert_ne. intros <-. simpl in Hattrs. congruence. }
  split; [done|]. split; [done|]. intros Hsafe. rewrite Hsafe in Hinit.
  apply ZarrUtilsTheory.init_parallel_safe in Hinit as (_ & _ & _ & path' & _ & ->).
  by eexists.
Qed.

(** What a successful [get_well] has found. *)
Lemma get_well_Ok self row column well w w1 :
  get_well self row column w = (Ok well, w1) →
  ∃ plate_doc well_path well_doc,
    nodes w !! plate_node self = Some (attrs_plate plate_doc)
    ∧ get_well_path plate_doc row column = Ok well_path
    ∧ derive_handler (_group_handler self) well_path w = (Ok (well_group_handler well), w1)
    ∧ well_meta_handler well = mkMetaHandler (well_group_handler well)
    ∧ nodes w1 !! well_node well = Some (attrs_well well_doc)
    ∧ nodes w1 !! plate_node self = Some (attrs_plate plate_doc)
    ∧ well_node well ≠ plate_node self.
Proof.
  unfold get_well, meta.
  intros (plate_doc & w' & [-> Hplate]%plate_meta_Ok & Hrest)%bind_run_inv.
  apply bind_run_inv in Hrest as (well_path & w' & Hpath & Hrest).
  unfold lift in Hpath. injection Hpath as Hpath <-.
  apply bind_run_inv in Hrest as (group_handler & w' & Hderive & Hinit).
  unfold OmeZarrWell_init, find_well_meta_handler in Hinit.
  apply bind_run_inv in Hinit as (meta_handler & w'' & Hfind & Hret).
  apply bind_run_inv in Hfind as (well_doc & w''' & [-> Hwell]%well_meta_Ok & Hret').
  injection Hret' as <- <-. injection Hret as <- <-.
  exists plate_doc, well_path, well_doc.
  pose proof (derive_handler_Ok _ _ _ _ _ Hderive) as (_ & Hkept & _).
  assert (nodes w' !! plate_node self = Some (attrs_plate plate_doc)) as Hplate'.
  { unfold plate_node. rewrite Hkept; [done | by eexists]. }
  split_and!; try done.
  unfold well_node, plate_node in *. simpl in *. intros Heq. congruence.
Qed.


Abbreviation OmeZarrPlate_remove_image :=
  (OmeZarrPlate_remove_image zarr_open_group acquires).
Abbreviation _remove_image := (_remove_image zarr_open_group acquires).
Abbreviation _add_image := (_add_image zarr_open_group acquires).

Lemma remove_image_Ok well_doc path well_doc' :
  remove_image well_doc path = Ok well_doc' →
  path ∈ paths well_doc None
  ∧ images well_doc' = filter (λ image, image_path image ≠ path) (images well_doc)
  ∧ path ∉ paths well_doc' None.
Proof.
  unfold remove_image. case_bool_decide as Hin; [|done]. intros [= <-].
  split; [done|]. split; [done|]. unfold paths. simpl.
  intros (image & -> & [Hne _]%list_elem_of_filter)%list_elem_of_fmap. done.
Qed.

Lemma remove_image_Raise well_doc path e :
  remove_image well_doc path = Raise e →
  (path ∉ paths well_doc None) ∧ e = NotFound (image_not_in_well path).
Proof. unfold remove_image. case_bool_decide; [done|]. by intros [= <-]. Qed.

Lemma remove_well_wells plate_doc row column :
  Forall (λ well, ¬ is_well row column well) (wells (remove_well plate_doc row column)).
Proof.
  apply Forall_forall. simpl. by intros well [? _]%list_elem_of_filter.
Qed.

Lemma ret_bind_run {A B} (a : A) (k : A → M B) (w : Zarr) : (mret a ≫= k) w = k a w.
Proof. reflexivity. Qed.

Lemma lift_bind_run {A B} (a : A) (k : A → M B) (w : Zarr) : (lift (Ok a) ≫= k) w = k a w.
Proof. reflexivity. Qed.

Lemma with_MockLock {A} (body : M A) (w : Zarr) : with_ acquires MockLock body w = body w.
Proof. unfold with_. simpl. by destruct (body w). Qed.

Lemma write_attrs_Ok self attrs w :
  _read_only (_group self) = false →
  write_attrs self attrs w
  = (Ok (), mkZarr (<[group_path (_group self) := attrs]> (nodes w)) (held w)).
Proof. unfold write_attrs. by intros ->. Qed.


(** *** The lock files held do not change what a method does *)

Definition set_held (files : list string) (w : Zarr) : Zarr := mkZarr (nodes w) files.

(** A method frames the lock files when it runs the same way whatever
    files are held, and leaves them as they were. *)
Definition frames {A} (m : M A) : Prop :=
  ∀ w files, m (set_held files w) = ((m w).1, set_held files (m w).2).

Lemma set_held_held w : set_held (held w) w = w.
Proof. by destruct w. Qed.

Lemma frames_held {A} (m : M A) w : frames m → held (m w).2 = held w.
Proof.
  intros Hm. specialize (Hm w (held w)). rewrite set_held_held in Hm.
  by rewrite Hm.
Qed.

Lemma frames_ret {A} (a : A) : frames (mret a).
Proof. done. Qed.

Lemma frames_raise {A} e : frames (raise e : M A).
Proof. done. Qed.

Lemma frames_lift {A} (r : res A) : frames (lift r).
Proof. done. Qed.

Lemma frames_bind {A B} (m : M A) (k : A → M B) :
  frames m → (∀ a, frames (k a)) → frames (m ≫= k).
Proof.
  intros Hm Hk w files. rewrite !bind_run, Hm.
  destruct (m w) as [[a|e] w']; simpl; [apply Hk | done].
Qed.

Lemma frames_load_attrs self : frames (load_attrs self).
Proof. done. Qed.

Lemma frames_write_attrs self attrs : frames (write_attrs self attrs).
Proof. unfold write_attrs. by destruct (_read_only _). Qed.

Lemma frames_clean_cache self : frames (clean_cache self).
Proof. done. Qed.

Lemma frames_get_group self path create_mode : frames (get_group self path create_mode).
Proof.
  intros w files. unfold get_group, create_group. simpl.
  destruct (nodes w !! _); [done|].
  destruct create_mode; simpl; [|done]. by case_bool_decide.
Qed.

Lemma frames_derive_handler self path : frames (derive_handler self path).
Proof. apply frames_bind; [apply frames_get_group | intros; apply frames_lift]. Qed.

Lemma frames_plate_meta self : frames (plate_meta self).
Proof.
  apply frames_bind; [apply frames_load_attrs|].
  intros []; first [apply frames_ret | apply frames_raise].
Qed.

Lemma frames_well_meta self : frames (well_meta self).
Proof.
  apply frames_bind; [apply frames_load_attrs|].
  intros []; first [apply frames_ret | apply frames_raise].
Qed.

(** A file lock that is acquired guards a block that does not look at the
    locks without changing what the block does. *)
Lemma with_granted {A} (l : FileLock) (body : M A) w :
  acquires (lock_file l) (held w) = true →
  frames body →
  with_ acquires (a_FileLock l) body w = body w.
Proof.
  intros Hgranted Hbody. unfold with_. simpl. rewrite Hgranted.
  change (mkZarr (nodes w) (lock_file l :: held w))
    with (set_held (lock_file l :: held w) w).
  rewrite Hbody. simpl. rewrite bool_decide_true by done.
  pose proof (frames_held body w Hbody) as Hheld.
  destruct (body w) as [r [n h]]. simpl in *. by rewrite Hheld.
Qed.

Lemma with_ext {A} (l : Lock) (body body' : M A) w :
  (∀ files, body (set_held files w) = body' (set_held files w)) →
  with_ acquires l body w = with_ acquires l body' w.
Proof.
  intros Hsame. unfold with_. destruct l as [|l]; simpl.
  - specialize (Hsame (held w)). rewrite set_held_held in Hsame. by rewrite Hsame.
  - destruct (acquires (lock_file l) (held w)); [|done].
    change (mkZarr (nodes w) (lock_file l :: held w))
      with (set_held (lock_file l :: held w) w).
    by rewrite Hsame.
Qed.

Lemma frames_with_MockLock {A} (body : M A) :
  frames body → frames (with_ acquires MockLock body).
Proof. intros Hbody w files. by rewrite !with_MockLock, Hbody. Qed.

Lemma run_held {A} (m : M A) w r w1 : frames m → m w = (r, w1) → held w1 = held w.
Proof. intros Hm Hrun. pose proof (frames_held m w Hm) as Hheld. by rewrite Hrun in Hheld. Qed.

Lemma frames_find_well_meta_handler group_handler :
  frames (find_well_meta_handler group_handler).
Proof.
  apply frames_bind; [apply frames_well_meta | intros; apply frames_ret].
Qed.

Lemma frames_get_well self row column : frames (get_well self row column).
Proof.
  unfold get_well, Plate.get_well, meta.
  apply frames_bind; [apply frames_plate_meta|]. intros plate_doc.
  apply frames_bind; [apply frames_lift|]. intros well_path.
  apply frames_bind; [apply frames_derive_handler|]. intros group_handler.
  apply frames_bind; [apply frames_find_well_meta_handler | intros; apply frames_ret].
Qed.

Create HintDb frames.
#[local] Hint Resolve frames_ret frames_raise frames_lift
  frames_load_attrs frames_write_attrs frames_clean_cache frames_get_group
  frames_derive_handler frames_plate_meta frames_well_meta : frames.

Ltac solve_frames :=
  repeat first
    [ solve [auto with frames]
    | match goal with
      | |- frames (match ?x with _ => _ end) => destruct x
      | |- ∀ _, _ => intros ?
      end
    | match goal with |- frames (_ ≫= _) => apply frames_bind end ].

(** *** The guarded and the unguarded run *)

Lemma bind_ext {A B} (m m' : M A) (k k' : A → M B) w :
  m w = m' w →
  (∀ a w1, m w = (Ok a, w1) → k a w1 = k' a w1) →
  (m ≫= k) w = (m' ≫= k') w.
Proof.
  intros Hm Hk. rewrite !bind_run, <- Hm.
  destruct (m w) as [[a|e] w1]; [by apply Hk | done].
Qed.

Lemma lock_bind_run {A} (group_handler : ZarrGroupHandler) (k : Lock → M A) l w :
  _lock group_handler = Some l →
  ((l ← lift (lock group_handler); mret (a_FileLock l)) ≫= k) w = k (a_FileLock l) w.
Proof. intros Hlock. unfold lock. by rewrite Hlock. Qed.

Lemma frames_remove_well_plain self row column :
  frames (_remove_well acquires self row column false).
Proof.
  intros w files. unfold _remove_well. rewrite !ret_bind_run, !with_MockLock.
  revert w files. change (frames (meta self ≫= λ meta,
    write_plate_meta (_meta_handler self) (remove_well meta row column) ;;
    clean_cache (meta_group_handler (_meta_handler self)))).
  unfold meta, write_plate_meta. solve_frames.
Qed.

(** C3: when the well is found and its node and the plate node can be
    written, [_remove_image] fails with not-found and writes nothing when
    the well document does not list the path; otherwise it writes the well
    document without the image.  When that document has images left,
    nothing else is written.  When it has none left, the plain variant
    writes the plate document without the entry of the well, so that no
    well of the plate document is at that row and column any more; the
    atomic variant asks for the lock of the plate while it holds the lock
    of the well, which is refused, and raises the timeout of that lock
    with the plate document as it was. *)
Theorem remove_image_cascade (self : OmeZarrPlate) (row : string) (column : Column)
    (image_path : string) (atomic : bool) (w w1 : Zarr) (well : OmeZarrWell)
    (well_lock plate_lock : FileLock) :
  get_well self row column w = (Ok well, w1) →
  _read_only (_group (meta_group_handler (well_meta_handler well))) = false →
  _read_only (_group (meta_group_handler (_meta_handler self))) = false →
  (atomic = true →
   _lock (meta_group_handler (well_meta_handler well)) = Some well_lock
   ∧ _lock (_group_handler self) = Some plate_lock
   ∧ acquires (lock_file well_lock) (held w1) = true
   ∧ acquires (lock_file plate_lock) (lock_file well_lock :: held w1) = false) →
  ∃ plate_doc well_doc,
    nodes w1 !! plate_node self = Some (attrs_plate plate_doc)
    ∧ nodes w1 !! well_node well = Some (attrs_well well_doc)
    ∧ match remove_image well_doc image_path with
      | Raise e =>
          (image_path ∉ paths well_doc None)
          ∧ e = NotFound (image_not_in_well image_path)
          ∧ _remove_image self row column image_path atomic w = (Raise e, w1)
      | Ok well_doc' =>
          image_path ∈ paths well_doc None
          ∧ (image_path ∉ paths well_doc' None)
          ∧ _remove_image self row column image_path atomic w
            = (if bool_decide (paths well_doc' None = []) then
                 if atomic then
                   (Raise (Timeout (lock_file plate_lock)),
                    mkZarr (<[well_node well := attrs_well well_doc']> (nodes w1))
                      (held w1))
                 else
                   (Ok (),
                    mkZarr
                      (<[plate_node self :=
                           attrs_plate (remove_well plate_doc row column)]>
                         (<[well_node well := attrs_well well_doc']> (nodes w1)))
                      (held w1))
               else
                 (Ok (),
                  mkZarr (<[well_node well := attrs_well well_doc']> (nodes w1))
                    (held w1)))
          ∧ Forall (λ well, ¬ is_well row column well)
              (wells (remove_well plate_doc row column))
      end.
Proof.
  intros Hwell Hwritable Hplate_writable Hlocks.
  pose proof (get_well_Ok _ _ _ _ _ _ Hwell)
    as (plate_doc & well_path & well_doc & _ & _ & _ & _ & Hdoc & Hplate & Hne).
  exists plate_doc, well_doc. split; [done|]. split; [done|].
  destruct (remove_image well_doc image_path) as [well_doc'|e] eqn:Hremove.
  - pose proof (remove_image_Ok _ _ _ Hremove) as (Hin & Himages & Hout).
    split; [done|]. split; [done|]. split; [|apply remove_well_wells].
    unfold Plate._remove_image. rewrite (bind_run_Ok _ _ _ _ _ Hwell).
    destruct atomic.
    + destruct (Hlocks eq_refl) as (Hwell_lock & Hplate_lock & Hfirst & Hsecond).
      rewrite (lock_bind_run _ _ well_lock) by done.
      unfold with_ at 1. simpl. rewrite Hfirst.
      set (w2 := mkZarr (nodes w1) (lock_file well_lock :: held w1)).
      assert (OmeZarrWell_meta well w2 = (Ok well_doc, w2)) as Hmeta
        by (by apply well_meta_Ok).
      rewrite (bind_run_Ok _ _ _ _ _ Hmeta), Hremove, lift_bind_run.
      unfold write_well_meta.
      rewrite (bind_run_Ok _ _ _ _ _ (write_attrs_Ok _ _ _ Hwritable)).
      unfold clean_cache at 1. rewrite ret_bind_run. fold (well_node well).
      destruct (decide (paths well_doc' None = [])) as [Hempty|Hleft].
      * rewrite (bool_decide_true (paths well_doc' None = [])) by done.
        rewrite bool_decide_true by (by rewrite Hempty).
        unfold _remove_well. rewrite (lock_bind_run _ _ plate_lock) by done.
        unfold with_. simpl. rewrite Hsecond. simpl.
        by rewrite bool_decide_true.
      * rewrite (bool_decide_false (paths well_doc' None = [])) by done.
        rewrite bool_decide_false by (intros Hlen; by apply Hleft, nil_length_inv).
        simpl. by rewrite bool_decide_true.
    + rewrite ret_bind_run, with_MockLock.
      assert (OmeZarrWell_meta well w1 = (Ok well_doc, w1)) as Hmeta
        by (by apply well_meta_Ok).
      rewrite (bind_run_Ok _ _ _ _ _ Hmeta), Hremove, lift_bind_run.
      unfold write_well_meta.
      rewrite (bind_run_Ok _ _ _ _ _ (write_attrs_Ok _ _ _ Hwritable)).
      unfold clean_cache at 1. rewrite ret_bind_run. fold (well_node well).
      destruct (decide (paths well_doc' None = [])) as [Hempty|Hleft].
      * rewrite (bool_decide_true (paths well_doc' None = [])) by done.
        rewrite bool_decide_true by (by rewrite Hempty).
        unfold _remove_well. rewrite ret_bind_run, with_MockLock. unfold meta.
        erewrite bind_run_Ok;
          [|apply plate_meta_Ok; split; [done|]; simpl; fold (plate_node self);
            by rewrite lookup_insert_ne].
        unfold write_plate_meta.
        rewrite (bind_run_Ok _ _ _ _ _ (write_attrs_Ok _ _ _ Hplate_writable)).
        by fold (plate_node self).
      * rewrite (bool_decide_false (paths well_doc' None = [])) by done.
        rewrite bool_decide_false; [done|].
        intros Hlen. apply Hleft. by apply nil_length_inv.
  - pose proof (remove_image_Raise _ _ _ Hremove) as [Hout ->].
    split; [done|]. split; [done|].
    unfold Plate._remove_image. rewrite (bind_run_Ok _ _ _ _ _ Hwell).
    destruct atomic.
    + destruct (Hlocks eq_refl) as (Hwell_lock & Hplate_lock & Hfirst & Hsecond).
      rewrite (lock_bind_run _ _ well_lock) by done.
      unfold with_. simpl. rewrite Hfirst.
      set (w2 := mkZarr (nodes w1) (lock_file well_lock :: held w1)).
      assert (OmeZarrWell_meta well w2 = (Ok well_doc, w2)) as Hmeta
        by (by apply well_meta_Ok).
      rewrite (bind_run_Ok _ _ _ _ _ Hmeta), Hremove. simpl.
      rewrite bool_decide_true by done. by destruct w1.
    + rewrite ret_bind_run, with_MockLock.
      assert (OmeZarrWell_meta well w1 = (Ok well_doc, w1)) as Hmeta
        by (by apply well_meta_Ok).
      by rewrite (bind_run_Ok _ _ _ _ _ Hmeta), Hremove.
Qed.

(** C9 (amended): on a plate whose group handler is parallel safe and has
    its lock, called while the process holds no lock file and with a lock
    library that acquires a lock file that is not held, the atomic and the
    plain variant of adding an image return the same and leave the same
    store; so do the atomic and the plain variant of removing an image,
    whenever the removal does not leave the well without images. *)
Theorem atomic_matches_plain (self : OmeZarrPlate) (row : string) (column : Column)
    (image_path : string) (acquisition_id : option Z) (acquisition_name : option string)
    (removed_path : string) (w : Zarr) :
  (∀ file files, file ∉ files → acquires file files = true) →
  _parallel_safe (_group_handler self) = true →
  is_Some (_lock (_group_handler self)) →
  held w = [] →
  atomic_add_image zarr_open_group acquires self row column image_path
    acquisition_id acquisition_name w
  = OmeZarrPlate_add_image zarr_open_group acquires self row column image_path
      acquisition_id acquisition_name w
  ∧ ((∀ well w1 well_doc well_doc',
        get_well self row column w = (Ok well, w1) →
        nodes w1 !! well_node well = Some (attrs_well well_doc) →
        remove_image well_doc removed_path = Ok well_doc' →
        paths well_doc' None ≠ []) →
     atomic_remove_image zarr_open_group acquires self row column removed_path w
     = OmeZarrPlate_remove_image self row column removed_path w).
Proof.
  intros Hfree Hsafe [l Hlock] Hnone.
  assert (∀ file w', held w' = [] → acquires file (held w') = true) as Hgranted.
  { intros file w' ->. apply Hfree, not_elem_of_nil. }
  split.
  - unfold atomic_add_image, Plate.OmeZarrPlate_add_image, Plate._add_image.
    rewrite (lock_bind_run _ _ l) by done. rewrite ret_bind_run.
    assert (frames (meta self ≫= λ meta,
              write_plate_meta (_meta_handler self)
                (add_well meta row column acquisition_id acquisition_name) ;;
              clean_cache (meta_group_handler (_meta_handler self)))) as Hfirst
      by (unfold meta, write_plate_meta; solve_frames).
    apply bind_ext.
    { rewrite with_granted, with_MockLock; [done | by apply Hgranted | done]. }
    intros [] w1 Hrun1. rewrite with_granted in Hrun1; [|by apply Hgranted | done].
    apply (run_held _ _ _ _ Hfirst) in Hrun1. rewrite Hnone in Hrun1.
    apply bind_ext; [done|]. intros well_path w2 Hrun2.
    apply run_held in Hrun2;
      [|unfold OmeZarrPlate_get_well_path, meta; solve_frames].
    rewrite Hrun1 in Hrun2.
    apply bind_ext; [done|]. intros group_handler w3 Hderive.
    pose proof (run_held _ _ _ _ (frames_derive_handler _ _) Hderive) as Hrun3.
    rewrite Hrun2 in Hrun3.
    apply derive_handler_Ok in Hderive as (_ & _ & Hhas).
    destruct (Hhas Hsafe) as [l' Hlock'].
    rewrite (lock_bind_run _ _ l') by done. rewrite ret_bind_run.
    rewrite with_granted, with_MockLock; [done | by apply Hgranted |].
    unfold find_well_meta_handler, write_well_meta. solve_frames.
  - intros Hstays.
    unfold atomic_remove_image, Plate.OmeZarrPlate_remove_image, Plate._remove_image.
    apply bind_ext; [done|]. intros well w1 Hwell.
    pose proof (run_held _ _ _ _ (frames_get_well _ _ _) Hwell) as Hheld.
    rewrite Hnone in Hheld.
    pose proof (get_well_Ok _ _ _ _ _ _ Hwell)
      as (_ & well_path & _ & _ & _ & Hderive & Hhandler & _).
    apply derive_handler_Ok in Hderive as (_ & _ & Hhas).
    destruct (Hhas Hsafe) as [l' Hlock'].
    assert (_lock (meta_group_handler (well_meta_handler well)) = Some l') as Hwell_lock
      by (by rewrite Hhandler).
    rewrite (lock_bind_run _ _ l') by done. rewrite ret_bind_run.
    match goal with
    | |- with_ _ ?well_lock _ _ = with_ _ MockLock ?plain _ =>
        trans (with_ acquires well_lock plain w1)
    end.
    + apply with_ext. intros files.
      apply bind_ext; [reflexivity|]. intros well_doc w2 Hmeta.
      apply well_meta_Ok in Hmeta as [-> Hdoc]. simpl in Hdoc.
      apply bind_ext; [reflexivity|]. intros well_doc' w3 Hremove.
      unfold lift in Hremove. injection Hremove as Hremove <-.
      apply bind_ext; [reflexivity|]. intros _ w4 _.
      apply bind_ext; [reflexivity|]. intros _ w5 _.
      rewrite bool_decide_false; [reflexivity|].
      intros Hlen%nil_length_inv. by eapply Hstays.
    + rewrite with_granted, with_MockLock; [done | by apply Hgranted |].
      unfold OmeZarrWell_meta, write_well_meta. solve_frames.
      apply frames_remove_well_plain.
Qed.

End plate.

(** The lock library in one process: a lock file is acquired when no lock
    holds it, and the lock on a file that is held is not acquired within the
    timeout. *)
Definition refuses_held : string → list string → bool :=
  λ file files, bool_decide (file ∉ files).

(** A plate in the directory [plate.zarr] with one well, [A/1], that holds
    one image, [0], or two, [0] and [1]; its handler is opened with or
    without [parallel_safe]. *)
Definition plate_handler (parallel_safe : bool) : ZarrGroupHandler :=
  mkZarrGroupHandler (mkGroup (store_DirectoryStore "plate.zarr") "" false false) "r+"
    (store_str "plate.zarr") false parallel_safe
    (if parallel_safe then Some "plate.zarr.lock" else None)
    (if parallel_safe then Some (mkFileLock "plate.zarr.lock" 10) else None)
    None.

Definition plate (parallel_safe : bool) : OmeZarrPlate :=
  mkOmeZarrPlate (plate_handler parallel_safe) (mkMetaHandler (plate_handler parallel_safe)).

Definition well_handler (parallel_safe : bool) : ZarrGroupHandler :=
  mkZarrGroupHandler (mkGroup (store_DirectoryStore "plate.zarr") "A/1" false false) "r+"
    (store_str "plate.zarr") false parallel_safe
    (if parallel_safe then Some "plate.zarr.lock" else None)
    (if parallel_safe then Some (mkFileLock "plate.zarr.lock" 10) else None)
    (Some (plate_handler parallel_safe)).

Definition well_A1 (parallel_safe : bool) : OmeZarrWell :=
  mkOmeZarrWell (well_handler parallel_safe) (mkMetaHandler (well_handler parallel_safe)).

Definition one_well_doc : NgioPlateMeta :=
  mkNgioPlateMeta {["A"]} {["1"]} ∅ [mkWellRef "A/1" "A" (column_int 1) None].

Definition one_image_doc : NgioWellMeta := mkNgioWellMeta [mkImageRef "0" None].

Definition one_image : Zarr :=
  mkZarr {[ "" := attrs_plate one_well_doc; "A/1" := attrs_well one_image_doc ]} [].

Definition two_images_doc : NgioWellMeta :=
  mkNgioWellMeta [mkImageRef "0" None; mkImageRef "1" None].

Definition two_images : Zarr :=
  mkZarr {[ "" := attrs_plate one_well_doc; "A/1" := attrs_well two_images_doc ]} [].

Lemma get_well_A1 parallel_safe :
  get_well ZarrUtilsTheory.open_existing (plate parallel_safe) "A" (column_int 1) one_image
  = (Ok (well_A1 parallel_safe), one_image).
Proof. by destruct parallel_safe; vm_compute. Qed.


Lemma remove_image_cascade_witness :
  (∃ plate_doc,
     _remove_image ZarrUtilsTheory.open_existing refuses_held (plate true)
       "A" (column_int 1) "0" false one_image
     = (Ok (),
        mkZarr {[ "" := attrs_plate plate_doc; "A/1" := attrs_well (mkNgioWellMeta []) ]} [])
     ∧ wells plate_doc = [])
  ∧ _remove_image ZarrUtilsTheory.open_existing refuses_held (plate true)
      "A" (column_int 1) "0" true one_image
    = (Raise (Timeout "plate.zarr.lock"),
       mkZarr {[ "" := attrs_plate one_well_doc; "A/1" := attrs_well (mkNgioWellMeta []) ]} []).
Proof.
  split.
  - destruct (remove_image_cascade ZarrUtilsTheory.open_existing refuses_held (plate true)
                "A" (column_int 1) "0" false one_image one_image (well_A1 true)
                (mkFileLock "plate.zarr.lock" 10) (mkFileLock "plate.zarr.lock" 10))
      as (plate_doc & well_doc & Hplate & Hwell & Hrun);
      [vm_compute; reflexivity | reflexivity | reflexivity | discriminate |].
    vm_compute in Hplate. injection Hplate as <-.
    vm_compute in Hwell. injection Hwell as <-.
    destruct Hrun as (_ & _ & Hrun & _).
    eexists. split; [rewrite Hrun; vm_compute; reflexivity | vm_compute; reflexivity].
  - destruct (remove_image_cascade ZarrUtilsTheory.open_existing refuses_held (plate true)
                "A" (column_int 1) "0" true one_image one_image (well_A1 true)
                (mkFileLock "plate.zarr.lock" 10) (mkFileLock "plate.zarr.lock" 10))
      as (plate_doc & well_doc & Hplate & Hwell & Hrun);
      [vm_compute; reflexivity | reflexivity | reflexivity
      | intros _; repeat split; vm_compute; reflexivity |].
    vm_compute in Hwell. injection Hwell as <-.
    destruct Hrun as (_ & _ & Hrun & _).
    rewrite Hrun. vm_compute. reflexivity.
Defined.

(** C9, as stated, fails: on a plate whose handler is not parallel safe the
    atomic variants raise before anything is written, while the plain
    variants write the documents. *)
Lemma atomic_variants_need_the_lock :
  atomic_remove_image ZarrUtilsTheory.open_existing refuses_held (plate false)
    "A" (column_int 1) "0" one_image
  = (Raise (NgioValueError handler_not_parallel_safe), one_image)
  ∧ atomic_add_image ZarrUtilsTheory.open_existing refuses_held (plate false)
      "A" (column_int 1) "1" None None one_image
    = (Raise (NgioValueError handler_not_parallel_safe), one_image)
  ∧ nodes one_image !! "A/1" = Some (attrs_well one_image_doc)
  ∧ (∃ w', OmeZarrPlate_remove_image ZarrUtilsTheory.open_existing refuses_held
             (plate false) "A" (column_int 1) "0" one_image = (Ok (), w')
           ∧ nodes w' !! "A/1" = Some (attrs_well (mkNgioWellMeta [])))
  ∧ (∃ w', OmeZarrPlate_add_image ZarrUtilsTheory.open_existing refuses_held
             (plate false) "A" (column_int 1) "1" None None one_image = (Ok (), w')
           ∧ nodes w' !! "A/1"
             = Some (attrs_well (mkNgioWellMeta [mkImageRef "0" None; mkImageRef "1" None]))).
Proof.
  split; [vm_compute; reflexivity|]. split; [vm_compute; reflexivity|].
  split; [vm_compute; reflexivity|].
  split; eexists; (split; [vm_compute; reflexivity|]); vm_compute; reflexivity.
Qed.

Lemma atomic_matches_plain_witness :
  atomic_add_image ZarrUtilsTheory.open_existing refuses_held (plate true)
    "A" (column_int 1) "2" None None two_images
  = OmeZarrPlate_add_image ZarrUtilsTheory.open_existing refuses_held (plate true)
      "A" (column_int 1) "2" None None two_images
  ∧ atomic_remove_image ZarrUtilsTheory.open_existing refuses_held (plate true)
      "A" (column_int 1) "0" two_images
    = OmeZarrPlate_remove_image ZarrUtilsTheory.open_existing refuses_held (plate true)
        "A" (column_int 1) "0" two_images
  ∧ OmeZarrPlate_add_image ZarrUtilsTheory.open_existing refuses_held (plate true)
      "A" (column_int 1) "2" None None two_images
    = (Ok (),
       mkZarr {[ "" := attrs_plate one_well_doc;
                 "A/1" := attrs_well (mkNgioWellMeta [mkImageRef "0" None;
                                                      mkImageRef "1" None;
                                                      mkImageRef "2" None]) ]} [])
  ∧ OmeZarrPlate_remove_image ZarrUtilsTheory.open_existing refuses_held (plate true)
      "A" (column_int 1) "0" two_images
    = (Ok (),
       mkZarr {[ "" := attrs_plate one_well_doc;
                 "A/1" := attrs_well (mkNgioWellMeta [mkImageRef "1" None]) ]} []).
Proof.
  destruct (atomic_matches_plain ZarrUtilsTheory.open_existing refuses_held (plate true)
              "A" (column_int 1) "2" None None "0" two_images) as [Hadd Hremove].
  - intros file files Hfree. by apply bool_decide_eq_true_2.
  - reflexivity.
  - eexists. reflexivity.
  - reflexivity.
  - split; [exact Hadd|]. split; [|split; vm_compute; reflexivity]. apply Hremove.
    intros well w1 well_doc well_doc' Hwell Hdoc Hremoved.
    vm_compute in Hwell. injection Hwell as <- <-.
    vm_compute in Hdoc. injection Hdoc as <-.
    vm_compute in Hremoved. injection Hremoved as <-.
    vm_compute. discriminate.
Defined.

End PlateTheory.

Module AxesProperties.
Import Axes AxesTheory.

(** *** Casting an axis *)

Lemma canonical_axis_cast_twice ax canonical_name :
  canonical_axis_cast (canonical_axis_cast ax canonical_name) canonical_name
  = canonical_axis_cast ax canonical_name.
Proof.
  unfold canonical_axis_cast.
  destruct (bool_decide (canonical_name = "t"));
    [|destruct (bool_decide (canonical_name = "c"));
      [|destruct (bool_decide (canonical_name ∈ ["z"; "y"; "x"]))]];
    by destruct ax as [name [[[]|[]]|] [[]|]].
Qed.

Lemma canonical_axis_cast_fixed ax canonical_name :
  axis_type ax = slot_type canonical_name →
  unit ax = slot_unit canonical_name (unit ax) →
  canonical_axis_cast ax canonical_name = ax.
Proof.
  unfold canonical_axis_cast, slot_type, slot_unit.
  destruct (bool_decide (canonical_name = "t"));
    [|destruct (bool_decide (canonical_name = "c"));
      [|destruct (bool_decide (canonical_name ∈ ["z"; "y"; "x"]))]];
    destruct ax as [name [[[]|[]]|] [[]|]]; simpl; intros Htype Hunit;
    try reflexivity; discriminate.
Qed.

(** Casting an axis for a name a second time changes nothing, and an axis
    that has the type of the slot and a unit of its family is returned as it
    is. *)
Theorem canonical_axis_cast_idempotent (ax : Axis) (canonical_name : string) :
  canonical_axis_cast (canonical_axis_cast ax canonical_name) canonical_name
  = canonical_axis_cast ax canonical_name
  ∧ (axis_type ax = slot_type canonical_name →
     unit ax = slot_unit canonical_name (unit ax) →
     canonical_axis_cast ax canonical_name = ax).
Proof. split; [apply canonical_axis_cast_twice | apply canonical_axis_cast_fixed]. Qed.

Lemma canonical_axis_cast_idempotent_witness :
  canonical_axis_cast (mkAxis "t" (Some (InTimeUnits TimeUnits_seconds)) (Some AxisType_time)) "t"
  = mkAxis "t" (Some (InTimeUnits TimeUnits_seconds)) (Some AxisType_time).
Proof.
  by apply (canonical_axis_cast_idempotent
              (mkAxis "t" (Some (InTimeUnits TimeUnits_seconds)) (Some AxisType_time)) "t").
Defined.

Lemma cast_at_idempotent index_mapping i ax :
  cast_at index_mapping i (cast_at index_mapping i ax) = cast_at index_mapping i ax.
Proof.
  unfold cast_at. destruct (first_slot index_mapping i canonical_axes_order); [|done].
  apply canonical_axis_cast_twice.
Qed.

(** The mapper built from the axes of a mapper, with the same setup and
    flags, is that mapper: the axes have been cast once and for all. *)
Theorem construction_idempotent (axes : list Axis) (axes_setup : option AxesSetup)
    (allow_non_canonical_axes strict_canonical_order : bool) (self : AxesMapper) :
  AxesMapper_init axes axes_setup allow_non_canonical_axes strict_canonical_order = Ok self →
  AxesMapper_init (on_disk_axes self) axes_setup allow_non_canonical_axes
    strict_canonical_order = Ok self.
Proof.
  intros Hinit. pose proof (AxesMapper_init_Ok _ _ _ _ _ Hinit) as Hself.
  set (s := default AxesSetup_default axes_setup) in *.
  pose proof (AxesMapper_init_spec axes axes_setup allow_non_canonical_axes
                strict_canonical_order) as Hspec.
  rewrite Hinit in Hspec. destruct Hspec as [Hvalid _]. fold s in Hvalid.
  assert (on_disk_name <$> on_disk_axes self = on_disk_name <$> axes) as Hnames.
  { rewrite Hself. apply constructed_names. }
  pose proof (AxesMapper_init_spec (on_disk_axes self) axes_setup allow_non_canonical_axes
                strict_canonical_order) as Hspec.
  destruct (AxesMapper_init (on_disk_axes self) _ _ _) as [self'|e].
  - destruct Hspec as [_ ->]. fold s. rewrite Hself at 2.
    unfold constructed. rewrite Hnames.
    assert (imap (cast_at (index_mapping_of
                             (_compute_name_mapping s (on_disk_name <$> axes))
                             (on_disk_name <$> axes))) (on_disk_axes self)
            = on_disk_axes self) as ->; [|by rewrite Hself].
    rewrite Hself. unfold on_disk_axes. simpl.
    apply list_eq. intros i. rewrite !list_lookup_imap.
    destruct (axes !! i); simpl; [|done]. by rewrite cast_at_idempotent.
  - destruct Hspec as [Hrefused _]. exfalso. apply Hvalid.
    by apply (refused_names (on_disk_axes self) axes).
Qed.

Lemma construction_idempotent_witness :
  AxesMapper_init (on_disk_axes mistyped_mapper) None false false = Ok mistyped_mapper.
Proof.
  apply (construction_idempotent mistyped_axes None false false mistyped_mapper).
  vm_compute; reflexivity.
Defined.

(** *** Reordering to any order *)

Lemma change_order_constructed axes axes_setup allow strict names indices insert :
  _change_order (constructed axes axes_setup allow strict) names = Ok (indices, insert) →
  is_permutation indices (length axes)
  ∧ well_placed insert (length axes)
  ∧ length indices + length insert = length names
  ∧ split_indices (constructed axes axes_setup allow strict) 0 names = Ok (indices, insert).
Proof.
  intros Horder.
  pose proof (change_order_Ok _ _ _ _ (constructed_coherent axes axes_setup allow strict)
                Horder) as [Hperm Hplaced].
  rewrite constructed_names, length_fmap in Hperm, Hplaced.
  split; [done|]. split; [done|].
  revert Horder. unfold _change_order.
  destruct (resolve_names _ names ∅) as [unique_names|e]; simpl; [|done].
  case_bool_decide; [done|]. intros Hsplit.
  split; [|done]. by apply split_indices_Ok in Hsplit as (_ & _ & _ & Hlen & _).
Qed.

(** The plan of [to_order] transposes by a permutation of all the on-disk
    positions and then inserts at increasing positions, one for each
    requested name that has no axis on disk; [from_order] of the same names
    squeezes these positions and transposes back by the sorting permutation
    of the indices. *)
Theorem to_order_plan (axes : list Axis) (axes_setup : option AxesSetup)
    (allow_non_canonical_axes strict_canonical_order : bool) (self : AxesMapper)
    (names : list string) (plan : list AxesTransformation) :
  AxesMapper_init axes axes_setup allow_non_canonical_axes strict_canonical_order = Ok self →
  to_order self names = Ok plan →
  ∃ indices insert,
    plan = [AxesTranspose indices; AxesExpand insert]
    ∧ from_order self names = Ok [AxesSqueeze insert; AxesTranspose (argsort indices)]
    ∧ length indices = length axes
    ∧ NoDup indices
    ∧ Forall (λ ax, ax < length axes) indices
    ∧ StronglySorted lt insert
    ∧ Forall (λ ax, ax < length names) insert
    ∧ length indices + length insert = length names.
Proof.
  intros ->%AxesMapper_init_Ok. unfold to_order, from_order.
  destruct (_change_order _ names) as [[indices insert]|e] eqn:Horder; [|done].
  simpl. intros [= <-]. exists indices, insert.
  apply change_order_constructed in Horder
    as ((Hlen & Hnodup & Hlt) & (Hsorted & Hbound) & Htotal & Hsplit).
  split_and!; try done.
  apply Forall_forall. intros p [k Hk]%list_elem_of_lookup.
  pose proof (Hbound k p Hk). apply lookup_lt_Some in Hk. lia.
Qed.

Lemma to_order_plan_witness :
  ∃ indices insert,
    three_axes_plan = [AxesTranspose indices; AxesExpand insert]
    ∧ from_order three_axes_mapper (_extended_canonical_order three_axes_mapper)
      = Ok [AxesSqueeze insert; AxesTranspose (argsort indices)]
    ∧ length indices = length three_axes
    ∧ NoDup indices
    ∧ Forall (λ ax, ax < length three_axes) indices
    ∧ StronglySorted lt insert
    ∧ Forall (λ ax, ax < length (_extended_canonical_order three_axes_mapper)) insert
    ∧ length indices + length insert = length (_extended_canonical_order three_axes_mapper).
Proof.
  apply (to_order_plan three_axes None false false three_axes_mapper
           (_extended_canonical_order three_axes_mapper) three_axes_plan);
    vm_compute; reflexivity.
Defined.

(** For any requested order for which [to_order] returns a plan,
    [from_order] returns one too, and applying the first and then the second
    gives back the list, for a list with one entry per axis, and the array,
    for an array with one dimension per axis. *)
Theorem order_round_trip (axes : list Axis) (axes_setup : option AxesSetup)
    (allow_non_canonical_axes strict_canonical_order : bool) (self : AxesMapper)
    (names : list string) (to_plan : list AxesTransformation) :
  AxesMapper_init axes axes_setup allow_non_canonical_axes strict_canonical_order = Ok self →
  to_order self names = Ok to_plan →
  ∃ from_plan,
    from_order self names = Ok from_plan
    ∧ (∀ (T : Type) (input_list : list T) (default : T),
         length input_list = length axes →
         ∃ ordered_list emptied,
           transform_list input_list default to_plan = Ok (input_list, ordered_list)
           ∧ transform_list ordered_list default from_plan = Ok (emptied, input_list))
    ∧ (∀ (T : Type) (array : ndarray T),
         ndim array = length axes →
         ∃ ordered_array back,
           transform_array array to_plan = Ok ordered_array
           ∧ transform_array ordered_array from_plan = Ok back
           ∧ shape back = shape array
           ∧ ∀ idx, length idx = ndim array → item back idx = item array idx).
Proof.
  intros ->%AxesMapper_init_Ok. unfold to_order, from_order.
  destruct (_change_order _ names) as [[indices insert]|e] eqn:Horder; [|done].
  simpl. intros [= <-].
  apply change_order_constructed in Horder as (Hperm & Hplaced & _).
  eexists. split; [reflexivity|]. split.
  - intros T input_list default Hlist.
    by apply (list_round_trip indices insert (length axes)).
  - intros T array Hndim.
    by apply (array_round_trip indices insert (length axes)).
Qed.

Definition three_axes_order : list string := ["x"; "t"; "c"; "y"].

Lemma order_round_trip_witness :
  ∃ from_plan,
    from_order three_axes_mapper three_axes_order = Ok from_plan
    ∧ ∃ ordered_list emptied,
        transform_list ["Y"; "C"; "X"] "-" [AxesTranspose [2; 1; 0]; AxesExpand [1]]
        = Ok (["Y"; "C"; "X"], ordered_list)
        ∧ transform_list ordered_list "-" from_plan = Ok (emptied, ["Y"; "C"; "X"]).
Proof.
  destruct (order_round_trip three_axes None false false three_axes_mapper
              three_axes_order [AxesTranspose [2; 1; 0]; AxesExpand [1]])
    as (from_plan & Hfrom & Hlist & _); [vm_compute; reflexivity..|].
  exists from_plan. split; [done|].
  by apply (Hlist string ["Y"; "C"; "X"] "-").
Defined.

(** *** Where the entries of a list go *)

(** The entry that the reordered list holds for a requested name: the entry
    of the axis of that name, or the default when no axis has it. *)
Definition entry_of {T} (self : AxesMapper) (input_list : list T) (default : T)
    (name : string) : T :=
  match _index_mapping self !! name with
  | Some (Some i) => from_option id default (input_list !! i)
  | _ => default
  end.

Lemma list_insert_at_length {T} (pre l : list T) d :
  list_insert_at (pre ++ l) (length pre) d = pre ++ d :: l.
Proof. unfold list_insert_at. by rewrite take_app_length, drop_app_length. Qed.

Lemma expand_split {T} self (l : list T) d names i indices insert ts pre :
  split_indices self i names = Ok (indices, insert) →
  for_each (getitem l) indices = Ok ts →
  length pre = i →
  expand_list d (pre ++ ts) insert = pre ++ (entry_of self l d <$> names).
Proof.
  revert i indices insert ts pre.
  induction names as [|name names IH]; intros i indices insert ts pre; simpl.
  - intros [= <- <-]. simpl. by intros [= <-].
  - unfold entry_of at 1.
    destruct (_index_mapping self !! name) as [idx|]; [|done]. simpl.
    destruct (split_indices self (S i) names) as [[indices' insert']|e] eqn:Hsplit;
      simpl; [|done].
    destruct idx as [k|]; intros [= <- <-].
    + simpl.
      change (getitem l k) with (match l !! k with
                                 | Some x => Ok x
                                 | None => (Raise IndexError : res T)
                                 end).
      destruct (l !! k) as [x|] eqn:Hk; simpl; [|done].
      destruct (for_each (getitem l) indices') as [ts'|] eqn:Hts; simpl; [|done].
      intros [= <-] Hpre.
      trans ((pre ++ [x]) ++ (entry_of self l d <$> names)); [|by rewrite <- app_assoc].
      rewrite (cons_middle x pre ts'), app_assoc.
      apply (IH (S i) indices' insert'); [done | done |].
      rewrite length_app. simpl. lia.
    + intros Hts Hpre. unfold expand_list. simpl. rewrite <- Hpre, list_insert_at_length.
      fold (expand_list d (pre ++ d :: ts) insert').
      trans ((pre ++ [d]) ++ (entry_of self l d <$> names)); [|by rewrite <- app_assoc].
      rewrite (cons_middle d pre ts), app_assoc.
      apply (IH (S i) indices' insert'); [done | done |].
      rewrite length_app. simpl. lia.
Qed.

(** Applying the plan of [to_order] to a list with one entry per axis gives
    a list with one entry per requested name, in the requested order: the
    entry of the axis that the name stands for, and the default for a name
    without an axis on disk; the list that was passed is left as it was. *)
Theorem to_order_places_entries (axes : list Axis) (axes_setup : option AxesSetup)
    (allow_non_canonical_axes strict_canonical_order : bool) (self : AxesMapper)
    (names : list string) (plan : list AxesTransformation)
    (T : Type) (input_list : list T) (default : T) :
  AxesMapper_init axes axes_setup allow_non_canonical_axes strict_canonical_order = Ok self →
  to_order self names = Ok plan →
  length input_list = length axes →
  ∃ ordered_list,
    transform_list input_list default plan = Ok (input_list, ordered_list)
    ∧ length ordered_list = length names
    ∧ ∀ j name, names !! j = Some name →
        (∀ i, get_index self name = Ok (Some i) → ordered_list !! j = input_list !! i)
        ∧ (get_index self name = Ok None → ordered_list !! j = Some default).
Proof.
  intros Hinit Hplan Hlen. pose proof (AxesMapper_init_Ok _ _ _ _ _ Hinit) as Hself.
  rewrite Hself in Hplan. unfold to_order in Hplan.
  destruct (_change_order _ names) as [[indices insert]|e] eqn:Horder; [|done].
  simpl in Hplan. injection Hplan as <-.
  apply change_order_constructed in Horder as ((_ & _ & Hlt) & _ & _ & Hsplit).
  rewrite <- Hself in Hsplit.
  destruct (for_each_getitem_Ok input_list indices) as [ts Hts]; [by rewrite Hlen|].
  pose proof (expand_split self input_list default names 0 indices insert ts []
                Hsplit Hts eq_refl) as Hexpand.
  simpl in Hexpand.
  exists (entry_of self input_list default <$> names).
  split; [|split].
  - unfold transform_list. simpl. rewrite Hts. simpl.
    by rewrite <- Hexpand.
  - apply length_fmap.
  - intros j name Hname. rewrite list_lookup_fmap, Hname. simpl.
    unfold get_index, entry_of.
    destruct (_index_mapping self !! name) as [[i|]|] eqn:Hkey.
    + split; [|done]. intros i' [= <-].
      assert (i < length input_list) as [x Hx]%lookup_lt_is_Some.
      { rewrite Hlen. pose proof (constructed_in_range axes
          (from_option id AxesSetup_default axes_setup) allow_non_canonical_axes
          strict_canonical_order) as Hrange.
        rewrite <- Hself in Hrange. apply Hrange in Hkey.
        rewrite Hself in Hkey. simpl in Hkey. by rewrite length_imap in Hkey. }
      by rewrite Hx.
    + split; [done|]. done.
    + split; done.
Qed.

Lemma to_order_places_entries_witness :
  ∃ ordered_list,
    transform_list ["Y"; "C"; "X"] "-" three_axes_plan = Ok (["Y"; "C"; "X"], ordered_list)
    ∧ length ordered_list = 5
    ∧ ordered_list !! 4 = Some "X"
    ∧ ordered_list !! 0 = Some "-".
Proof.
  destruct (to_order_places_entries three_axes None false false three_axes_mapper
              (_extended_canonical_order three_axes_mapper) three_axes_plan
              string ["Y"; "C"; "X"] "-")
    as (ordered_list & Hrun & Hlen & Hentries); [vm_compute; reflexivity..|].
  exists ordered_list. split; [done|]. split; [done|]. split.
  - destruct (Hentries 4 "x") as [Hx _]; [reflexivity|].
    rewrite (Hx 2); [done | vm_compute; reflexivity].
  - destruct (Hentries 0 "t") as [_ Ht]; [reflexivity|].
    apply Ht. vm_compute; reflexivity.
Defined.

(** *** What a plan does to the list it is given *)

Definition not_transpose (operation : AxesTransformation) : Prop :=
  match operation with
  | AxesTranspose _ => False
  | _ => True
  end.

Lemma transform_list_loop_unaliased {T} (d : T) cur caller ops caller_after returned :
  transform_list_loop d (false, cur) caller ops = Ok (caller_after, returned) →
  caller_after = caller.
Proof.
  revert cur. induction ops as [|op ops IH]; intros cur; simpl; [by intros [= <- _]|].
  destruct op as [axes|axes|axes]; simpl.
  - destruct (for_each (getitem cur) axes) as [new|]; simpl; [apply IH | done].
  - apply IH.
  - destruct (squeeze_list cur 0 axes) as [popped|]; simpl; [apply IH | done].
Qed.

Lemma transform_list_loop_aliased {T} (d : T) cur before rest caller_after returned :
  Forall not_transpose before →
  transform_list_loop d (true, cur) cur (before ++ rest) = Ok (caller_after, returned) →
  ∃ cur', transform_list_loop d (true, cur) cur before = Ok (cur', cur')
          ∧ transform_list_loop d (true, cur') cur' rest = Ok (caller_after, returned).
Proof.
  intros Hbefore. revert cur.
  induction Hbefore as [|op before Hop _ IH]; intros cur; simpl; [by eexists|].
  destruct op as [axes|axes|axes]; simpl; [done | apply IH |].
  destruct (squeeze_list cur 0 axes) as [popped|]; simpl; [apply IH | done].
Qed.

(** [transform_list] inserts into and removes from the very list it is
    given, until a transposition makes a new list: after the call, the
    caller's list is what the operations before the first transposition made
    of it, and it is the returned list when the plan has no transposition. *)
Theorem transform_list_changes_its_argument {T : Type} (input_list : list T) (default : T)
    (operations : list AxesTransformation) (caller_after returned : list T) :
  transform_list input_list default operations = Ok (caller_after, returned) →
  (Forall not_transpose operations → caller_after = returned)
  ∧ (∀ before axes rest,
       operations = before ++ AxesTranspose axes :: rest →
       Forall not_transpose before →
       transform_list input_list default before = Ok (caller_after, caller_after)).
Proof.
  unfold transform_list. intros Hrun. split.
  - intros Hnone. rewrite <- (app_nil_r operations) in Hrun.
    apply transform_list_loop_aliased in Hrun as (cur' & _ & Hrest); [|done].
    simpl in Hrest. by injection Hrest as <- <-.
  - intros before axes rest -> Hbefore.
    apply transform_list_loop_aliased in Hrun as (cur' & Hbefore' & Hrest); [|done].
    simpl in Hrest.
    destruct (for_each (getitem cur') axes) as [new|]; simpl in Hrest; [|done].
    apply transform_list_loop_unaliased in Hrest as ->. done.
Qed.

Lemma transform_list_changes_its_argument_witness :
  transform_list ["-"; "C"; "-"; "Y"; "X"] "-" [AxesSqueeze [0; 2]; AxesTranspose [1; 0; 2]]
  = Ok (["C"; "Y"; "X"], ["Y"; "C"; "X"])
  ∧ transform_list ["-"; "C"; "-"; "Y"; "X"] "-" [AxesSqueeze [0; 2]]
    = Ok (["C"; "Y"; "X"], ["C"; "Y"; "X"]).
Proof.
  assert (transform_list ["-"; "C"; "-"; "Y"; "X"] "-"
            [AxesSqueeze [0; 2]; AxesTranspose [1; 0; 2]]
          = Ok (["C"; "Y"; "X"], ["Y"; "C"; "X"])) as Hrun by (vm_compute; reflexivity).
  split; [done|].
  destruct (transform_list_changes_its_argument _ _ _ _ _ Hrun) as [_ Hbefore].
  apply (Hbefore [AxesSqueeze [0; 2]] [1; 0; 2] []); [reflexivity|].
  repeat constructor.
Defined.

(** *** When a reordering is refused *)

Lemma resolve_names_keys self names (unique_names unique_names' : gset string) :
  resolve_names self names unique_names = Ok unique_names' →
  Forall (λ name, is_Some (_index_mapping self !! name)) names.
Proof.
  revert unique_names. induction names as [|name names IH]; intros unique_names; simpl;
    [constructor|].
  case_bool_decide as Hkey; [done|].
  assert (is_Some (_index_mapping self !! name)) as Hsome.
  { by apply elem_of_dom. }
  destruct (mjoin (_name_mapping self !! name)) as [value|].
  - case_bool_decide; [done|]. intros Hrest. constructor; [done | by eapply IH].
  - intros Hrest. constructor; [done | by eapply IH].
Qed.

Lemma resolve_names_Raise self names (unique_names : gset string) e :
  resolve_names self names unique_names = Raise e →
  (∃ name, name ∈ names ∧ _index_mapping self !! name = None
           ∧ e = NgioValueError (invalid_axis_name name))
  ∨ (∃ value, value ∈ resolved self names
              ∧ (value ∈ unique_names ∨ ¬ NoDup (resolved self names))
              ∧ e = NgioValueError (duplicate_axis_name value)).
Proof.
  revert unique_names. induction names as [|name names IH]; intros unique_names; simpl;
    [done|].
  case_bool_decide as Hkey.
  { intros [= <-]. left. exists name. split; [left|]. split; [|done].
    by apply not_elem_of_dom. }
  unfold resolved. simpl.
  destruct (mjoin (_name_mapping self !! name)) as [value|].
  - case_bool_decide as Hseen.
    + intros [= <-]. right. exists value. split; [left|]. split; [by left | done].
    + intros [(n & Hn & Hnone & ->) | (v & Hv & Hdup & ->)]%IH.
      * left. exists n. split; [by right | done].
      * right. exists v. split; [by right|]. split; [|done].
        fold (resolved self names) in *.
        destruct Hdup as [[->%elem_of_singleton | Hu]%elem_of_union | Hnodup].
        -- right. rewrite NoDup_cons. by intros [Hnotin _].
        -- by left.
        -- right. rewrite NoDup_cons. by intros [_ Hnodup'].
  - intros [(n & Hn & Hnone & ->) | (v & Hv & Hdup & ->)]%IH.
    + left. exists n. split; [by right | done].
    + right. by exists v.
Qed.

(** [to_order] returns a plan exactly when every requested name is a key of
    the mapper, no two requested names stand for the same axis on disk, and
    every axis on disk is requested; otherwise it raises for a name that is
    no key, for an axis that is requested twice, or with the set of the
    axes that were not requested. *)
Theorem to_order_refusals (axes : list Axis) (axes_setup : option AxesSetup)
    (allow_non_canonical_axes strict_canonical_order : bool) (self : AxesMapper)
    (names : list string) :
  AxesMapper_init axes axes_setup allow_non_canonical_axes strict_canonical_order = Ok self →
  match to_order self names with
  | Ok _ =>
      Forall (λ name, is_Some (_index_mapping self !! name)) names
      ∧ NoDup (resolved self names)
      ∧ ∀ ax, ax ∈ on_disk_axes_names self → ax ∈ resolved self names
  | Raise e =>
      (∃ name, name ∈ names ∧ _index_mapping self !! name = None
               ∧ e = NgioValueError (invalid_axis_name name))
      ∨ (∃ value, value ∈ resolved self names ∧ ¬ NoDup (resolved self names)
                  ∧ e = NgioValueError (duplicate_axis_name value))
      ∨ (∃ missing : gset string,
           e = NgioValueError (axes_not_queried missing)
           ∧ missing ≠ ∅
           ∧ ∀ ax, ax ∈ missing ↔ ax ∈ on_disk_axes_names self ∧ ax ∉ resolved self names)
  end.
Proof.
  intros Hinit. pose proof (AxesMapper_init_Ok _ _ _ _ _ Hinit) as Hself.
  pose proof (AxesMapper_init_spec axes axes_setup allow_non_canonical_axes
                strict_canonical_order) as Hspec.
  rewrite Hinit in Hspec. destruct Hspec as [Hvalid _].
  assert (NoDup (on_disk_axes_names self)) as Hnodup.
  { rewrite Hself, constructed_names. apply dec_stable. intros Hdup. apply Hvalid. by left. }
  assert (coherent self) as [_ Hvalues] by (rewrite Hself; apply constructed_coherent).
  assert (∀ value, value ∈ resolved self names → value ∈ on_disk_axes_names self) as Hsub.
  { intros value (name & _ & Hvalue)%list_elem_of_omap.
    destruct (_name_mapping self !! name) as [[v|]|] eqn:Hname; simpl in Hvalue;
      try done.
    injection Hvalue as <-. by eapply Hvalues. }
  unfold to_order, _change_order.
  destruct (resolve_names self names ∅) as [unique_names|e] eqn:Hresolve; simpl.
  - pose proof (resolve_names_keys _ _ _ _ Hresolve) as Hkeys.
    apply resolve_names_Ok in Hresolve as (Hunique & _ & ->).
    rewrite union_empty_r_L, size_list_to_set by done.
    case_bool_decide as Hsize; simpl.
    + right; right. eexists. split; [done|].
      assert (∀ ax, ax ∈ (list_to_set (on_disk_axes_names self)
                          ∖ list_to_set (resolved self names) : gset string)
                    ↔ ax ∈ on_disk_axes_names self ∧ ax ∉ resolved self names) as Hmissing.
      { intros ax. by rewrite elem_of_difference, !elem_of_list_to_set. }
      split; [|done]. intros Hempty.
      assert (on_disk_axes_names self ⊆+ resolved self names) as Hle%submseteq_length; [|lia].
      apply NoDup_submseteq; [done|]. intros ax Hax.
      apply dec_stable. intros Hnot.
      assert (ax ∈ (∅ : gset string)) as []%not_elem_of_empty.
      rewrite <- Hempty. by apply Hmissing.
    + pose proof (split_indices_total self 0 names) as Htotal.
      destruct (split_indices self 0 names) as [[indices insert]|e]; simpl.
      * split; [done|]. split; [done|]. intros ax Hax.
        assert (resolved self names ≡ₚ on_disk_axes_names self) as Hperm;
          [|by rewrite Hperm].
        apply submseteq_length_Permutation; [by apply NoDup_submseteq | lia].
      * exfalso. assert (false = true) as [=]. apply Htotal.
        intros name Hname. by apply (proj1 (Forall_forall _ _) Hkeys).
  - apply resolve_names_Raise in Hresolve
      as [(name & Hname & Hnone & ->) | (value & Hvalue & [[]%not_elem_of_empty | Hdup] & ->)].
    + left. by exists name.
    + right; left. by exists value.
Qed.

Lemma to_order_refusals_witness :
  ∃ missing : gset string,
    to_order three_axes_mapper ["x"; "y"] = Raise (NgioValueError (axes_not_queried missing))
    ∧ ∀ ax, ax ∈ missing ↔ ax ∈ on_disk_axes_names three_axes_mapper
                            ∧ ax ∉ resolved three_axes_mapper ["x"; "y"].
Proof.
  pose proof (to_order_refusals three_axes None false false three_axes_mapper ["x"; "y"])
    as Hrefusals.
  assert (to_order three_axes_mapper ["x"; "y"]
          = Raise (NgioValueError (axes_not_queried {["c"]}))) as Hrun
    by (vm_compute; reflexivity).
  rewrite Hrun in Hrefusals.
  destruct Hrefusals
    as [(name & _ & _ & [=]) | [(value & _ & _ & [=]) | (missing & [= <-] & _ & Hmissing)]];
    [vm_compute; reflexivity|].
  exists {["c"]}. by split.
Defined.

(** *** The keys of an axis *)

Lemma configured_getattr axes_setup name :
  name ∈ configured_names axes_setup →
  ∃ key, key ∈ canonical_axes_order ∧ getattr axes_setup key = Some name.
Proof.
  unfold configured_names. rewrite !elem_of_cons, elem_of_nil.
  intros [-> | [-> | [-> | [-> | [-> | []]]]]];
    [exists "t" | exists "c" | exists "z" | exists "y" | exists "x"];
    (split; [compute_done | reflexivity]).
Qed.

Lemma get_index_Some_iff axes axes_setup allow strict key i ax :
  NoDup (on_disk_name <$> axes) →
  axes !! i = Some ax →
  get_index (constructed axes axes_setup allow strict) key = Ok (Some i) ↔
  match getattr axes_setup key with
  | Some configured => configured = on_disk_name ax
  | None => key = on_disk_name ax
  end.
Proof.
  intros Hnodup Hax.
  assert ((on_disk_name <$> axes) !! i = Some (on_disk_name ax)) as Hname
    by (by rewrite list_lookup_fmap, Hax).
  unfold get_index. simpl.
  rewrite index_mapping_lookup, name_mapping_lookup. unfold canonical_entry.
  destruct (getattr axes_setup key) as [configured|]; simpl.
  - case_bool_decide as Hin; simpl.
    + split.
      * destruct (index configured _) as [j|] eqn:Hj; simpl; [|done].
        intros [= ->]. apply index_Some in Hj. congruence.
      * intros ->. by rewrite (index_NoDup _ _ _ Hnodup Hname).
    + split; [done|]. intros ->. destruct Hin. by eapply list_elem_of_lookup_2.
  - case_bool_decide as Hin; simpl.
    + split.
      * destruct (index key _) as [j|] eqn:Hj; simpl; [|done].
        intros [= ->]. apply index_Some in Hj. congruence.
      * intros ->. by rewrite (index_NoDup _ _ _ Hnodup Hname).
    + split; [done|]. intros ->. destruct Hin. by eapply list_elem_of_lookup_2.
Qed.

(** An axis on disk answers to the canonical keys that the setup maps to
    its name, and to its own name unless that name is one of [t, c, z, y,
    x]; so it has a key exactly when its name is configured for a canonical
    key or is none of the five canonical keys.  An axis admitted through
    [others] whose name is a canonical key configured for another name has
    no key. *)
Theorem keys_of_an_axis (axes : list Axis) (axes_setup : option AxesSetup)
    (allow_non_canonical_axes strict_canonical_order : bool) (self : AxesMapper)
    (i : nat) (ax : Axis) :
  AxesMapper_init axes axes_setup allow_non_canonical_axes strict_canonical_order = Ok self →
  axes !! i = Some ax →
  (∀ key, get_index self key = Ok (Some i) ↔
          match getattr (from_option id AxesSetup_default axes_setup) key with
          | Some configured => configured = on_disk_name ax
          | None => key = on_disk_name ax
          end)
  ∧ ((∃ key, get_index self key = Ok (Some i)) ↔
     on_disk_name ax ∈ configured_names (from_option id AxesSetup_default axes_setup)
     ∨ on_disk_name ax ∉ canonical_axes_order).
Proof.
  intros Hinit Hax. pose proof (AxesMapper_init_Ok _ _ _ _ _ Hinit) as ->.
  set (s := from_option id AxesSetup_default axes_setup).
  pose proof (AxesMapper_init_spec axes axes_setup allow_non_canonical_axes
                strict_canonical_order) as Hspec.
  rewrite Hinit in Hspec. destruct Hspec as [Hvalid _].
  assert (NoDup (on_disk_name <$> axes)) as Hnodup.
  { apply dec_stable. intros Hdup. apply Hvalid. by left. }
  assert (∀ key, get_index (constructed axes s allow_non_canonical_axes
                              strict_canonical_order) key = Ok (Some i) ↔
                 match getattr s key with
                 | Some configured => configured = on_disk_name ax
                 | None => key = on_disk_name ax
                 end) as Hkeys by (intros key; by apply get_index_Some_iff).
  split; [done|]. split.
  - intros [key Hkey%Hkeys].
    destruct (getattr s key) as [configured|] eqn:Hget.
    + subst. left. by apply getattr_Some in Hget as [_ ?].
    + subst. right. intros Hcanonical.
      apply (getattr_canonical s) in Hcanonical as [v Hv]. congruence.
  - intros [(key & _ & Hget)%configured_getattr | Hother].
    + exists key. apply Hkeys. by rewrite Hget.
    + exists (on_disk_name ax). apply Hkeys.
      destruct (getattr s (on_disk_name ax)) as [v|] eqn:Hget; [|done].
      by apply getattr_Some in Hget as [? _].
Qed.

Definition renamed_setup : AxesSetup := mkAxesSetup "X" "y" "z" "c" "t" ["x"].
Definition renamed_axes : list Axis := [mkAxis "X" None None; mkAxis "x" None None].

Lemma keys_of_an_axis_witness :
  is_ok (AxesMapper_init renamed_axes (Some renamed_setup) true false) = true
  ∧ get_index (constructed renamed_axes renamed_setup true false) "x" = Ok (Some 0)
  ∧ ¬ ∃ key, get_index (constructed renamed_axes renamed_setup true false) key
             = Ok (Some 1).
Proof.
  assert (AxesMapper_init renamed_axes (Some renamed_setup) true false
          = Ok (constructed renamed_axes renamed_setup true false)) as Hinit
    by (vm_compute; reflexivity).
  split; [by rewrite Hinit|].
  destruct (keys_of_an_axis renamed_axes (Some renamed_setup) true false _ 0
              (mkAxis "X" None None) Hinit eq_refl) as [Hfirst _].
  destruct (keys_of_an_axis renamed_axes (Some renamed_setup) true false _ 1
              (mkAxis "x" None None) Hinit eq_refl) as [_ Hsecond].
  split; [by apply Hfirst|].
  intros [Hconfigured | Hother]%Hsecond.
  - vm_compute in Hconfigured.
    repeat (inversion Hconfigured as [|? ? ? Hrest]; clear Hconfigured;
            rename Hrest into Hconfigured).
  - apply Hother. compute_done.
Defined.

(** *** The shape of a reordered array *)

Lemma fill_positions_ext {A} (positions positions' : list nat) (d : A) ax n l :
  (∀ p, ax ≤ p < ax + n → p ∈ positions ↔ p ∈ positions') →
  fill_positions positions d ax n l = fill_positions positions' d ax n l.
Proof.
  revert ax l. induction n as [|n IH]; intros ax l Hsame; simpl; [done|].
  rewrite (bool_decide_ext (ax ∈ positions) (ax ∈ positions')) by (apply Hsame; lia).
  case_bool_decide.
  - f_equal. apply IH. intros p Hp. apply Hsame. lia.
  - destruct l as [|x l]; [done|]. f_equal. apply IH. intros p Hp. apply Hsame. lia.
Qed.

Lemma fill_split {T} self (l : list T) d names i indices insert ts :
  split_indices self i names = Ok (indices, insert) →
  for_each (getitem l) indices = Ok ts →
  fill_positions insert d i (length names) ts = entry_of self l d <$> names.
Proof.
  revert i indices insert ts.
  induction names as [|name names IH]; intros i indices insert ts; simpl; [done|].
  unfold entry_of at 1.
  destruct (_index_mapping self !! name) as [idx|]; [|done]. simpl.
  destruct (split_indices self (S i) names) as [[indices' insert']|e] eqn:Hsplit;
    simpl; [|done].
  pose proof (split_indices_Ok _ _ _ _ _ Hsplit) as (_ & _ & Hfrom & _).
  assert (i ∉ insert') as Hfresh.
  { intros Hin. apply (proj1 (Forall_forall _ _) Hfrom) in Hin. lia. }
  destruct idx as [k|]; intros [= <- <-].
  - simpl.
    change (getitem l k) with (match l !! k with
                               | Some x => Ok x
                               | None => (Raise IndexError : res T)
                               end).
    destruct (l !! k) as [x|] eqn:Hk; simpl; [|done].
    destruct (for_each (getitem l) indices') as [ts'|] eqn:Hts; simpl; [|done].
    intros [= <-]. rewrite bool_decide_false by done. f_equal.
    by apply (IH (S i) indices' insert').
  - intros Hts. rewrite bool_decide_true by left. f_equal.
    rewrite (fill_positions_ext (i :: insert') insert').
    + by apply (IH (S i) indices' insert').
    + intros p Hp. rewrite elem_of_cons. split; [|by right]. intros [-> | ?]; [lia | done].
Qed.

Lemma for_each_getitem_total (l : list nat) axes ts :
  for_each (getitem l) axes = Ok ts → ts = (λ ax, l !!! ax) <$> axes.
Proof.
  intros Hall%for_each_getitem_lookup.
  induction Hall as [|ax x axes ts Hx _ IH]; [done|].
  simpl. by rewrite (list_lookup_total_correct _ _ _ Hx), IH.
Qed.

(** Applying the plan of [to_order] to an array with one dimension per axis
    gives an array with one dimension per requested name, in the requested
    order: the dimension of the axis that the name stands for, and a
    dimension of length one for a name without an axis on disk. *)
Theorem to_order_shapes_array (axes : list Axis) (axes_setup : option AxesSetup)
    (allow_non_canonical_axes strict_canonical_order : bool) (self : AxesMapper)
    (names : list string) (plan : list AxesTransformation)
    (T : Type) (array : ndarray T) :
  AxesMapper_init axes axes_setup allow_non_canonical_axes strict_canonical_order = Ok self →
  to_order self names = Ok plan →
  ndim array = length axes →
  ∃ ordered_array,
    transform_array array plan = Ok ordered_array
    ∧ ndim ordered_array = length names
    ∧ ∀ j name, names !! j = Some name →
        (∀ i, get_index self name = Ok (Some i) →
              shape ordered_array !! j = shape array !! i)
        ∧ (get_index self name = Ok None → shape ordered_array !! j = Some 1).
Proof.
  intros Hinit Hplan Hndim. pose proof (AxesMapper_init_Ok _ _ _ _ _ Hinit) as Hself.
  rewrite Hself in Hplan. unfold to_order in Hplan.
  destruct (_change_order _ names) as [[indices insert]|e] eqn:Horder; [|done].
  simpl in Hplan. injection Hplan as <-.
  apply change_order_constructed in Horder as (Hperm & Hplaced & Htotal & Hsplit).
  rewrite <- Hself in Hsplit.
  pose proof Hperm as (Hlen & _ & Hlt).
  destruct (for_each_getitem_Ok (shape array) indices) as [ts Hts].
  { unfold ndim in Hndim. by rewrite Hndim. }
  pose proof (fill_split self (shape array) 1 names 0 indices insert ts Hsplit Hts)
    as Hfill.
  apply for_each_getitem_total in Hts as ->.
  assert (shape_is : ∃ ordered_array,
            transform_array array [AxesTranspose indices; AxesExpand insert]
            = Ok ordered_array
            ∧ shape ordered_array = entry_of self (shape array) 1 <$> names).
  { simpl. rewrite np_transpose_Ok by (by rewrite Hndim). simpl.
    unfold np_expand_dims. unfold ndim at 1 2. simpl.
    rewrite length_fmap, Hlen.
    rewrite (well_placed_normalized insert (length axes) Hplaced). simpl.
    eexists. split; [reflexivity|]. simpl.
    unfold ndim. simpl. rewrite length_fmap, Hlen.
    replace (length insert + length axes) with (length names) by lia. done. }
  destruct shape_is as (ordered_array & Hrun & Hshape).
  exists ordered_array. split; [done|]. split.
  - unfold ndim. by rewrite Hshape, length_fmap.
  - intros j name Hname. rewrite Hshape, list_lookup_fmap, Hname. simpl.
    unfold get_index, entry_of.
    destruct (_index_mapping self !! name) as [[i|]|] eqn:Hkey.
    + split; [|done]. intros i' [= <-].
      assert (i < length (shape array)) as [x Hx]%lookup_lt_is_Some.
      { fold (ndim array). rewrite Hndim.
        pose proof (constructed_in_range axes
          (from_option id AxesSetup_default axes_setup) allow_non_canonical_axes
          strict_canonical_order) as Hrange.
        rewrite <- Hself in Hrange. apply Hrange in Hkey.
        rewrite Hself in Hkey. simpl in Hkey. by rewrite length_imap in Hkey. }
      by rewrite Hx.
    + by split.
    + by split.
Qed.

Definition small_array : ndarray nat := mk_ndarray [4; 3; 5] (λ idx, sum_list idx).

Lemma to_order_shapes_array_witness :
  ∃ ordered_array,
    transform_array small_array three_axes_plan = Ok ordered_array
    ∧ ndim ordered_array = 5
    ∧ shape ordered_array !! 3 = Some 4
    ∧ shape ordered_array !! 0 = Some 1.
Proof.
  destruct (to_order_shapes_array three_axes None false false three_axes_mapper
              (_extended_canonical_order three_axes_mapper) three_axes_plan
              nat small_array)
    as (ordered_array & Hrun & Hdims & Hshape); [vm_compute; reflexivity..|].
  exists ordered_array. split; [done|]. split; [done|]. split.
  - destruct (Hshape 3 "y") as [Hy _]; [reflexivity|].
    rewrite (Hy 0); [done | vm_compute; reflexivity].
  - destruct (Hshape 0 "t") as [_ Ht]; [reflexivity|].
    apply Ht. vm_compute; reflexivity.
Defined.

End AxesProperties.

Module HandlersProperties.
Import Handlers HandlersTheory.

Section manager.
Context {Store Handler Meta ValidationError E : Type}.
Variable safe_load_meta : Handler → Meta + ValidationError.
Implicit Types (self items : list (string * @HandlerClass Store Handler E)).

Lemma setitem_elem_of self key (handler : @HandlerClass Store Handler E) k h :
NoDup (keys self) →
(k, h) ∈ setitem self key handler ↔
(k = key ∧ h = handler) ∨ (k ≠ key ∧ (k, h) ∈ self).
Proof.
induction self as [|[k' h'] self IH]; simpl; intros Hnodup.
- rewrite list_elem_of_singleton, elem_of_nil. naive_solver.
- apply NoDup_cons in Hnodup as [Hnotin Hnodup].
  case_bool_decide as Hk; [subst k'|]; rewrite !elem_of_cons.
  + split.
    * intros [[= -> ->] | Hin]; [by left|]. right. split; [|by right].
      intros ->. apply Hnotin. by apply (list_elem_of_fmap_2 fst) in Hin.
    * intros [[-> ->] | [Hne [[= -> ->] | Hin]]]; [by left | done | by right].
  + rewrite IH by done. naive_solver.
Qed.

(** [add_handler] refuses a key that is registered unless [overwrite] is
  set, and then nothing is registered; otherwise the key is bound to the
  handler, the other bindings stay, a new key comes last in the order of
  registration and a key that is overwritten keeps its place, so that the
  keys stay pairwise distinct. *)
Theorem add_handler_registers self (key : string)
  (handler : @HandlerClass Store Handler E) (overwrite : bool) :
NoDup (keys self) →
match add_handler self key handler overwrite
      return Prop with
| Raise e =>
    key ∈ keys self ∧ overwrite = false ∧ e = (NgioValueError key : @exn ValidationError E)
| Ok self' =>
    (key ∉ keys self ∨ overwrite = true)
    ∧ NoDup (keys self')
    ∧ keys self' = (if bool_decide (key ∈ keys self) then keys self else keys self ++ [key])
    ∧ ∀ k h, (k, h) ∈ self' ↔ (k = key ∧ h = handler) ∨ (k ≠ key ∧ (k, h) ∈ self)
end.
Proof.
intros Hnodup. unfold add_handler.
destruct (decide (key ∈ keys self)) as [Hin|Hout].
- rewrite (bool_decide_true _ Hin). destruct overwrite; simpl; [|done].
  split; [by right|]. rewrite setitem_keys by done.
  split; [done|]. split; [done|]. intros k h. by apply setitem_elem_of.
- rewrite (bool_decide_false _ Hout). simpl.
  split; [by left|]. rewrite setitem_fresh by done.
  unfold keys. rewrite fmap_app. simpl.
  split; [|split; [done|]].
  + apply NoDup_app. split; [done|]. split; [|apply NoDup_singleton].
    intros k Hk ->%list_elem_of_singleton. done.
  + intros k h. rewrite <- (setitem_fresh self key handler) by done.
    by apply setitem_elem_of.
Qed.

(** The loop raises [NgioValidationError] itself and lets the exceptions of
  the constructors through; [NgioValueError key], the error of
  [add_handler] for a registered key, is not among what it raises
  itself. *)
Lemma get_handler_loop_result items (store : Store) (cache : bool) (mode : string)
  (_errors : gmap string ValidationError) :
match get_handler_loop safe_load_meta items store cache mode _errors with
| Ok instance =>
    ∃ tried version handler rest,
      items = tried ++ (version, handler) :: rest
      ∧ Forall (λ item, ∃ err, rejected safe_load_meta store cache mode item.2 err) tried
      ∧ accepted safe_load_meta store cache mode handler instance
| Raise (NgioValidationError collected_errors) =>
    ∃ errors,
      Forall2 (λ item err, rejected safe_load_meta store cache mode item.2 err) items errors
      ∧ collected_errors = collected _errors items.*1 errors
| Raise (Propagated e) =>
    ∃ tried version handler rest,
      items = tried ++ (version, handler) :: rest
      ∧ Forall (λ item, ∃ err, rejected safe_load_meta store cache mode item.2 err) tried
      ∧ handler store cache mode = Raise e
| Raise (NgioValueError _) => False
end.
Proof.
revert _errors. induction items as [|[version handler] items IH]; intros _errors; simpl.
- exists []. split; [constructor | done].
- destruct (handler store cache mode) as [instance|e] eqn:Hbuilt.
  + destruct (safe_load_meta instance) as [meta|err] eqn:Hmeta.
    * exists [], version, handler, items. split; [done|]. split; [constructor|].
      split; [done | by exists meta].
    * specialize (IH (<[version:=err]> _errors)).
      assert (rejected safe_load_meta store cache mode handler err) as Hrejected
        by (by exists instance).
      destruct (get_handler_loop _ items _ _ _ _) as [inst|[errs|key|e]].
      -- destruct IH as (tried & v & h & rest & -> & Htried & Hacc).
         exists ((version, handler) :: tried), v, h, rest.
         split; [done|]. split; [|done]. constructor; [by exists err | done].
      -- destruct IH as (errors & Hall & ->).
         exists (err :: errors). split; [by constructor | done].
      -- done.
      -- destruct IH as (tried & v & h & rest & -> & Htried & Hraise).
         exists ((version, handler) :: tried), v, h, rest.
         split; [done|]. split; [|done]. constructor; [by exists err | done].
  + exists [], version, handler, items. split; [done|]. split; [constructor | done].
Qed.

(** [get_handler] ends in one of three ways.  It returns the handler of a
  version that accepts the store, every version registered after it
  rejecting the store.  Or it lets through the exception that the
  constructor of a version raised, whatever that exception is, every
  version registered after it rejecting the store.  Or every version
  rejects the store, and it raises the validation error whose dictionary
  has exactly the registered versions as its keys. *)
Theorem get_handler_result self (store : Store) (cache : bool) (mode : string) :
(∃ older version handler newer,
   self = older ++ (version, handler) :: newer
   ∧ Forall (λ item, ∃ err, rejected safe_load_meta store cache mode item.2 err) newer
   ∧ ((∃ instance,
         accepted safe_load_meta store cache mode handler instance
         ∧ get_handler safe_load_meta self store cache mode = Ok instance)
      ∨ (∃ e,
           handler store cache mode = Raise e
           ∧ get_handler safe_load_meta self store cache mode = Raise (Propagated e))))
∨ (Forall (λ item, ∃ err, rejected safe_load_meta store cache mode item.2 err) self
   ∧ ∃ _errors,
       get_handler safe_load_meta self store cache mode
       = Raise (NgioValidationError _errors)
       ∧ dom _errors = list_to_set (keys self)).
Proof.
unfold get_handler.
pose proof (get_handler_loop_result (reverse self) store cache mode ∅) as Hloop.
destruct (get_handler_loop _ (reverse self) _ _ _ _) as [inst|[errs|key|e]]; [| |done|].
- destruct Hloop as (tried & v & h & rest & Hitems & Htried & Hacc).
  left. exists (reverse rest), v, h, (reverse tried).
  split; [|split; [by apply Forall_reverse | left; by exists inst]].
  rewrite <- (reverse_involutive self), Hitems, reverse_app, reverse_cons, <- app_assoc.
  done.
- destruct Hloop as (errors & Hall & ->). right. split.
  + apply Forall_forall. intros item Hitem.
    apply elem_of_reverse, list_elem_of_lookup in Hitem as [i Hi].
    destruct (Forall2_lookup_l _ _ _ _ _ Hall Hi) as (err & _ & Hrej). by exists err.
  + eexists. split; [done|].
    rewrite collected_dom
      by (rewrite length_fmap; by apply Forall2_length in Hall).
    rewrite dom_empty_L, union_empty_r_L, fmap_reverse.
    apply set_eq. intros version. rewrite !elem_of_list_to_set. apply elem_of_reverse.
- destruct Hloop as (tried & v & h & rest & Hitems & Htried & Hraise).
  left. exists (reverse rest), v, h, (reverse tried).
  split; [|split; [by apply Forall_reverse | right; by exists e]].
  rewrite <- (reverse_involutive self), Hitems, reverse_app, reverse_cons, <- app_assoc.
  done.
Qed.

End manager.

Lemma add_handler_registers_witness :
  ∃ self', add_handler two_versions "0.4" (versioned "0.3") true
           = (Ok self' : result (@exn string Empty_set) _)
           ∧ keys self' = ["0.4"; "0.5"].
Proof.
  pose proof (add_handler_registers (ValidationError := string) two_versions "0.4"
                (versioned "0.3") true) as Hadd.
  destruct (add_handler two_versions "0.4" (versioned "0.3") true) as [self'|e] eqn:Hrun.
  - destruct Hadd as (_ & _ & Hkeys & _).
    + unfold two_versions. simpl. repeat constructor; set_solver.
    + exists self'. split; [done|]. rewrite Hkeys. reflexivity.
  - vm_compute in Hrun. discriminate Hrun.
Defined.

End HandlersProperties.

Module ZarrUtilsProperties.
Import ZarrUtils ZarrUtilsTheory.

Section init.
Variable zarr_open_group : Store → string → string → result zarr_error Group.

(** A handler that [__init__] has built keeps the mode, the cache flag, the
  parallel-safe flag and the parent it was given, on the group and the
  store that [open_group_wrapper] returned, with the cache flag set on the
  attributes of the group; the mode is a supported one and the cache and
  [parallel_safe] are not both set.  It has a lock exactly when it is
  parallel safe: then its store is a path and the lock is on the file
  named after it, otherwise the property [lock] raises. *)
Theorem init_builds (store : StoreOrGroup) (cache : bool) (mode : string)
  (parallel_safe : bool) (parent : option ZarrGroupHandler) (self : ZarrGroupHandler) :
ZarrGroupHandler_init zarr_open_group store cache mode parallel_safe parent = Ok self →
mode ∈ supported_modes
∧ cache && parallel_safe = false
∧ _mode self = mode
∧ use_cache self = cache
∧ _parallel_safe self = parallel_safe
∧ _parent self = parent
∧ (∃ group, open_group_wrapper zarr_open_group store mode = Ok (group, _store self)
            ∧ _group self = set_attrs_cache group cache)
∧ (if parallel_safe then
     ∃ path, isinstance_str_or_Path (_store self) = Some path
             ∧ _lock_path self = Some (path +:+ ".lock")
             ∧ lock self = Ok (mkFileLock (path +:+ ".lock") 10)
   else
     _lock_path self = None
     ∧ lock self = Raise (NgioValueError handler_not_parallel_safe)).
Proof.
unfold ZarrGroupHandler_init. case_bool_decide as Hmode; [done|].
assert (mode ∈ supported_modes) as Hsupported by exact Hmode.
destruct parallel_safe, cache; simpl; try done;
  destruct (open_group_wrapper _ store mode) as [[group _store]|e]; simpl; try done.
- destruct (isinstance_str_or_Path _store) as [path|] eqn:Hpath; [|done].
  intros [= <-]. simpl. split_and!; try done; [by exists group | by exists path].
- intros [= <-]. simpl. split_and!; try done. by exists group.
- intros [= <-]. simpl. split_and!; try done. by exists group.
Qed.

End init.

Lemma init_builds_witness :
  ∃ self,
    ZarrGroupHandler_init open_existing (a_store (store_str "plate.zarr")) false "r+" true None
    = Ok self
    ∧ lock self = Ok (mkFileLock "plate.zarr.lock" 10).
Proof.
  eexists. split; [vm_compute; reflexivity|].
  destruct (init_builds open_existing (a_store (store_str "plate.zarr")) false "r+" true None
              _ eq_refl) as (_ & _ & _ & _ & _ & _ & _ & path & Hpath & _ & Hlock).
  injection Hpath as <-. exact Hlock.
Defined.

End ZarrUtilsProperties.
Module ZarrCacheProperties.
Import ZarrUtils ZarrCache.

(** The state after another writer has replaced the attributes of the
    group in the store. *)
Definition with_attrs (attrs : gmap string string) (st : state) : state :=
  mkState (_cache st) (_cached_asdict st) attrs (group_members st).

(** The dictionary that the attributes of the group keep, if they keep one
    and [cache] is set on them, is what the store holds. *)
Definition coherent (self : ZarrGroupHandler) (st : state) : Prop :=
  attrs_cache (_group self) = true →
  ∀ d, _cached_asdict st = Some d → d = group_attrs st.

(** A function gives the first key of a dictionary when its result is a key
    of the dictionary, and is none for the empty dictionary only. *)
Definition gives_first_key (first_key : gmap string string → option string) : Prop :=
  ∀ d, match first_key d with
       | Some key => key ∈ dom d
       | None => d = ∅
       end.

Lemma asdict_result self st :
  (asdict self st).1
  = (if attrs_cache (_group self) then from_option id (group_attrs st) (_cached_asdict st)
     else group_attrs st)
  ∧ _cache (asdict self st).2 = _cache st
  ∧ group_attrs (asdict self st).2 = group_attrs st
  ∧ group_members (asdict self st).2 = group_members st
  ∧ (attrs_cache (_group self) = true →
     _cached_asdict (asdict self st).2 = Some (asdict self st).1).
Proof.
  unfold asdict. destruct (attrs_cache (_group self)); [|done].
  destruct (_cached_asdict st) as [d|] eqn:Hd; simpl; by rewrite ?Hd.
Qed.

Lemma asdict_coherent self st :
  coherent self st →
  (asdict self st).1 = group_attrs st ∧ coherent self (asdict self st).2.
Proof.
  unfold coherent, asdict. intros Hcoherent.
  destruct (attrs_cache (_group self)); [|done].
  destruct (_cached_asdict st) as [d|] eqn:Hd; simpl.
  - split; [by apply Hcoherent|]. intros _ d' Hd'. rewrite Hd in Hd'.
    simplify_eq. by apply Hcoherent.
  - split; [done|]. by intros _ d' [= <-].
Qed.

Lemma load_attrs_cached self st :
  use_cache self = true →
  _cache (load_attrs self st).2 !! "attrs" = Some (Some (a_dict (load_attrs self st).1)).
Proof.
  intros Hcache. unfold load_attrs, get_from_cache, add_to_cache. rewrite Hcache. simpl.
  pose proof (asdict_result self st) as (_ & Hsame & _).
  destruct (asdict self st) as [attrs st1]. simpl in *.
  destruct (_cache st !! "attrs") as [[[d|g|p]|]|] eqn:Hattrs; simpl;
    by rewrite ?lookup_insert_eq.
Qed.

Section order.
Variable first_key : gmap string string → option string.
Hypothesis Hfirst : gives_first_key first_key.

Lemma popitem_coherent self st :
  coherent self st →
  match popitem first_key self st with
  | (true, st') =>
      size (group_attrs st') < size (group_attrs st)
      ∧ coherent self st'
      ∧ _cache st' = _cache st
      ∧ group_members st' = group_members st
  | (false, st') =>
      group_attrs st' = ∅
      ∧ coherent self st'
      ∧ _cache st' = _cache st
      ∧ group_members st' = group_members st
  end.
Proof using Hfirst.
  intros Hcoherent. unfold popitem.
  pose proof (asdict_coherent self st Hcoherent) as [Hd Hcoherent1].
  pose proof (asdict_result self st) as (_ & Hcache & Hstore & Hmembers & _).
  destruct (asdict self st) as [d st1]. simpl in *. subst d.
  pose proof (Hfirst (group_attrs st)) as Hkey.
  destruct (first_key (group_attrs st)) as [key|].
  - apply elem_of_dom in Hkey as [value Hvalue]. rewrite Hvalue.
    rewrite bool_decide_true by (rewrite Hstore; apply elem_of_dom; by eexists).
    simpl. rewrite Hstore. split; [|split; [|done]].
    + rewrite map_size_delete, Hvalue.
      assert (size (group_attrs st) ≠ 0); [|lia].
      intros Hempty%map_size_empty_inv. by rewrite Hempty, lookup_empty in Hvalue.
    + unfold coherent. simpl. intros -> d [= <-]. done.
  - by rewrite Hstore, Hkey.
Qed.

Lemma clear_loop_coherent rounds self st :
  coherent self st →
  size (group_attrs st) < rounds →
  group_attrs (clear_loop first_key rounds self st) = ∅
  ∧ coherent self (clear_loop first_key rounds self st)
  ∧ _cache (clear_loop first_key rounds self st) = _cache st
  ∧ group_members (clear_loop first_key rounds self st) = group_members st.
Proof using Hfirst.
  revert st. induction rounds as [|rounds IH]; intros st Hcoherent Hsize; [lia|].
  simpl. pose proof (popitem_coherent self st Hcoherent) as Hpop.
  destruct (popitem first_key self st) as [[] st'].
  - destruct Hpop as (Hless & Hcoherent' & Hcache & Hmembers).
    destruct (IH st' Hcoherent') as (? & ? & ? & ?); [lia|].
    split_and!; [done | done | congruence | congruence].
  - done.
Qed.
End order.

(** The rounds that [clear] allows are enough: with more of them the result
    is the same. *)
Lemma clear_loop_rounds first_key self rounds rounds' st :
  size (group_attrs st) < rounds →
  size (group_attrs st) < rounds' →
  clear_loop first_key rounds self st = clear_loop first_key rounds' self st.
Proof.
  revert rounds' st. induction rounds as [|rounds IH]; intros [|rounds'] st; try lia.
  intros Hsize Hsize'. simpl.
  destruct (popitem first_key self st) as [[] st'] eqn:Hpop; [|done].
  apply IH.
  all: revert Hpop; unfold popitem;
    pose proof (asdict_result self st) as (_ & _ & Hstore & _);
    destruct (asdict self st) as [d st1]; simpl in *;
    destruct (first_key d) as [key|]; [|done];
    destruct (d !! key); [|done];
    case_bool_decide as Hkey; [|done]; intros [= <-]; simpl;
    rewrite Hstore in *;
    apply elem_of_dom in Hkey as [value Hvalue];
    rewrite map_size_delete, Hvalue;
    assert (size (group_attrs st) ≠ 0)
      by (intros Hempty%map_size_empty_inv; by rewrite Hempty, lookup_empty in Hvalue);
    lia.
Qed.

(** Writing the attributes fails exactly on a read-only group, where it
    raises before it writes.  Otherwise, when the dictionary that the
    attributes of the group keep is what the store holds, the store holds
    the new attributes afterwards, over the old ones unless [overwrite] is
    set, the members of the group are untouched, and the next [load_attrs]
    returns what the store holds, with or without the caches and whatever
    the dictionary of the handler held. *)
Theorem write_attrs_then_load (first_key : gmap string string → option string)
    (self : ZarrGroupHandler) (attrs : gmap string string) (overwrite : bool) (st : state) :
  gives_first_key first_key →
  coherent self st →
  match write_attrs first_key self attrs overwrite st with
  | Raise e => _read_only (_group self) = true ∧ e = NgioValueError group_read_only_metadata
  | Ok st' =>
      _read_only (_group self) = false
      ∧ group_attrs st' = attrs ∪ (if overwrite then ∅ else group_attrs st)
      ∧ group_members st' = group_members st
      ∧ (load_attrs self st').1 = group_attrs st'
  end.
Proof.
  intros Hfirst Hcoherent. unfold write_attrs, _write_attrs.
  destruct (_read_only (_group self)); [done|].
  split; [done|].
  set (st0 := add_to_cache self "attrs" None st).
  assert (coherent self st0 ∧ group_attrs st0 = group_attrs st
          ∧ group_members st0 = group_members st
          ∧ get_from_cache self "attrs" st0 = None) as (Hcoherent0 & Hstore0 & Hmembers0 & Hmiss0).
  { unfold st0, add_to_cache, get_from_cache, coherent in *.
    destruct (use_cache self); simpl; [|done].
    by rewrite lookup_insert_eq. }
  set (st1 := if overwrite then clear first_key self st0 else st0).
  assert (group_attrs st1 = (if overwrite then ∅ else group_attrs st)
          ∧ group_members st1 = group_members st
          ∧ get_from_cache self "attrs" st1 = None) as (Hstore1 & Hmembers1 & Hmiss1).
  { unfold st1. destruct overwrite; [|done].
    destruct (clear_loop_coherent first_key Hfirst (S (size (group_attrs st0))) self st0)
      as (Hempty & _ & Hcache & Hmembers); [done | lia |].
    fold (clear first_key self st0) in Hempty, Hcache, Hmembers.
    split; [done|]. split; [congruence|].
    unfold get_from_cache in *. by rewrite Hcache. }
  unfold update. simpl. rewrite Hstore1, Hmembers1. split; [done|]. split; [done|].
  unfold load_attrs.
  assert (get_from_cache self "attrs"
            (_put_nosync self (attrs ∪ (if overwrite then ∅ else group_attrs st)) st1)
          = None) as ->.
  { revert Hmiss1. unfold get_from_cache. by destruct (negb (use_cache self)). }
  unfold asdict, _put_nosync, add_to_cache. simpl.
  destruct (attrs_cache (_group self)); simpl; by destruct (negb (use_cache self)).
Qed.

Definition least_key (d : gmap string string) : option string :=
  fst <$> head (map_to_list d).

Lemma least_key_first : gives_first_key least_key.
Proof.
  intros d. unfold least_key.
  destruct (map_to_list d) as [|[key value] rest] eqn:Hlist; simpl.
  - by apply map_to_list_empty_iff.
  - apply elem_of_dom. exists value. apply elem_of_map_to_list. rewrite Hlist. left.
Qed.

Definition caching_handler : ZarrGroupHandler :=
  mkZarrGroupHandler (mkGroup (store_str "image.zarr") "" false true) "r+"
    (store_str "image.zarr") true false None None None.

Definition labelled_state : state :=
  mkState ∅ None {["version" := "0.4"]}
    {["attrs" := a_Group (mkGroup (store_str "image.zarr") "attrs" false true)]}.

Lemma write_attrs_then_load_witness :
  ∃ st',
    write_attrs least_key caching_handler {["plate" := "p"]} true labelled_state = Ok st'
    ∧ group_attrs st' = {["plate" := "p"]}
    ∧ (load_attrs caching_handler st').1 = {["plate" := "p"]}.
Proof.
  pose proof (write_attrs_then_load least_key caching_handler {["plate" := "p"]} true
                labelled_state least_key_first) as Hwrite.
  destruct (write_attrs least_key caching_handler {["plate" := "p"]} true labelled_state)
    as [st'|e] eqn:Hrun.
  - destruct Hwrite as (_ & Hstore & _ & Hload); [by intros _ d|].
    exists st'. split; [done|]. rewrite Hload, Hstore. split; apply map_union_empty.
  - destruct Hwrite as [Hread_only _]; [by intros _ d | discriminate Hread_only].
Defined.

(** Once [load_attrs] has run on a handler that held no attributes, it
    keeps returning what it returned first, also after another writer has
    replaced the attributes in the store, when the handler caches or
    [cache] is set on the attributes of the group.  [clean_cache] empties
    the dictionary of the handler only: after it, [load_attrs] still
    returns what it returned first when [cache] is set on the attributes of
    the group, as [__init__] sets it for a handler that caches, and what
    the store holds otherwise. *)
Theorem load_attrs_reads (self : ZarrGroupHandler) (st : state)
    (replaced : gmap string string) :
  get_from_cache self "attrs" st = None →
  (load_attrs self (with_attrs replaced (load_attrs self st).2)).1
  = (if use_cache self || attrs_cache (_group self) then (load_attrs self st).1
     else replaced)
  ∧ (load_attrs self (clean_cache (with_attrs replaced (load_attrs self st).2))).1
    = (if attrs_cache (_group self) then (load_attrs self st).1 else replaced).
Proof.
  intros Hmiss. unfold load_attrs at 2 3 5 6. rewrite Hmiss.
  unfold load_attrs, get_from_cache, asdict, add_to_cache, clean_cache, with_attrs in *.
  destruct (use_cache self), (attrs_cache (_group self)),
    (_cached_asdict st) as [d|] eqn:Hd; simpl in *;
    rewrite ?Hd; simpl; rewrite ?lookup_insert_eq, ?lookup_empty; simpl; done.
Qed.

Lemma load_attrs_reads_witness :
  (load_attrs caching_handler labelled_state).1 = {["version" := "0.4"]}
  ∧ (load_attrs caching_handler
       (clean_cache (with_attrs {["version" := "0.5"]}
                       (load_attrs caching_handler labelled_state).2))).1
    = {["version" := "0.4"]}.
Proof.
  split; [vm_compute; reflexivity|].
  destruct (load_attrs_reads caching_handler labelled_state {["version" := "0.5"]})
    as [_ Hcleaned]; [reflexivity|].
  rewrite Hcleaned. vm_compute; reflexivity.
Defined.

(** With the cache, once the attributes have been loaded, looking up the
    member named [attrs] returns the dictionary of attributes, whatever the
    group holds under that name: the attributes and the members share the
    keys of the cache. *)
Theorem attrs_key_shadows_member (self : ZarrGroupHandler) (st : state) :
  use_cache self = true →
  (_obj_get self "attrs" (load_attrs self st).2).1 = Some (a_dict (load_attrs self st).1).
Proof.
  intros Hcache. pose proof (load_attrs_cached self st Hcache) as Hattrs.
  unfold _obj_get, get_from_cache. rewrite Hcache. simpl. by rewrite Hattrs.
Qed.

Lemma attrs_key_shadows_member_witness :
  (_obj_get caching_handler "attrs" labelled_state).1
  = Some (a_Group (mkGroup (store_str "image.zarr") "attrs" false true))
  ∧ (_obj_get caching_handler "attrs" (load_attrs caching_handler labelled_state).2).1
    = Some (a_dict {["version" := "0.4"]}).
Proof.
  split; [vm_compute; reflexivity|].
  rewrite (attrs_key_shadows_member caching_handler labelled_state eq_refl).
  vm_compute; reflexivity.
Defined.

End ZarrCacheProperties.

Module PlateProperties.
Import ZarrUtils Plate PlateTheory.

Section plate.
Variable zarr_open_group : Store → string → string → result zarr_error Group.
Variable acquires : string → list string → bool.

(** *** Deriving the handler of a child *)

(** The store a derived handler locks on. *)
Definition lock_store (group : Group) : Store :=
match group_store group with
| store_DirectoryStore path => store_str path
| other => other
end.

Lemma init_of_group (group : Group) cache mode parallel_safe parent self :
ZarrGroupHandler_init zarr_open_group (a_group group) cache mode parallel_safe parent
= Ok self →
use_cache self = cache ∧ _mode self = mode ∧ _parallel_safe self = parallel_safe
∧ _parent self = parent
∧ (mode ≠ "r" →
   _group self = set_attrs_cache group cache
   ∧ _store self = lock_store group
   ∧ (parallel_safe = true →
      ∃ path, isinstance_str_or_Path (lock_store group) = Some path
              ∧ _lock self = Some (mkFileLock (path +:+ ".lock") 10))).
Proof.
unfold ZarrGroupHandler_init. case_bool_decide; [done|].
destruct (parallel_safe && cache); [done|].
unfold open_group_wrapper, _check_group.
destruct (_read_only group && bool_decide (mode ∈ ["w"; "w-"])); [done|].
destruct (decide (mode = "r")) as [->|Hmode].
- destruct (bool_decide ("r" = "r") && negb (_read_only group)); simpl.
  + destruct (zarr_open_group _ _ "r") as [g|]; simpl; [|done].
    destruct (_check_store _) as [s|]; simpl; [|done].
    destruct parallel_safe; [destruct (isinstance_str_or_Path s); [|done]|];
      by intros [= <-].
  + destruct (_check_store _) as [s|]; simpl; [|done].
    destruct parallel_safe; [destruct (isinstance_str_or_Path s); [|done]|];
      by intros [= <-].
- rewrite (bool_decide_false (mode = "r")) by done. simpl.
  fold (lock_store group). unfold _check_store.
  destruct (isinstance_NgioSupportedStore (lock_store group)); simpl; [|done].
  destruct parallel_safe.
  + destruct (isinstance_str_or_Path (lock_store group)) as [path|] eqn:Hpath; [|done].
    intros [= <-]. simpl. do 4 (split; [done|]). intros _.
    do 2 (split; [done|]). intros _. by exists path.
  + intros [= <-]. simpl. do 4 (split; [done|]). intros _.
    by do 2 (split; [done|]).
Qed.

(** A derived handler has the cache flag, the mode and the parallel-safe
  flag of the handler it is derived from, and that handler as its parent;
  deriving changes no group of the store and no lock; in a mode other than
  [r] the derived handler is on the child group at the path, which is in
  the store afterwards, and when it is parallel safe its lock is on the
  file named after the store of the group, the same file for every
  path. *)
Theorem derive_handler_inherits (self : ZarrGroupHandler) (path : string)
  (derived : ZarrGroupHandler) (w w' : Zarr) :
derive_handler zarr_open_group self path w = (Ok derived, w') →
use_cache derived = use_cache self
∧ _mode derived = _mode self
∧ _parallel_safe derived = _parallel_safe self
∧ _parent derived = Some self
∧ held w' = held w
∧ (∀ node, is_Some (nodes w !! node) → nodes w' !! node = nodes w !! node)
∧ (_mode self ≠ "r" →
   _group derived = set_attrs_cache (child (_group self) path) (use_cache self)
   ∧ is_Some (nodes w' !! join (group_path (_group self)) path)
   ∧ (_parallel_safe self = true →
      ∃ store_path,
        isinstance_str_or_Path (lock_store (_group self)) = Some store_path
        ∧ _lock derived = Some (mkFileLock (store_path +:+ ".lock") 10))).
Proof.
intros Hderive.
pose proof (derive_handler_Ok _ _ _ _ _ _ Hderive) as (Hheld & Hnodes & _).
revert Hderive. unfold derive_handler.
intros (group & w1 & Hgroup & Hinit)%bind_run_inv.
unfold lift in Hinit. injection Hinit as Hinit <-.
apply init_of_group in Hinit as (Hcache & Hmode & Hsafe & Hparent & Hrest).
split_and!; try done. intros Hnot_r.
assert (group = child (_group self) path
        ∧ is_Some (nodes w1 !! join (group_path (_group self)) path)) as [-> Hnode].
{ revert Hgroup. unfold get_group.
  destruct (nodes w !! join _ path) eqn:Hnode; simpl.
  - intros [= <- <-]. by rewrite Hnode.
  - unfold create_group. rewrite bool_decide_false by done.
    intros [= <- <-]. simpl. split; [done|]. by rewrite lookup_insert_eq. }
destruct (Hrest Hnot_r) as (Hgroup' & _ & Hlock).
split; [done|]. split; [done|]. intros Hps. rewrite Hps in Hlock.
destruct (Hlock eq_refl) as (store_path & Hpath & Hl).
exists store_path. by split.
Qed.

(** *** Locks are released *)

(** A method keeps the locks when the lock files held after it are those
  held before it, whether it returns or raises. *)
Definition keeps_locks {A} (m : M A) : Prop := ∀ w, held (m w).2 = held w.

Lemma keeps_ret {A} (a : A) : keeps_locks (mret a).
Proof. done. Qed.

Lemma keeps_raise {A} e : keeps_locks (raise e : M A).
Proof. done. Qed.

Lemma keeps_lift {A} (r : res A) : keeps_locks (lift r).
Proof. done. Qed.

Lemma keeps_bind {A B} (m : M A) (k : A → M B) :
keeps_locks m → (∀ a, keeps_locks (k a)) → keeps_locks (m ≫= k).
Proof.
intros Hm Hk w. rewrite bind_run. specialize (Hm w).
destruct (m w) as [[a|e] w1]; simpl in *; [|done]. by rewrite Hk.
Qed.

Create HintDb plate_frames.
#[local] Hint Resolve frames_ret frames_raise frames_lift
frames_load_attrs frames_write_attrs frames_clean_cache frames_get_group
frames_derive_handler frames_plate_meta frames_well_meta : plate_frames.

Ltac solve_frames :=
repeat first
  [ solve [auto with plate_frames]
  | match goal with
    | |- frames (match ?x with _ => _ end) => destruct x
    | |- ∀ _, _ => intros ?
    end
  | match goal with |- frames (_ ≫= _) => apply frames_bind end ].

Lemma keeps_frames {A} (m : M A) : frames m → keeps_locks m.
Proof. intros Hm w. by apply frames_held. Qed.

Lemma keeps_with {A} (l : Lock) (body : M A) :
keeps_locks body → keeps_locks (with_ acquires l body).
Proof.
intros Hbody w. destruct l as [|l]; [by rewrite with_MockLock|].
unfold with_. simpl. destruct (acquires (lock_file l) (held w)); [|done].
specialize (Hbody (mkZarr (nodes w) (lock_file l :: held w))).
destruct (body _) as [r w2]. simpl in *. rewrite Hbody. apply release_head.
Qed.

Lemma keeps_select_lock (atomic : bool) (group_handler : ZarrGroupHandler) :
keeps_locks ((if atomic then (l ← lift (lock group_handler); mret (a_FileLock l))
              else mret MockLock) : M Lock).
Proof. destruct atomic; [|done]. apply keeps_bind; [apply keeps_lift | done]. Qed.

Lemma keeps_remove_well self row column atomic :
keeps_locks (_remove_well acquires self row column atomic).
Proof.
unfold _remove_well. apply keeps_bind; [apply keeps_select_lock|].
intros l. apply keeps_with, keeps_frames. unfold meta, write_plate_meta. solve_frames.
Qed.

(** Adding and removing an image, atomic or not, leave the lock files held
  as they were, whether they return or raise and whether the locks were
  acquired or not: a lock taken for a phase is released when the phase
  ends. *)
Theorem locks_are_released (self : OmeZarrPlate) (row : string) (column : Column)
  (image_path : string) (acquisition_id : option Z) (acquisition_name : option string)
  (atomic : bool) (w : Zarr) :
held (_add_image zarr_open_group acquires self row column image_path acquisition_id
        acquisition_name atomic w).2 = held w
∧ held (_remove_image zarr_open_group acquires self row column image_path atomic w).2
  = held w.
Proof.
split.
- apply (keeps_bind _ _ (keeps_select_lock atomic _)). intros plate_lock.
  apply keeps_bind.
  { apply keeps_with, keeps_frames. unfold meta, write_plate_meta. solve_frames. }
  intros _. apply keeps_bind.
  { apply keeps_frames. unfold OmeZarrPlate_get_well_path, meta. solve_frames. }
  intros well_path. apply keeps_bind; [apply keeps_frames; solve_frames|].
  intros group_handler. apply (keeps_bind _ _ (keeps_select_lock atomic _)).
  intros well_lock. apply keeps_with, keeps_frames.
  unfold find_well_meta_handler, write_well_meta. solve_frames.
- apply keeps_bind.
  { apply keeps_frames. unfold get_well, meta, OmeZarrWell_init, find_well_meta_handler.
    solve_frames. }
  intros well. apply (keeps_bind _ _ (keeps_select_lock atomic _)). intros well_lock.
  apply keeps_with. unfold OmeZarrWell_meta.
  apply keeps_bind; [apply keeps_frames; solve_frames|]. intros well_doc.
  apply keeps_bind; [apply keeps_lift|]. intros well_doc'.
  apply keeps_bind; [apply keeps_frames; unfold write_well_meta; solve_frames|].
  intros _. apply keeps_bind; [apply keeps_ret|]. intros _.
  case_bool_decide; [apply keeps_remove_well | apply keeps_ret].
Qed.

(** *** A removal that fails half way *)

(** An atomic removal of the last image of a well asks for the lock of the
  plate while it holds the lock of the well.  When that lock is not
  acquired, the call raises the timeout of the plate lock after the well
  document has been written without the image: the plate document still
  lists the well, nothing is rolled back, and the lock of the well is
  released. *)
Theorem atomic_removal_is_not_rolled_back (self : OmeZarrPlate) (row : string)
  (column : Column) (image_path : string) (w w1 : Zarr) (well : OmeZarrWell)
  (well_lock plate_lock : FileLock) (well_doc well_doc' : NgioWellMeta) :
get_well zarr_open_group self row column w = (Ok well, w1) →
_read_only (_group (meta_group_handler (well_meta_handler well))) = false →
_lock (meta_group_handler (well_meta_handler well)) = Some well_lock →
_lock (_group_handler self) = Some plate_lock →
acquires (lock_file well_lock) (held w1) = true →
acquires (lock_file plate_lock) (lock_file well_lock :: held w1) = false →
nodes w1 !! well_node well = Some (attrs_well well_doc) →
remove_image well_doc image_path = Ok well_doc' →
paths well_doc' None = [] →
atomic_remove_image zarr_open_group acquires self row column image_path w
= (Raise (Timeout (lock_file plate_lock)),
   mkZarr (<[well_node well := attrs_well well_doc']> (nodes w1)) (held w1)).
Proof.
intros Hwell Hwritable Hwell_lock Hplate_lock Hfirst Hsecond Hdoc Hremove Hempty.
unfold atomic_remove_image, _remove_image.
rewrite (bind_run_Ok _ _ _ _ _ Hwell).
rewrite (lock_bind_run _ _ well_lock) by done.
unfold with_ at 1. simpl. rewrite Hfirst.
set (w2 := mkZarr (nodes w1) (lock_file well_lock :: held w1)).
assert (OmeZarrWell_meta well w2 = (Ok well_doc, w2)) as Hmeta
  by (by apply well_meta_Ok).
rewrite (bind_run_Ok _ _ _ _ _ Hmeta), Hremove, lift_bind_run.
unfold write_well_meta.
rewrite (bind_run_Ok _ _ _ _ _ (write_attrs_Ok _ _ _ Hwritable)).
unfold clean_cache at 1. rewrite ret_bind_run.
rewrite bool_decide_true by (by rewrite Hempty).
unfold _remove_well. rewrite (lock_bind_run _ _ plate_lock) by done.
unfold with_. simpl. rewrite Hsecond. simpl.
by rewrite bool_decide_true.
Qed.

(** *** Finding the path of an image *)


(** *** Adding an image *)

(** The well document that an image is added to: the default, empty one
  when the node of the well has no attributes, the one the node holds
  otherwise. *)
Definition well_before (attrs : option Attrs) : option NgioWellMeta :=
match attrs with
| None | Some attrs_empty => Some (NgioWellMeta_default_init [] None)
| Some (attrs_well well_doc) => Some well_doc
| Some (attrs_plate _) => None
end.


Lemma derive_handler_again self path group_handler w1 w2 :
derive_handler zarr_open_group self path w1 = (Ok group_handler, w2) →
derive_handler zarr_open_group self path w2 = (Ok group_handler, w2).
Proof.
unfold derive_handler. intros (group & w' & Hgroup & Hinit)%bind_run_inv.
unfold lift in Hinit. injection Hinit as Hinit <-.
assert (get_group self path true w' = (Ok group, w')) as Hagain.
{ revert Hgroup. unfold get_group.
  destruct (nodes w1 !! join _ path) eqn:Hnode; simpl.
  - intros [= <- <-]. by rewrite Hnode.
  - unfold create_group. case_bool_decide; [done|]. intros [= <- <-]. simpl.
    by rewrite lookup_insert_eq. }
rewrite (bind_run_Ok _ _ _ _ _ Hagain). unfold lift. by rewrite Hinit.
Qed.


End plate.

Lemma derive_handler_inherits_witness :
  derive_handler ZarrUtilsTheory.open_existing (plate_handler true) "A/1" one_image
  = (Ok (well_handler true), one_image)
  ∧ ∃ store_path,
      isinstance_str_or_Path (lock_store (_group (plate_handler true))) = Some store_path
      ∧ _lock (well_handler true) = Some (mkFileLock (store_path +:+ ".lock") 10).
Proof.
  assert (derive_handler ZarrUtilsTheory.open_existing (plate_handler true) "A/1" one_image
          = (Ok (well_handler true), one_image)) as Hderive by (vm_compute; reflexivity).
  split; [done|].
  destruct (derive_handler_inherits ZarrUtilsTheory.open_existing (plate_handler true) "A/1"
              (well_handler true) one_image one_image Hderive)
    as (_ & _ & _ & _ & _ & _ & Hchild).
  destruct Hchild as (_ & _ & Hlock); [done|]. by apply Hlock.
Defined.

Lemma atomic_removal_is_not_rolled_back_witness :
  atomic_remove_image ZarrUtilsTheory.open_existing refuses_held (plate true) "A" (column_int 1) "0" one_image
  = (Raise (Timeout "plate.zarr.lock"),
     mkZarr (<["A/1" := attrs_well (mkNgioWellMeta [])]> (nodes one_image)) []).
Proof.
  apply (atomic_removal_is_not_rolled_back ZarrUtilsTheory.open_existing refuses_held (plate true)
           "A" (column_int 1) "0" one_image one_image (well_A1 true)
           (mkFileLock "plate.zarr.lock" 10) (mkFileLock "plate.zarr.lock" 10)
           one_image_doc (mkNgioWellMeta []));
    vm_compute; reflexivity.
Defined.



End PlateProperties.
